(** * The xv6 write-ahead log (kernel/log.c), embedded and verified

    The development follows kernel/log.c function by function.  The log
    manager is C code over three collaborators that live in other files of
    the kernel: the buffer cache (bio.c), the lock and sleep primitives
    (spinlock.c, proc.c) and the constants of param.h and fs.h.  The
    constants are parameters of the development; the collaborators are
    modelled from their contracts and every call to them that can be
    observed from outside (a disk write, a pin, an unpin, a lock operation,
    a sleep, a wakeup) is recorded, in program order, in a trace.

    Conventions.
    - A C [int] is a [Z]; the places where log.c computes with ints or
      converts between [int] and [uint] apply [to_int] and [to_uint], the
      32-bit wrap-arounds.
    - [buf->data] is BSIZE bytes; log.c only copies whole blocks and views
      the header block through [struct logheader *], an array of ints, so a
      block is the list of its BSIZE / 4 ints.
    - An array access outside its bounds is undefined behaviour in C and is
      the outcome [Undefined] here; [panic] never returns and is the outcome
      [Panic].  *)

From stdpp Require Import base option list gmap strings.
From Stdlib Require Import ZArith Lia.

Local Open Scope Z_scope.

(** ** Machine integers *)

Definition int_min : Z := -2147483648.
Definition int_max : Z := 2147483647.

(** Conversion to [int] and to [uint] (two's complement, 32 bits). *)
Definition to_int (z : Z) : Z := (z + 2147483648) mod 4294967296 - 2147483648.
Definition to_uint (z : Z) : Z := z mod 4294967296.

Definition is_int (z : Z) : Prop := int_min <= z <= int_max.

(** ** Outcomes: normal return, [panic], undefined behaviour *)

Inductive outcome (A : Type) : Type :=
| Done (a : A)
| Panic (msg : string)
| Undefined.
Arguments Done {A} a.
Arguments Panic {A} msg.
Arguments Undefined {A}.

#[global] Instance outcome_ret : MRet outcome := fun _ a => Done a.
#[global] Instance outcome_bind : MBind outcome := fun _ _ f m =>
  match m with
  | Done a => f a
  | Panic msg => Panic msg
  | Undefined => Undefined
  end.

Definition is_panic {A} (o : outcome A) : Prop :=
  match o with Panic _ => True | _ => False end.

(** C arrays of ints: an index outside the array is undefined behaviour. *)
Definition arr_get (l : list Z) (i : Z) : outcome Z :=
  if 0 <=? i then
    match l !! Z.to_nat i with
    | Some v => Done v
    | None => Undefined
    end
  else Undefined.

Definition arr_set (l : list Z) (i : Z) (v : Z) : outcome (list Z) :=
  if (0 <=? i) && (i <? Z.of_nat (length l)) then Done (<[Z.to_nat i := v]> l)
  else Undefined.

(** ** The data of log.c *)

(** [struct logheader]: [int n; int block[LOGSIZE]]. *)
Record logheader : Type := mkLogheader {
  lh_n : Z;
  lh_block : list Z
}.

(** [struct log], without the spinlock (its acquire and release are trace
    events). *)
Record log : Type := mkLog {
  log_start : Z;
  log_size : Z;
  log_outstanding : Z;
  log_committing : Z;
  log_dev : Z;
  log_lh : logheader
}.

(** The two fields of [struct superblock] that log.c reads (both [uint]). *)
Record superblock : Type := mkSuperblock {
  sb_logstart : Z;
  sb_nlog : Z
}.

(** A block is named by device and block number, as [bread(dev, blockno)]
    names it. *)
Definition blockid : Type := Z * Z.
Abbreviation block := (list Z).

(** A cached buffer: the fields of [struct buf] that matter to the log. *)
Record buf : Type := mkBuf {
  buf_data : block;
  buf_refcnt : Z
}.

(** What the collaborators are told to do, in program order. *)
Inductive event : Type :=
| EvAcquire
| EvRelease
| EvSleep
| EvWakeup
| EvBwrite (b : blockid) (d : block)
| EvBpin (b : blockid)
| EvBunpin (b : blockid).

Record world : Type := mkWorld {
  disk : gmap blockid block;
  bcache : gmap blockid buf;
  logger : log;
  trace : list event
}.

Definition set_disk (d : gmap blockid block) (w : world) : world :=
  mkWorld d (bcache w) (logger w) (trace w).
Definition set_bcache (c : gmap blockid buf) (w : world) : world :=
  mkWorld (disk w) c (logger w) (trace w).
Definition set_logger (l : log) (w : world) : world :=
  mkWorld (disk w) (bcache w) l (trace w).
Definition emit (e : event) (w : world) : world :=
  mkWorld (disk w) (bcache w) (logger w) (trace w ++ [e]).

Definition set_lh (h : logheader) (l : log) : log :=
  mkLog (log_start l) (log_size l) (log_outstanding l) (log_committing l)
        (log_dev l) h.
Definition set_n (v : Z) (l : log) : log :=
  set_lh (mkLogheader v (lh_block (log_lh l))) l.
Definition set_block (bl : list Z) (l : log) : log :=
  set_lh (mkLogheader (lh_n (log_lh l)) bl) l.
Definition set_outstanding (v : Z) (l : log) : log :=
  mkLog (log_start l) (log_size l) v (log_committing l) (log_dev l) (log_lh l).
Definition set_committing (v : Z) (l : log) : log :=
  mkLog (log_start l) (log_size l) (log_outstanding l) v (log_dev l) (log_lh l).

(** The constants of param.h and fs.h, which log.c includes: the capacity of
    the header, the largest number of blocks one operation may write, and
    the size of a block in bytes. *)
Class Params : Type := mkParams {
  LOGSIZE : Z;
  MAXOPBLOCKS : Z;
  BSIZE : Z
}.

Section Log.

Context {P : Params}.

(** [sizeof(struct logheader)]: [1 + LOGSIZE] ints of four bytes. *)
Definition sizeof_logheader : Z := 4 * (1 + LOGSIZE).

(** Number of ints in a block. *)
Definition block_ints : nat := Z.to_nat (BSIZE / 4).

Definition zero_block : block := replicate block_ints 0.

(** ** The buffer cache *)

(** Modelled from the spec: bio.c is not part of the sources at hand; the
    spec gives its contract as fetch by block number with reference
    counting, synchronous write-back, release, pin and unpin.  A block of
    the device that was never written reads as zeros.  Buffers are never
    recycled here: log.c releases a buffer only when it is clean or pinned,
    so recycling could not be observed. *)
Definition dread (d : gmap blockid block) (b : blockid) : block :=
  default zero_block (d !! b).

(** The contents a [bread] of [b] shows: the cached buffer, else the disk. *)
Definition bview (w : world) (b : blockid) : block :=
  match bcache w !! b with
  | Some bf => buf_data bf
  | None => dread (disk w) b
  end.

(** Modelled from the spec: [bread], the fetch of the buffer cache. *)
Definition bread (b : blockid) (w : world) : world :=
  match bcache w !! b with
  | Some bf => set_bcache (<[b := mkBuf (buf_data bf) (buf_refcnt bf + 1)]> (bcache w)) w
  | None => set_bcache (<[b := mkBuf (dread (disk w) b) 1]> (bcache w)) w
  end.

(** Modelled from the spec: [bwrite], the synchronous write-back. *)
Definition bwrite (b : blockid) (w : world) : world :=
  emit (EvBwrite b (bview w b)) (set_disk (<[b := bview w b]> (disk w)) w).

Definition add_refcnt (b : blockid) (k : Z) (w : world) : world :=
  set_bcache (alter (fun bf => mkBuf (buf_data bf) (buf_refcnt bf + k)) b (bcache w)) w.

(** Modelled from the spec: [brelse], [bpin] and [bunpin] of the buffer
    cache. *)
Definition brelse (b : blockid) (w : world) : world := add_refcnt b (-1) w.
Definition bpin (b : blockid) (w : world) : world := emit (EvBpin b) (add_refcnt b 1 w).
Definition bunpin (b : blockid) (w : world) : world := emit (EvBunpin b) (add_refcnt b (-1) w).

(** An assignment to [b->data], whole ([memmove] of BSIZE bytes). *)
Definition set_data (b : blockid) (d : block) (w : world) : world :=
  match bcache w !! b with
  | Some bf => set_bcache (<[b := mkBuf d (buf_refcnt bf)]> (bcache w)) w
  | None => set_bcache (<[b := mkBuf d 0]> (bcache w)) w
  end.

(** An assignment to one int of [b->data]. *)
Definition set_data_int (b : blockid) (i : Z) (v : Z) (w : world) : outcome world :=
  d ← arr_set (bview w b) i v; Done (set_data b d w).

(** [for (i = first; i < first + k; i++) body], for a bound that the body
    leaves alone. *)
Fixpoint for_loop (k : nat) (i : Z) (body : Z → world → outcome world)
    (w : world) : outcome world :=
  match k with
  | O => Done w
  | S k' => w' ← body i w; for_loop k' (i + 1) body w'
  end.

(** ** log.c *)

(** [bread(logger.dev, logger.start)]: the header block. *)
Definition head_id (l : log) : blockid :=
  (to_uint (log_dev l), to_uint (log_start l)).

(** [bread(logger.dev, logger.start + tail + 1)]: the log block of entry
    [tail]. *)
Definition slot_id (l : log) (tail : Z) : blockid :=
  (to_uint (log_dev l), to_uint (to_int (log_start l + tail + 1))).

(** [bread(logger.dev, logger.lh.block[tail])] for the block number [h] read
    from the header. *)
Definition home_id (l : log) (h : Z) : blockid :=
  (to_uint (log_dev l), to_uint h).

Definition cur_n (w : world) : Z := lh_n (log_lh (logger w)).
Definition cur_block (w : world) : list Z := lh_block (log_lh (logger w)).

(** One iteration of the loop of [install_trans]. *)
Definition install_trans_body (recovering : Z) (tail : Z) (w : world) : outcome world :=
  let lbuf := slot_id (logger w) tail in
  let w := bread lbuf w in
  h ← arr_get (cur_block w) tail;
  let dbuf := home_id (logger w) h in
  let w := bread dbuf w in
  let w := set_data dbuf (bview w lbuf) w in
  let w := bwrite dbuf w in
  let w := if recovering =? 0 then bunpin dbuf w else w in
  let w := brelse lbuf w in
  let w := brelse dbuf w in
  Done w.

Definition install_trans (recovering : Z) (w : world) : outcome world :=
  for_loop (Z.to_nat (cur_n w)) 0 (install_trans_body recovering) w.

(** One iteration of the loop of [read_head], on the held buffer [buf]. *)
Definition read_head_body (buf : blockid) (i : Z) (w : world) : outcome world :=
  v ← arr_get (bview w buf) (1 + i);
  bl ← arr_set (cur_block w) i v;
  Done (set_logger (set_block bl (logger w)) w).

Definition read_head (w : world) : outcome world :=
  let buf := head_id (logger w) in
  let w := bread buf w in
  n ← arr_get (bview w buf) 0;
  let w := set_logger (set_n n (logger w)) w in
  w ← for_loop (Z.to_nat (cur_n w)) 0 (read_head_body buf) w;
  Done (brelse buf w).

(** One iteration of the loop of [write_head], on the held buffer [buf]. *)
Definition write_head_body (buf : blockid) (i : Z) (w : world) : outcome world :=
  v ← arr_get (cur_block w) i;
  set_data_int buf (1 + i) v w.

Definition write_head (w : world) : outcome world :=
  let buf := head_id (logger w) in
  let w := bread buf w in
  w ← set_data_int buf 0 (cur_n w) w;
  w ← for_loop (Z.to_nat (cur_n w)) 0 (write_head_body buf) w;
  let w := bwrite buf w in
  Done (brelse buf w).

Definition recover_from_log (w : world) : outcome world :=
  w ← read_head w;
  w ← install_trans 1 w;
  let w := set_logger (set_n 0 (logger w)) w in
  write_head w.

(** [initlog]; its [initlock] leaves no mark on the state modelled here. *)
Definition initlog (dev : Z) (sb : superblock) (w : world) : outcome world :=
  if BSIZE <=? sizeof_logheader then Panic "initlog: too big logheader"
  else
    let l := logger w in
    let l := mkLog (to_int (sb_logstart sb)) (to_int (sb_nlog sb))
                   (log_outstanding l) (log_committing l) dev (log_lh l) in
    recover_from_log (set_logger l w).

(** [begin_op] sleeps inside its loop, and other threads run while it
    sleeps.  One pass through the body of the [while (1)] either admits the
    caller or puts it to sleep. *)
Inductive admission : Type :=
| Entered (w : world)
| Asleep (w : world).

Definition begin_op_pass (w : world) : admission :=
  let l := logger w in
  if negb (log_committing l =? 0) then Asleep (emit EvSleep w)
  else if LOGSIZE <? to_int (lh_n (log_lh l) + to_int (to_int (log_outstanding l + 1) * MAXOPBLOCKS))
  then Asleep (emit EvSleep w)
  else
    let w := set_logger (set_outstanding (to_int (log_outstanding l + 1)) l) w in
    Entered (emit EvRelease w).

(** The loop of [begin_op].  [wakes] lists what the other threads do to the
    world during each sleep of the caller, up to its wakeup; when the list
    is used up the caller is still asleep. *)
Fixpoint begin_op_loop (wakes : list (world → world)) (w : world) : admission :=
  match begin_op_pass w with
  | Entered w' => Entered w'
  | Asleep w' =>
      match wakes with
      | [] => Asleep w'
      | f :: wakes' => begin_op_loop wakes' (f w')
      end
  end.

Definition begin_op (wakes : list (world → world)) (w : world) : admission :=
  begin_op_loop wakes (emit EvAcquire w).

(** One iteration of the loop of [write_log]. *)
Definition write_log_body (tail : Z) (w : world) : outcome world :=
  let to := slot_id (logger w) tail in
  let w := bread to w in
  h ← arr_get (cur_block w) tail;
  let from := home_id (logger w) h in
  let w := bread from w in
  let w := set_data to (bview w from) w in
  let w := bwrite to w in
  let w := brelse from w in
  let w := brelse to w in
  Done w.

Definition write_log (w : world) : outcome world :=
  for_loop (Z.to_nat (cur_n w)) 0 write_log_body w.

Definition commit (w : world) : outcome world :=
  if 0 <? cur_n w then
    w ← write_log w;
    w ← write_head w;
    w ← install_trans 0 w;
    let w := set_logger (set_n 0 (logger w)) w in
    write_head w
  else Done w.

Definition end_op (w : world) : outcome world :=
  let w := emit EvAcquire w in
  let w := set_logger (set_outstanding (to_int (log_outstanding (logger w) - 1)) (logger w)) w in
  if negb (log_committing (logger w) =? 0) then Panic "logger.committing"
  else
    let '(do_commit, w) :=
      if log_outstanding (logger w) =? 0
      then (1, set_logger (set_committing 1 (logger w)) w)
      else (0, emit EvWakeup w) in
    let w := emit EvRelease w in
    if negb (do_commit =? 0) then
      w ← commit w;
      let w := emit EvAcquire w in
      let w := set_logger (set_committing 0 (logger w)) w in
      let w := emit EvWakeup w in
      Done (emit EvRelease w)
    else Done w.

(** The scan of [log_write]:
    [for (i = 0; i < n; i++) if (block[i] == blockno) break;]
    started at [i] with [k] entries left; the result is the final [i]. *)
Fixpoint log_scan (k : nat) (i : Z) (bl : list Z) (blockno : Z) : outcome Z :=
  match k with
  | O => Done i
  | S k' =>
      v ← arr_get bl i;
      if to_uint v =? blockno then Done i else log_scan k' (i + 1) bl blockno
  end.

(** [log_write(b)]; [b] is a held buffer, named by [b->dev] and
    [b->blockno]. *)
Definition log_write (b : blockid) (w : world) : outcome world :=
  let w := emit EvAcquire w in
  if (LOGSIZE <=? cur_n w) || (to_int (log_size (logger w) - 1) <=? cur_n w)
  then Panic "too big a transaction"
  else if log_outstanding (logger w) <? 1 then Panic "log_write outside of trans"
  else
    i ← log_scan (Z.to_nat (cur_n w)) 0 (cur_block w) b.2;
    bl ← arr_set (cur_block w) i (to_int b.2);
    let w := set_logger (set_block bl (logger w)) w in
    let w :=
      if i =? cur_n w
      then let w := bpin b w in set_logger (set_n (to_int (cur_n w + 1)) (logger w)) w
      else w in
    Done (emit EvRelease w).

(** The use of [log_write] that log.c documents:
    [bp = bread(...); modify bp->data[]; log_write(bp); brelse(bp)]. *)
Definition logged_update (b : blockid) (d : block) (w : world) : outcome world :=
  let w := bread b w in
  let w := set_data b d w in
  w ← log_write b w;
  Done (brelse b w).

(** The world at boot: the disk as it was left, an empty buffer cache, the
    zero-initialised [struct log logger]. *)
Definition logger0 : log :=
  mkLog 0 0 0 0 0 (mkLogheader 0 (replicate (Z.to_nat LOGSIZE) 0)).

Definition boot (d : gmap blockid block) : world := mkWorld d ∅ logger0 [].

End Log.

(** ** Notions the statements are written in *)

Section Notions.

Context {P : Params}.

(** The block number in entry [j] of the in-memory header. *)
Definition entry (w : world) (j : Z) : Z := default 0 (cur_block w !! Z.to_nat j).

(** The home block of entry [j] and the log block of entry [j]. *)
Definition home (w : world) (j : Z) : blockid := home_id (logger w) (entry w j).
Definition slot (w : world) (j : Z) : blockid := slot_id (logger w) j.
Definition head (w : world) : blockid := head_id (logger w).

(** The disk writes of a trace, in order. *)
Definition writes_of (tr : list event) : list (blockid * block) :=
  omap (fun e => match e with EvBwrite b d => Some (b, d) | _ => None end) tr.

(** A disk after a sequence of block writes. *)
Definition replay (ws : list (blockid * block)) (d : gmap blockid block) : gmap blockid block :=
  foldl (fun d p => <[p.1 := p.2]> d) d ws.

(** The disk found after a crash that lets the first [k] writes of [tr]
    through: a block write is atomic, everything in memory is lost. *)
Definition crash_disk (d : gmap blockid block) (tr : list event) (k : nat) : gmap blockid block :=
  replay (take k (writes_of tr)) d.

(** The last contents written to [b], if any. *)
Fixpoint last_write (ws : list (blockid * block)) (b : blockid) : option block :=
  match ws with
  | [] => None
  | p :: ws' =>
      match last_write ws' b with
      | Some d => Some d
      | None => if decide (b = p.1) then Some p.2 else None
      end
  end.

(** The header block as [write_head] leaves it: the count, the first
    [n] block numbers of the in-memory header, and behind them what the
    block held before. *)
Definition header_image (n : Z) (bl : list Z) (old : block) : block :=
  n :: take (Z.to_nat n) bl ++ drop (S (Z.to_nat n)) old.

(** The header block read as a header: its count, and the block numbers
    the count covers. *)
Definition disk_count (hb : block) : Z := default 0 (hb !! 0%nat).
Definition disk_entries (hb : block) : list Z :=
  take (Z.to_nat (disk_count hb)) (drop 1 hb).

(** Installing a logged transaction on the bare disk: for the entries [hs],
    the first of which is entry [j], in order, the log block is copied over
    the home block. *)
Fixpoint install_on_disk (l : log) (j : Z) (hs : list Z)
    (d : gmap blockid block) : gmap blockid block :=
  match hs with
  | [] => d
  | h :: hs' =>
      install_on_disk l (j + 1) hs' (<[home_id l h := dread d (slot_id l j)]> d)
  end.

(** Every block, on disk and in the cache, has BSIZE / 4 ints. *)
Definition sized (w : world) : Prop :=
  map_Forall (fun _ d => length d = block_ints) (disk w) ∧
  map_Forall (fun _ bf => length (buf_data bf) = block_ints) (bcache w).

(** The cache holds no block that differs from the disk. *)
Definition clean (w : world) : Prop :=
  ∀ b, bview w b = dread (disk w) b.

(** The header has room for an entry, and the log region does not wrap
    around: the header block and the [LOGSIZE] log blocks behind it have
    block numbers that an [int] holds. *)
Definition geometry_ok (l : log) : Prop :=
  0 < LOGSIZE ∧ 0 <= log_start l ∧ log_start l + LOGSIZE + 1 <= int_max.

(** Block number [h] does not lie in the part of the log region that the
    open transaction uses: the header block and the first [n] log blocks. *)
Definition outside_log (l : log) (h : Z) : Prop :=
  to_uint h < log_start l ∨ log_start l + lh_n (log_lh l) < to_uint h.

(** The in-memory header is an array of [LOGSIZE] ints with a count inside
    it, and no logged block number lies in the used part of the log. *)
Definition header_ok (l : log) : Prop :=
  0 <= lh_n (log_lh l) <= LOGSIZE ∧
  length (lh_block (log_lh l)) = Z.to_nat LOGSIZE ∧
  Forall (outside_log l) (take (Z.to_nat (lh_n (log_lh l))) (lh_block (log_lh l))).

(** *** The commit, phase by phase, as the spec words it *)

(** Phase 1, write-log: for each header entry [j], the cache contents of the
    home block go to log block [logStart + j + 1], which is written. *)
Definition write_log_writes (w : world) : list (blockid * block) :=
  (fun j => (slot w j, bview w (home w j))) <$> seqZ 0 (cur_n w).

(** Phase 2, write-header: the count and the block list go to the header
    block, which is written. *)
Definition committed_header (w : world) : block :=
  header_image (cur_n w) (cur_block w) (bview w (head w)).

(** Phase 3, install: for each header entry the contents of its log block,
    which phase 1 made the cache contents of the home block, go to the home
    block, which is written and unpinned. *)
Definition install_writes (w : world) : list (blockid * block) :=
  (fun j => (home w j, bview w (home w j))) <$> seqZ 0 (cur_n w).

(** Phase 4, erase-header: the count is reset and the header block written
    again. *)
Definition erased_header (w : world) : block :=
  header_image 0 (cur_block w) (committed_header w).

Definition commit_events (w : world) : list event :=
  ((fun p => EvBwrite p.1 p.2) <$> write_log_writes w) ++
  [EvBwrite (head w) (committed_header w)] ++
  concat ((fun p => [EvBwrite p.1 p.2; EvBunpin p.1]) <$> install_writes w) ++
  [EvBwrite (head w) (erased_header w)].

(** What one copy of a block does to the world: the cached buffer [dst]
    and the disk block [dst] both become [v], the collaborators see [evs],
    the log manager's memory is left alone. *)
Definition copies (dst : blockid) (v : block) (evs : list event) (w w' : world) : Prop :=
  logger w' = logger w ∧
  disk w' = <[dst := v]> (disk w) ∧
  (∀ b, bview w' b = if decide (b = dst) then v else bview w b) ∧
  trace w' = trace w ++ evs.

(** What a sequence of block writes does to the disk and to what the cache
    shows. *)
Definition effect (ws : list (blockid * block)) (w w' : world) : Prop :=
  disk w' = replay ws (disk w) ∧
  ∀ b, bview w' b = default (bview w b) (last_write ws b).

(** The worst-case reservation that [begin_op] compares with [LOGSIZE], and
    the condition that computing it in ints does not overflow. *)
Definition reservation (l : log) : Z :=
  lh_n (log_lh l) + (log_outstanding l + 1) * MAXOPBLOCKS.

Definition reservation_in_range (l : log) : Prop :=
  is_int (log_outstanding l + 1) ∧
  is_int ((log_outstanding l + 1) * MAXOPBLOCKS) ∧
  is_int (reservation l).

(** The world in which [end_op] calls [commit]: the caller was the last
    outstanding operation, [committing] is set and the lock released. *)
Definition committing_world (w : world) : world :=
  emit EvRelease
    (set_logger (set_committing 1 (set_outstanding 0 (logger w))) (emit EvAcquire w)).

(** What [end_op] does after [commit] returned. *)
Definition commit_done (w : world) : world :=
  emit EvRelease
    (emit EvWakeup (set_logger (set_committing 0 (logger w)) (emit EvAcquire w))).

(** The entries of the open transaction, and whether block number [x] (a
    [uint], as [b->blockno] is) is among them in the eyes of the scan of
    [log_write]. *)
Definition entries (w : world) : list Z := take (Z.to_nat (cur_n w)) (cur_block w).
Definition logged (w : world) (x : Z) : Prop := x ∈ to_uint <$> entries w.

(** [log_write(b)] called [k] times in a row. *)
Fixpoint log_write_times (k : nat) (b : blockid) (w : world) : outcome world :=
  match k with
  | O => Done w
  | S k' => w' ← log_write b w; log_write_times k' b w'
  end.

(** The three conditions under which the spec says [log_write] is fatal. *)
Definition log_write_fatal (l : log) : Prop :=
  lh_n (log_lh l) >= LOGSIZE ∨ lh_n (log_lh l) >= log_size l - 1 ∨ log_outstanding l < 1.

(** The capacity invariant of the spec. *)
Definition capacity_inv (w : world) : Prop :=
  0 <= cur_n w <= LOGSIZE ∧ cur_n w <= log_size (logger w) - 1.

(** The world a pass of [begin_op] leaves, admitted or asleep. *)
Definition admission_world (a : admission) : world :=
  match a with Entered w => w | Asleep w => w end.

(** The states the log manager reaches: it is initialised on a freshly
    booted kernel, with a superblock that [ok] admits, and from then on
    callers enter [begin_op] and are admitted or put to sleep, sleepers
    wake up and are tested again, and admitted callers record blocks,
    modify and record blocks, and end; the log is recovered or committed;
    no step panics.  Threads interleave at these steps. *)
Inductive reachable (ok : superblock → Prop) : world → Prop :=
| reach_init d dev sb w :
    ok sb → initlog dev sb (boot d) = Done w → reachable ok w
| reach_begin w :
    reachable ok w → reachable ok (admission_world (begin_op [] w))
| reach_retest w :
    reachable ok w → reachable ok (admission_world (begin_op_pass w))
| reach_log_write w b w' :
    reachable ok w → log_write b w = Done w' → reachable ok w'
| reach_logged_update w b d w' :
    reachable ok w → logged_update b d w = Done w' → reachable ok w'
| reach_end_op w w' :
    reachable ok w → end_op w = Done w' → reachable ok w'
| reach_commit w w' :
    reachable ok w → commit w = Done w' → reachable ok w'
| reach_recover w w' :
    reachable ok w → recover_from_log w = Done w' → reachable ok w'.

(** The header fits within one block, as the spec asks. *)
Definition header_fits : Prop := sizeof_logheader <= BSIZE.

End Notions.
(** ** Further notions: reference counts, the lock, the log as the disk holds it *)

Section Accounting.

Context {P : Params}.

(** The reference count of a buffer; a block that is not cached has no
    reference. *)
Definition refcnt (w : world) (b : blockid) : Z :=
  match bcache w !! b with
  | Some bf => buf_refcnt bf
  | None => 0
  end.

(** The buffer cache holds a buffer for block [b]. *)
Definition cached (w : world) (b : blockid) : Prop := is_Some (bcache w !! b).

(** The lock of the log as the trace shows it: whether it is held, and how
    many callers of [begin_op] are asleep on the log. *)
Record lock_state : Type := mkLock {
  lk_held : bool;
  lk_sleepers : nat
}.

(** The events of log.c under the rules of its lock.  [acquire] takes the
    lock when it is free; [release] and [wakeup] happen with the lock held;
    [sleep] is called with the lock held, gives it up and puts the caller
    to sleep; a block write may sleep in the disk driver and so happens
    only with the lock free; pinning and unpinning a buffer happen either
    way.  A caller comes back from [sleep] holding the lock again, and that
    return is no event of log.c: a [release] or a [sleep] met while the lock
    is free and a caller is asleep is that of a sleeper who has come back,
    having taken the lock when it was free.  The result is the state after
    the event, or [None] when the event breaks a rule. *)
Definition lock_step (st : lock_state) (e : event) : option lock_state :=
  match e with
  | EvAcquire => if lk_held st then None else Some (mkLock true (lk_sleepers st))
  | EvRelease =>
      if lk_held st then Some (mkLock false (lk_sleepers st))
      else match lk_sleepers st with
           | S s => Some (mkLock false s)
           | O => None
           end
  | EvSleep =>
      if lk_held st then Some (mkLock false (S (lk_sleepers st)))
      else match lk_sleepers st with
           | S s => Some (mkLock false (S s))
           | O => None
           end
  | EvWakeup => if lk_held st then Some st else None
  | EvBwrite _ _ => if lk_held st then None else Some st
  | EvBpin _ => Some st
  | EvBunpin _ => Some st
  end.

Fixpoint lock_run (st : lock_state) (tr : list event) : option lock_state :=
  match tr with
  | [] => Some st
  | e :: tr' =>
      match lock_step st e with
      | Some st' => lock_run st' tr'
      | None => None
      end
  end.

(** The lock at the end of the trace of [w], from a free lock and nobody
    asleep at boot; and the state in which the lock is free and [s] callers
    are asleep. *)
Definition lock_of (w : world) : option lock_state :=
  lock_run (mkLock false 0) (trace w).

Definition lock_free (s : nat) : option lock_state := Some (mkLock false s).

(** What runs while a caller of [begin_op] sleeps leaves the lock free and
    the [S s] sleepers asleep. *)
Definition quiet_wake (s : nat) (f : world → world) : Prop :=
  ∀ w, lock_of w = lock_free (S s) → lock_of (f w) = lock_free (S s).

(** The events of the disk and the cache that need no lock of the log. *)
Definition is_io (e : event) : Prop :=
  match e with
  | EvBwrite _ _ | EvBunpin _ => True
  | _ => False
  end.

(** From [w] to [w'] the trace grows by such events only. *)
Definition io_only (w w' : world) : Prop :=
  ∃ tr, trace w' = trace w ++ tr ∧ Forall is_io tr.

(** [log_write] for each buffer of [bs] in turn. *)
Fixpoint log_write_all (bs : list blockid) (w : world) : outcome world :=
  match bs with
  | [] => Done w
  | b :: bs' => w' ← log_write b w; log_write_all bs' w'
  end.

(** The log is idle: nothing logged, nobody inside, no commit running. *)
Definition idle (l : log) : Prop :=
  lh_n (log_lh l) = 0 ∧ log_outstanding l = 0 ∧ log_committing l = 0.

(** The logger as [initlog] sets it up for the log region at [start] of
    device [dev], before it recovers. *)
Definition fresh_logger (dev start nlog : Z) : log :=
  mkLog start nlog 0 0 dev (log_lh logger0).

(** The log that disk [d] holds for logger [l] is one that a commit wrote:
    the count in the header block is at most [LOGSIZE] and none of the block
    numbers it covers lies in the part of the log region that the count
    covers. *)
Definition disk_log_ok (l : log) (d : gmap blockid block) : Prop :=
  let hb := dread d (head_id l) in
  disk_count hb <= LOGSIZE ∧
  Forall (fun h => to_uint h < log_start l ∨ log_start l + disk_count hb < to_uint h)
         (disk_entries hb).

(** The block writes of a recovery of the log that disk [d] holds: each
    entry's log block over its home block, in order, and then the header
    block with its count cleared. *)
Definition recovery_copies (l : log) (d : gmap blockid block) : list (blockid * block) :=
  (fun j => (home_id l (default 0 (disk_entries (dread d (head_id l)) !! Z.to_nat j)),
             dread d (slot_id l j)))
    <$> seqZ 0 (Z.of_nat (length (disk_entries (dread d (head_id l))))).

Definition recovery_writes (l : log) (d : gmap blockid block) : list (blockid * block) :=
  recovery_copies l d ++ [(head_id l, <[0%nat := 0]> (dread d (head_id l)))].

(** A block that a caller may log: its number is a [uint], as
    [b->blockno] is, and lies outside the log region. *)
Definition loggable (l : log) (b : blockid) : Prop :=
  0 <= b.2 < 4294967296 ∧ (b.2 < log_start l ∨ log_start l + LOGSIZE < b.2).

(** The state of the log manager is well formed: the log region does not
    wrap around, the header is an array of [LOGSIZE] ints whose count lies
    within it and whose entries are block numbers outside the log region,
    it is smaller than a block, and every block has the block size. *)
Definition well_formed (w : world) : Prop :=
  geometry_ok (logger w) ∧
  0 <= cur_n w <= LOGSIZE ∧
  length (cur_block w) = Z.to_nat LOGSIZE ∧
  Forall (fun h => to_uint h < log_start (logger w) ∨
                   log_start (logger w) + LOGSIZE < to_uint h) (entries w) ∧
  sized w ∧
  sizeof_logheader < BSIZE.

(** The world that a call leaves; a call that does not return leaves the
    world as it found it. *)
Definition after (o : outcome world) (w : world) : world :=
  match o with
  | Done w' => w'
  | _ => w
  end.

(** How often block [b] is the home block of an entry of the open
    transaction. *)
Definition times_logged (w : world) (b : blockid) : Z :=
  Z.of_nat (length (filter (fun j => home w j = b) (seqZ 0 (cur_n w)))).

End Accounting.

(** ** Worked examples *)

Module Ex.

(** A small configuration: a header of four entries, one block per
    operation, blocks of 32 bytes (eight ints). *)
Definition small : Params := mkParams 4 1 32.

(** A configuration whose header is exactly one block long. *)
Definition tight : Params := mkParams 7 1 32.

#[local] Existing Instance small.

Definition done_world (o : outcome world) : world :=
  match o with
  | Done w => w
  | _ => boot ∅
  end.

(** The log region: header block 2 and log blocks 3 to 6 of device 1. *)
Definition sb : superblock := mkSuperblock 2 5.

(** A superblock whose log region has no block at all. *)
Definition sb_empty : superblock := mkSuperblock 2 0.

Definition old50 : block := [1; 1; 1; 1; 1; 1; 1; 1].
Definition old90 : block := [2; 2; 2; 2; 2; 2; 2; 2].
Definition first50 : block := [5; 0; 5; 0; 5; 0; 5; 0].
Definition second50 : block := [5; 5; 5; 5; 5; 5; 5; 5].
Definition new90 : block := [9; 9; 9; 9; 9; 9; 9; 9].

(** The disk before the transaction: home blocks 50 and 90 hold their old
    contents, everything else is zero. *)
Definition disk0 : gmap blockid block :=
  Eval vm_compute in <[(1, 90) := old90]> (<[(1, 50) := old50]> ∅).

(** After [initlog]. *)
Definition mounted : world :=
  Eval vm_compute in done_world (initlog 1 sb (boot disk0)).

(** After [begin_op]: one operation is outstanding. *)
Definition opened : world :=
  Eval vm_compute in admission_world (begin_op [] mounted).

(** The operation has written block 50, then block 90, then block 50
    again. *)
Definition wrote50 : world :=
  Eval vm_compute in done_world (logged_update (1, 50) first50 opened).
Definition wrote90 : world :=
  Eval vm_compute in done_world (logged_update (1, 90) new90 wrote50).
Definition dirty : world :=
  Eval vm_compute in done_world (logged_update (1, 50) second50 wrote90).

(** The world in which [end_op] of that operation calls [commit]. *)
Definition committing : world :=
  Eval vm_compute in committing_world dirty.

(** The disk after a crash in the middle of the installation: both log
    blocks, the header and the first home block are written. *)
Definition crashed : gmap blockid block :=
  Eval vm_compute in crash_disk (disk committing) (commit_events committing) 4.

(** The kernel booted on that disk, as [initlog] hands it to recovery. *)
Definition rebooted : world :=
  Eval vm_compute in set_logger (mkLog 2 5 0 0 1 (log_lh logger0)) (boot crashed).

(** The kernel booted on the disk a finished commit leaves. *)
Definition rebooted_clean : world :=
  Eval vm_compute in set_logger (mkLog 2 5 0 0 1 (log_lh logger0)) (boot (disk (done_world (commit committing)))).

(** The kernel after [initlog] with the superblock whose log region is
    empty. *)
Definition unsized : world :=
  Eval vm_compute in done_world (initlog 1 sb_empty (boot disk0)).

(** Two operations at once: a second caller enters, each writes its own
    block, the first leaves. *)
Definition opened2 : world :=
  Eval vm_compute in admission_world (begin_op [] opened).
Definition both_dirty : world :=
  Eval vm_compute in
    done_world (w ← logged_update (1, 50) second50 opened2;
                logged_update (1, 90) new90 w).
Definition one_left : world :=
  Eval vm_compute in done_world (end_op both_dirty).

(** A world in which a commit is in progress. *)
Definition busy : world :=
  Eval vm_compute in set_logger (set_committing 1 (logger mounted)) mounted.

(** The world after the commit of the example, and after the recovery of
    the crashed disk. *)
Definition committed : world :=
  Eval vm_compute in done_world (commit committing).
Definition recovered : world :=
  Eval vm_compute in done_world (recover_from_log rebooted).

(** A disk whose header block claims nine entries, more than the header
    holds, and one whose header block holds a negative count. *)
Definition overfull : gmap blockid block :=
  Eval vm_compute in <[(1, 2) := [9; 50; 90; 0; 0; 0; 0; 0]]> disk0.
Definition negative : gmap blockid block :=
  Eval vm_compute in <[(1, 2) := [-3; 50; 90; 0; 0; 0; 0; 0]]> disk0.
Definition rebooted_negative : world :=
  Eval vm_compute in set_logger (mkLog 2 5 0 0 1 (log_lh logger0)) (boot negative).

(** The caller of [begin_op] holding the lock, before the pass that admits
    it. *)
Definition entering : world :=
  Eval vm_compute in emit EvAcquire mounted.

(** The operation of the example has written a third block: a second caller
    would not fit. *)
Definition nearly_full : world :=
  Eval vm_compute in done_world (logged_update (1, 70) new90 dirty).

(** The world after the [end_op] that commits the example. *)
Definition ended : world :=
  Eval vm_compute in done_world (end_op dirty).

(** The disk with nine entries in its header block, at the recovery of
    [initlog]. *)
Definition rebooted_overfull : world :=
  Eval vm_compute in set_logger (mkLog 2 5 0 0 1 (log_lh logger0)) (boot overfull).

(** Four operations are open, as many as [begin_op] admits, and three of
    them have logged their one block. *)
Definition crowded : world :=
  Eval vm_compute in
    let w := admission_world (begin_op [] opened) in
    let w := admission_world (begin_op [] w) in
    let w := admission_world (begin_op [] w) in
    let w := done_world (logged_update (1, 50) first50 w) in
    let w := done_world (logged_update (1, 90) new90 w) in
    done_world (logged_update (1, 70) new90 w).

(** The fourth operation holds the buffer of its block, modified and not
    yet logged; then it has logged it, and the header is full. *)
Definition last_entry : world :=
  Eval vm_compute in set_data (1, 60) first50 (bread (1, 60) crowded).
Definition full : world :=
  Eval vm_compute in done_world (log_write (1, 60) last_entry).

(** The caller of [begin_op] that found the log nearly full, admitted after
    the [end_op] that ran during its sleep. *)
Definition readmitted : world :=
  Eval vm_compute in
    admission_world (begin_op [fun w => after (end_op w) w] nearly_full).

End Ex.


(** * Proofs *)

Section Proofs.

Context {P : Params}.

(** ** Machine integers *)

Lemma to_int_id z : is_int z → to_int z = z.
Proof.
  unfold is_int, int_min, int_max, to_int. intros H.
  rewrite Z.mod_small by lia. lia.
Qed.

Lemma to_uint_id z : 0 <= z <= int_max → to_uint z = z.
Proof. unfold int_max, to_uint. intros H. apply Z.mod_small. lia. Qed.

Lemma to_int_is_int z : is_int (to_int z).
Proof.
  unfold is_int, int_min, int_max, to_int.
  pose proof (Z.mod_pos_bound (z + 2147483648) 4294967296). lia.
Qed.

Lemma to_uint_to_int z : to_uint (to_int z) = to_uint z.
Proof.
  unfold to_uint, to_int.
  rewrite Zminus_mod, Zmod_mod, <- Zminus_mod. f_equal. lia.
Qed.

Lemma to_int_to_uint z : is_int z → to_int (to_uint z) = z.
Proof.
  intros H. unfold to_int, to_uint.
  rewrite Zplus_mod_idemp_l. apply (to_int_id z H).
Qed.

(** ** Outcomes *)

Lemma bind_Done {A B} (f : A → outcome B) (a : A) : (Done a ≫= f) = f a.
Proof. reflexivity. Qed.

Lemma arr_get_Done (l : list Z) (i : Z) :
  0 <= i < Z.of_nat (length l) → arr_get l i = Done (default 0 (l !! Z.to_nat i)).
Proof.
  intros H. unfold arr_get.
  destruct (Z.leb_spec 0 i); [|lia].
  destruct (lookup_lt_is_Some_2 l (Z.to_nat i)) as [v Hv]; [lia|].
  by rewrite Hv.
Qed.

Lemma arr_set_Done (l : list Z) (i v : Z) :
  0 <= i < Z.of_nat (length l) → arr_set l i v = Done (<[Z.to_nat i := v]> l).
Proof.
  intros H. unfold arr_set.
  destruct (Z.leb_spec 0 i); [|lia].
  destruct (Z.ltb_spec i (Z.of_nat (length l))); [done|lia].
Qed.

(** ** The buffer cache *)

Lemma dread_insert (d : gmap blockid block) b v b' :
  dread (<[b := v]> d) b' = if decide (b' = b) then v else dread d b'.
Proof.
  unfold dread. destruct (decide (b' = b)) as [->|Hne].
  - by rewrite lookup_insert_eq.
  - by rewrite lookup_insert_ne.
Qed.

Lemma bread_disk b w : disk (bread b w) = disk w.
Proof. unfold bread. by destruct (bcache w !! b). Qed.
Lemma bread_logger b w : logger (bread b w) = logger w.
Proof. unfold bread. by destruct (bcache w !! b). Qed.
Lemma bread_trace b w : trace (bread b w) = trace w.
Proof. unfold bread. by destruct (bcache w !! b). Qed.
Lemma bread_bview b w b' : bview (bread b w) b' = bview w b'.
Proof.
  unfold bread, bview. destruct (bcache w !! b) eqn:E; simpl;
    (destruct (decide (b = b')) as [->|];
     [rewrite lookup_insert_eq, ?E | rewrite lookup_insert_ne by done]; done).
Qed.

Lemma add_refcnt_disk b k w : disk (add_refcnt b k w) = disk w.
Proof. done. Qed.
Lemma add_refcnt_logger b k w : logger (add_refcnt b k w) = logger w.
Proof. done. Qed.
Lemma add_refcnt_trace b k w : trace (add_refcnt b k w) = trace w.
Proof. done. Qed.
Lemma add_refcnt_bview b k w b' : bview (add_refcnt b k w) b' = bview w b'.
Proof.
  unfold add_refcnt, bview. simpl. rewrite lookup_alter.
  destruct (decide (b = b')) as [->|]; [|done].
  by destruct (bcache w !! b').
Qed.

Lemma set_data_disk b d w : disk (set_data b d w) = disk w.
Proof. unfold set_data. by destruct (bcache w !! b). Qed.
Lemma set_data_logger b d w : logger (set_data b d w) = logger w.
Proof. unfold set_data. by destruct (bcache w !! b). Qed.
Lemma set_data_trace b d w : trace (set_data b d w) = trace w.
Proof. unfold set_data. by destruct (bcache w !! b). Qed.
Lemma set_data_bview b d w b' :
  bview (set_data b d w) b' = if decide (b' = b) then d else bview w b'.
Proof.
  unfold set_data, bview.
  destruct (bcache w !! b) eqn:E; simpl;
    (destruct (decide (b' = b)) as [->|];
     [by rewrite lookup_insert_eq | by rewrite lookup_insert_ne]).
Qed.

Lemma bwrite_disk b w : disk (bwrite b w) = <[b := bview w b]> (disk w).
Proof. done. Qed.
Lemma bwrite_logger b w : logger (bwrite b w) = logger w.
Proof. done. Qed.
Lemma bwrite_trace b w : trace (bwrite b w) = trace w ++ [EvBwrite b (bview w b)].
Proof. done. Qed.
Lemma bwrite_bview b w b' : bview (bwrite b w) b' = bview w b'.
Proof.
  unfold bwrite, bview. simpl.
  destruct (bcache w !! b') eqn:E; [done|].
  rewrite dread_insert. destruct (decide (b' = b)) as [->|]; [|done].
  by rewrite E.
Qed.


Lemma brelse_disk b w : disk (brelse b w) = disk w.
Proof. done. Qed.
Lemma brelse_logger b w : logger (brelse b w) = logger w.
Proof. done. Qed.
Lemma brelse_trace b w : trace (brelse b w) = trace w.
Proof. done. Qed.
Lemma brelse_bview b w b' : bview (brelse b w) b' = bview w b'.
Proof. apply add_refcnt_bview. Qed.

Lemma bunpin_disk b w : disk (bunpin b w) = disk w.
Proof. done. Qed.
Lemma bunpin_logger b w : logger (bunpin b w) = logger w.
Proof. done. Qed.
Lemma bunpin_trace b w : trace (bunpin b w) = trace w ++ [EvBunpin b].
Proof. done. Qed.
Lemma bunpin_bview b w b' : bview (bunpin b w) b' = bview w b'.
Proof. apply (add_refcnt_bview b (-1) w b'). Qed.

Lemma bpin_disk b w : disk (bpin b w) = disk w.
Proof. done. Qed.
Lemma bpin_logger b w : logger (bpin b w) = logger w.
Proof. done. Qed.
Lemma bpin_trace b w : trace (bpin b w) = trace w ++ [EvBpin b].
Proof. done. Qed.
Lemma bpin_bview b w b' : bview (bpin b w) b' = bview w b'.
Proof. apply (add_refcnt_bview b 1 w b'). Qed.

Lemma set_logger_bview l w b : bview (set_logger l w) b = bview w b.
Proof. done. Qed.
Lemma emit_bview e w b : bview (emit e w) b = bview w b.
Proof. done. Qed.

Create Rewrite HintDb obs.

Hint Rewrite bread_disk bread_logger bread_trace bread_bview
  set_data_disk set_data_logger set_data_trace set_data_bview
  bwrite_disk bwrite_logger bwrite_trace bwrite_bview
  brelse_disk brelse_logger brelse_trace brelse_bview
  bunpin_disk bunpin_logger bunpin_trace bunpin_bview
  bpin_disk bpin_logger bpin_trace bpin_bview
  set_logger_bview emit_bview : obs.

Lemma bread_cur_n b w : cur_n (bread b w) = cur_n w.
Proof. unfold cur_n. by rewrite bread_logger. Qed.
Lemma bread_cur_block b w : cur_block (bread b w) = cur_block w.
Proof. unfold cur_block. by rewrite bread_logger. Qed.
Lemma set_data_cur_n b d w : cur_n (set_data b d w) = cur_n w.
Proof. unfold cur_n. by rewrite set_data_logger. Qed.
Lemma set_data_cur_block b d w : cur_block (set_data b d w) = cur_block w.
Proof. unfold cur_block. by rewrite set_data_logger. Qed.
Lemma bwrite_cur_n b w : cur_n (bwrite b w) = cur_n w.
Proof. unfold cur_n. by rewrite bwrite_logger. Qed.
Lemma bwrite_cur_block b w : cur_block (bwrite b w) = cur_block w.
Proof. unfold cur_block. by rewrite bwrite_logger. Qed.
Lemma brelse_cur_n b w : cur_n (brelse b w) = cur_n w.
Proof. unfold cur_n. by rewrite brelse_logger. Qed.
Lemma brelse_cur_block b w : cur_block (brelse b w) = cur_block w.
Proof. unfold cur_block. by rewrite brelse_logger. Qed.
Lemma bunpin_cur_n b w : cur_n (bunpin b w) = cur_n w.
Proof. unfold cur_n. by rewrite bunpin_logger. Qed.
Lemma bunpin_cur_block b w : cur_block (bunpin b w) = cur_block w.
Proof. unfold cur_block. by rewrite bunpin_logger. Qed.
Lemma bpin_cur_n b w : cur_n (bpin b w) = cur_n w.
Proof. unfold cur_n. by rewrite bpin_logger. Qed.
Lemma bpin_cur_block b w : cur_block (bpin b w) = cur_block w.
Proof. unfold cur_block. by rewrite bpin_logger. Qed.
Lemma emit_cur_n e w : cur_n (emit e w) = cur_n w.
Proof. done. Qed.
Lemma emit_cur_block e w : cur_block (emit e w) = cur_block w.
Proof. done. Qed.

Hint Rewrite bread_cur_n bread_cur_block set_data_cur_n set_data_cur_block
  bwrite_cur_n bwrite_cur_block brelse_cur_n brelse_cur_block
  bunpin_cur_n bunpin_cur_block bpin_cur_n bpin_cur_block
  emit_cur_n emit_cur_block : obs.

Lemma set_logger_disk l w : disk (set_logger l w) = disk w.
Proof. done. Qed.
Lemma set_logger_trace l w : trace (set_logger l w) = trace w.
Proof. done. Qed.
Lemma set_logger_logger l w : logger (set_logger l w) = l.
Proof. done. Qed.
Lemma emit_disk e w : disk (emit e w) = disk w.
Proof. done. Qed.
Lemma emit_logger e w : logger (emit e w) = logger w.
Proof. done. Qed.
Lemma emit_trace e w : trace (emit e w) = trace w ++ [e].
Proof. done. Qed.

Hint Rewrite set_logger_disk set_logger_trace set_logger_logger
  emit_disk emit_logger emit_trace : obs.

Ltac obs :=
  intros; autorewrite with obs; rewrite ?decide_True by done;
  rewrite <- ?app_assoc; try done.

(** ** The two copying loops, one iteration *)

Lemma write_log_body_copies tail w :
  0 <= tail < Z.of_nat (length (cur_block w)) →
  ∃ w', write_log_body tail w = Done w' ∧
        copies (slot w tail) (bview w (home w tail))
               [EvBwrite (slot w tail) (bview w (home w tail))] w w'.
Proof.
  intros Hin. unfold write_log_body, cur_block.
  rewrite bread_logger. fold (cur_block w).
  rewrite (arr_get_Done _ _ Hin). fold (entry w tail). simpl.
  eexists. split; [reflexivity|].
  fold (home w tail) (slot w tail).
  assert (Hv : bview (bread (home w tail) (bread (slot w tail) w)) (home w tail)
               = bview w (home w tail)) by (by autorewrite with obs).
  rewrite Hv. clear Hv.
  repeat split; obs.
Qed.

Lemma install_trans_body_copies recovering tail w :
  0 <= tail < Z.of_nat (length (cur_block w)) →
  ∃ w', install_trans_body recovering tail w = Done w' ∧
        copies (home w tail) (bview w (slot w tail))
               (EvBwrite (home w tail) (bview w (slot w tail)) ::
                if recovering =? 0 then [EvBunpin (home w tail)] else []) w w'.
Proof.
  intros Hin. unfold install_trans_body, cur_block.
  rewrite bread_logger. fold (cur_block w).
  rewrite (arr_get_Done _ _ Hin). fold (entry w tail). simpl.
  eexists. split; [reflexivity|].
  fold (home w tail) (slot w tail).
  assert (Hv : bview (bread (home w tail) (bread (slot w tail) w)) (slot w tail)
               = bview w (slot w tail)) by (by autorewrite with obs).
  rewrite Hv. clear Hv.
  destruct (recovering =? 0); repeat split; obs.
Qed.


(** ** Sequences of block writes *)

Lemma seqZ_succ (i : Z) (k : nat) :
  seqZ i (Z.of_nat (S k)) = i :: seqZ (i + 1) (Z.of_nat k).
Proof.
  rewrite seqZ_cons by lia. f_equal. f_equal; lia.
Qed.

Lemma replay_app ws1 ws2 d : replay (ws1 ++ ws2) d = replay ws2 (replay ws1 d).
Proof. apply foldl_app. Qed.

Lemma last_write_app ws1 ws2 b :
  last_write (ws1 ++ ws2) b =
  match last_write ws2 b with Some d => Some d | None => last_write ws1 b end.
Proof.
  induction ws1 as [|p ws1 IH]; simpl.
  - by destruct (last_write ws2 b).
  - rewrite IH. by destruct (last_write ws2 b).
Qed.

Lemma last_write_None ws b :
  last_write ws b = None ↔ b ∉ ws.*1.
Proof.
  induction ws as [|p ws IH]; simpl.
  - split; [intros _; apply not_elem_of_nil | done].
  - rewrite not_elem_of_cons, <- IH.
    destruct (last_write ws b) as [d|].
    + split; [done|]. intros [_ H]. by apply H.
    + destruct (decide (b = p.1)) as [Heq|Hne].
      * split; [done|]. by intros [H _].
      * done.
Qed.

Lemma dread_replay ws d b :
  dread (replay ws d) b = default (dread d b) (last_write ws b).
Proof.
  revert d. induction ws as [|p ws IH]; intros d; simpl; [done|].
  unfold replay in *. simpl. rewrite IH.
  destruct (last_write ws b); [done|].
  rewrite dread_insert. by destruct (decide (b = p.1)).
Qed.

Lemma writes_of_app tr1 tr2 : writes_of (tr1 ++ tr2) = writes_of tr1 ++ writes_of tr2.
Proof. apply omap_app. Qed.

(** ** A loop of copies whose sources are never overwritten *)

Lemma copy_loop (body : Z → world → outcome world) (l : log)
    (dst src : Z → blockid) (E : Z → block → list event) (ok : Z → Prop) :
  (∀ j w, logger w = l → ok j →
     ∃ w', body j w = Done w' ∧
           copies (dst j) (bview w (src j)) (E j (bview w (src j))) w w') →
  ∀ (k : nat) (i : Z) (w : world),
    logger w = l →
    (∀ j, i <= j < i + Z.of_nat k → ok j) →
    (∀ j j', i <= j < i + Z.of_nat k → i <= j' < i + Z.of_nat k → src j' ≠ dst j) →
    ∃ w', for_loop k i body w = Done w' ∧
      logger w' = l ∧
      disk w' = replay ((fun j => (dst j, bview w (src j))) <$> seqZ i (Z.of_nat k)) (disk w) ∧
      (∀ b, bview w' b =
            default (bview w b)
              (last_write ((fun j => (dst j, bview w (src j))) <$> seqZ i (Z.of_nat k)) b)) ∧
      trace w' = trace w ++ concat ((fun j => E j (bview w (src j))) <$> seqZ i (Z.of_nat k)).
Proof.
  intros Hbody k. induction k as [|k IH]; intros i w Hl Hok Hne.
  - exists w. simpl. rewrite app_nil_r. done.
  - destruct (Hbody i w Hl) as (w1 & Hb & Hl1 & Hd1 & Hv1 & Ht1); [apply Hok; lia|].
    destruct (IH (i + 1) w1) as (w' & Hf & Hl' & Hd' & Hv' & Ht').
    { congruence. }
    { intros j Hj. apply Hok. lia. }
    { intros j j' Hj Hj'. apply Hne; lia. }
    assert (Hsame : ∀ j, i + 1 <= j < i + 1 + Z.of_nat k → bview w1 (src j) = bview w (src j)).
    { intros j Hj. rewrite Hv1. rewrite decide_False; [done|]. apply Hne; lia. }
    assert (Hmap : ∀ (A : Type) (f : Z → block → A),
               (fun j => f j (bview w1 (src j))) <$> seqZ (i + 1) (Z.of_nat k)
               = (fun j => f j (bview w (src j))) <$> seqZ (i + 1) (Z.of_nat k)).
    { intros A f. apply Forall_fmap_ext_1, Forall_forall.
      intros j Hj%elem_of_seqZ. by rewrite Hsame by lia. }
    exists w'. simpl. rewrite Hb. simpl. split; [exact Hf|]. split; [done|].
    rewrite seqZ_succ, !fmap_cons. simpl.
    rewrite (Hmap _ (fun j v => (dst j, v))) in Hd', Hv'.
    rewrite (Hmap _ E) in Ht'.
    split; [|split].
    + rewrite Hd', Hd1. done.
    + intros b. rewrite Hv'.
      destruct (last_write _ b); [done|]. simpl. rewrite Hv1.
      by destruct (decide (b = dst i)).
    + rewrite Ht', Ht1, <- app_assoc. done.
Qed.


(** ** Loops, from the last iteration *)

Lemma for_loop_snoc (k : nat) (i : Z) body w :
  for_loop (S k) i body w = (for_loop k i body w ≫= body (i + Z.of_nat k)).
Proof.
  revert i w. induction k as [|k IH]; intros i w.
  - simpl. rewrite Z.add_0_r. by destruct (body i w).
  - change (for_loop (S (S k)) i body w)
      with (body i w ≫= for_loop (S k) (i + 1) body).
    destruct (body i w) as [w1| |] eqn:E; [|by simpl; rewrite E..].
    change (Done w1 ≫= for_loop (S k) (i + 1) body) with (for_loop (S k) (i + 1) body w1).
    rewrite IH. simpl. rewrite E. simpl.
    replace (i + 1 + Z.of_nat k) with (i + Z.pos (Pos.of_succ_nat k)) by lia. done.
Qed.

(** ** [write_head] *)

Lemma header_image_step (n : Z) (k : nat) (bl : list Z) (old : block) (x : Z) :
  bl !! k = Some x → (S k < length old)%nat →
  <[S k := x]> (n :: take k bl ++ drop (S k) old)
  = n :: take (S k) bl ++ drop (S (S k)) old.
Proof.
  intros Hx Hlen. simpl. f_equal.
  destruct (lookup_lt_is_Some_2 old (S k) Hlen) as [y Hy].
  rewrite (drop_S old y (S k) Hy).
  rewrite insert_app_r_alt by (rewrite length_take; lia).
  rewrite length_take.
  pose proof (lookup_lt_Some _ _ _ Hx).
  replace (k - k `min` length bl)%nat with 0%nat by lia. simpl.
  rewrite (take_S_r _ _ _ Hx), <- app_assoc. done.
Qed.

Lemma write_head_loop (buf : blockid) (n : Z) (old : block) (k : nat) (w : world) :
  (k ≤ length (cur_block w))%nat → (k < length old)%nat → length (bview w buf) = length old →
  bview w buf = n :: drop 1 old →
  ∃ w', for_loop k 0 (write_head_body buf) w = Done w' ∧
        logger w' = logger w ∧ disk w' = disk w ∧ trace w' = trace w ∧
        ∀ b, bview w' b =
             if decide (b = buf) then n :: take k (cur_block w) ++ drop (S k) old
             else bview w b.
Proof.
  intros Hk Hold Hlen Hv. induction k as [|k IH].
  - exists w. simpl. repeat split; try done.
    intros b. destruct (decide (b = buf)) as [->|]; done.
  - destruct IH as (w1 & Hf & Hl1 & Hd1 & Ht1 & Hv1); [lia|lia|].
    rewrite for_loop_snoc, Hf. simpl.
    unfold write_head_body, set_data_int.
    replace (cur_block w1) with (cur_block w) by (unfold cur_block; by rewrite Hl1).
    rewrite arr_get_Done by lia. simpl.
    rewrite arr_set_Done; cycle 1.
    { rewrite Hv1, decide_True by done. simpl.
      rewrite length_app, length_take, length_drop. lia. }
    simpl. eexists. split; [reflexivity|].
    repeat split; obs; try congruence.
    destruct (decide (b = buf)) as [->|]; [|by rewrite Hv1, decide_False].
    rewrite Hv1, decide_True by done.
    destruct (lookup_lt_is_Some_2 (cur_block w) k) as [x Hx]; [lia|].
    replace (Z.to_nat (0 + Z.of_nat k)) with k by lia. rewrite Hx. simpl.
    replace (Z.to_nat (1 + (0 + Z.of_nat k))) with (S k) by lia.
    apply header_image_step; [done|lia].
Qed.

Lemma write_head_copies (w : world) :
  (Z.to_nat (cur_n w) ≤ length (cur_block w))%nat →
  (Z.to_nat (cur_n w) < length (bview w (head w)))%nat →
  ∃ w', write_head w = Done w' ∧
        copies (head w) (header_image (cur_n w) (cur_block w) (bview w (head w)))
               [EvBwrite (head w) (header_image (cur_n w) (cur_block w) (bview w (head w)))]
               w w'.
Proof.
  intros Hn Hlen. unfold write_head. fold (head w).
  unfold set_data_int at 1. obs.
  rewrite arr_set_Done by lia. simpl.
  set (old := bview w (head w)) in *.
  set (w1 := set_data _ _ _).
  destruct (write_head_loop (head w) (cur_n w) old (Z.to_nat (cur_n w)) w1)
    as (w2 & Hf & Hl2 & Hd2 & Ht2 & Hv2).
  { unfold w1, cur_block. by obs. }
  { done. }
  { unfold w1. obs. by rewrite length_insert. }
  { unfold w1. obs. subst old. destruct (bview w (head w)); [simpl in Hlen; lia|done]. }
  assert (Hn1 : cur_n w1 = cur_n w) by (unfold w1, cur_n; by obs).
  assert (Hb1 : cur_block w1 = cur_block w) by (unfold w1, cur_block; by obs).
  rewrite Hn1, Hf. simpl. eexists. split; [reflexivity|].
  rewrite Hb1 in Hv2.
  assert (Hh : bview w2 (head w) = header_image (cur_n w) (cur_block w) old).
  { rewrite Hv2, decide_True by done. done. }
  repeat split; obs; rewrite ?Hh; try done.
  - rewrite Hl2. unfold w1. by obs.
  - rewrite Hd2. unfold w1. by obs.
  - rewrite Hv2. destruct (decide (b = head w)); [done|].
    unfold w1. obs. by rewrite decide_False.
  - rewrite Ht2. unfold w1. by obs.
Qed.


(** ** [read_head] *)

Lemma read_head_step (k : nat) (hb : block) (bl : list Z) (x : Z) :
  hb !! S k = Some x → (k < length bl)%nat →
  <[k := x]> (take k (drop 1 hb) ++ drop k bl)
  = take (S k) (drop 1 hb) ++ drop (S k) bl.
Proof.
  intros Hx Hlen.
  assert (Hx' : drop 1 hb !! k = Some x) by (by rewrite lookup_drop).
  pose proof (lookup_lt_Some _ _ _ Hx').
  destruct (lookup_lt_is_Some_2 bl k Hlen) as [y Hy].
  rewrite (drop_S bl y k Hy).
  rewrite insert_app_r_alt by (rewrite length_take; lia).
  rewrite length_take.
  replace (k - k `min` length (drop 1 hb))%nat with 0%nat by lia. simpl.
  rewrite (take_S_r _ _ _ Hx'), <- app_assoc. done.
Qed.

Lemma read_head_loop (buf : blockid) (bl : list Z) (k : nat) (w : world) :
  cur_block w = bl → (k ≤ length bl)%nat → (k < length (bview w buf))%nat →
  ∃ w', for_loop k 0 (read_head_body buf) w = Done w' ∧
        disk w' = disk w ∧ trace w' = trace w ∧ (∀ b, bview w' b = bview w b) ∧
        logger w' = set_block (take k (drop 1 (bview w buf)) ++ drop k bl) (logger w).
Proof.
  intros Hbl Hk Hlen. induction k as [|k IH].
  - exists w. simpl. repeat split; try done.
    rewrite drop_0, <- Hbl. unfold cur_block. by destruct (logger w) as [? ? ? ? ? []].
  - destruct IH as (w1 & Hf & Hd1 & Ht1 & Hv1 & Hl1); [lia|lia|].
    rewrite for_loop_snoc, Hf. simpl.
    unfold read_head_body.
    assert (Hb1 : cur_block w1 = take k (drop 1 (bview w buf)) ++ drop k bl).
    { unfold cur_block. by rewrite Hl1. }
    rewrite Hv1, arr_get_Done by lia. simpl.
    rewrite arr_set_Done; cycle 1.
    { rewrite Hb1, length_app, length_take, !length_drop. lia. }
    simpl. eexists. split; [reflexivity|].
    repeat split; obs; try congruence.
    rewrite Hl1, Hb1. unfold set_block, set_lh. simpl. do 3 f_equal.
    destruct (lookup_lt_is_Some_2 (bview w buf) (S k)) as [x Hx]; [lia|].
    replace (Z.to_nat (1 + (0 + Z.of_nat k))) with (S k) by lia. rewrite Hx. simpl.
    replace (Z.to_nat (0 + Z.of_nat k)) with k by lia.
    apply read_head_step; [done|lia].
Qed.

Lemma read_head_spec (w : world) :
  let hb := bview w (head w) in
  (Z.to_nat (disk_count hb) ≤ length (cur_block w))%nat →
  (Z.to_nat (disk_count hb) < length hb)%nat →
  ∃ w', read_head w = Done w' ∧
        disk w' = disk w ∧ trace w' = trace w ∧ (∀ b, bview w' b = bview w b) ∧
        logger w' =
          set_lh (mkLogheader (disk_count hb)
                    (disk_entries hb ++ drop (Z.to_nat (disk_count hb)) (cur_block w)))
                 (logger w).
Proof.
  intros hb Hn Hlen. unfold read_head. fold (head w). obs. fold hb.
  rewrite arr_get_Done by lia. simpl. fold (disk_count hb).
  set (w1 := set_logger _ _).
  assert (Hn1 : cur_n w1 = disk_count hb) by done.
  destruct (read_head_loop (head w) (cur_block w) (Z.to_nat (disk_count hb)) w1)
    as (w2 & Hf & Hd2 & Ht2 & Hv2 & Hl2).
  { unfold w1, cur_block. simpl. by obs. }
  { done. }
  { unfold w1. by obs. }
  rewrite Hn1, Hf. simpl. eexists. split; [reflexivity|].
  repeat split; obs.
  - rewrite Hd2. unfold w1. by obs.
  - rewrite Ht2. unfold w1. by obs.
  - rewrite Hv2. unfold w1. by obs.
  - rewrite Hl2. unfold w1. by obs.
Qed.

(** ** Copies and the clean cache *)

Lemma copies_clean dst evs w w' :
  clean w → copies dst (bview w' dst) evs w w' → clean w'.
Proof.
  intros Hc (Hl & Hd & Hv & Ht) b.
  rewrite Hd, dread_insert, Hv.
  destruct (decide (b = dst)) as [->|]; [|apply Hc].
  by rewrite Hv, decide_True.
Qed.

Lemma copies_view dst v evs w w' : copies dst v evs w w' → bview w' dst = v.
Proof. intros (Hl & Hd & Hv & Ht). by rewrite Hv, decide_True. Qed.

(** ** The installation loop on a clean cache *)

Lemma install_clean_loop (recovering : Z) (N : nat) (k : nat) (i : Z) (w : world) :
  clean w → (∀ b, length (bview w b) = N) →
  0 <= i → (Z.to_nat i + k ≤ length (cur_block w))%nat →
  ∃ w', for_loop k i (install_trans_body recovering) w = Done w' ∧
        logger w' = logger w ∧ clean w' ∧ (∀ b, length (bview w' b) = N) ∧
        disk w' = install_on_disk (logger w) i (take k (drop (Z.to_nat i) (cur_block w))) (disk w) ∧
        ∃ tr, trace w' = trace w ++ tr ∧
              (recovering ≠ 0 → Forall (fun e => ∃ b d, e = EvBwrite b d) tr) ∧
              length (writes_of tr) = k.
Proof.
  revert i w. induction k as [|k IH]; intros i w Hc Hu Hi Hlen.
  - exists w. simpl. repeat split; try done.
    exists []. by rewrite app_nil_r.
  - destruct (install_trans_body_copies recovering i w) as (w1 & Hb & Hcp); [lia|].
    pose proof Hcp as (Hl1 & Hd1 & Hv1 & Ht1).
    assert (Hc1 : clean w1).
    { eapply copies_clean; [done|]. by rewrite (copies_view _ _ _ _ _ Hcp). }
    assert (Hu1 : ∀ b, length (bview w1 b) = N).
    { intros b. rewrite Hv1. by destruct (decide (b = home w i)). }
    assert (Hbl1 : cur_block w1 = cur_block w) by (unfold cur_block; by rewrite Hl1).
    destruct (IH (i + 1) w1) as (w' & Hf & Hl' & Hc' & Hu' & Hd' & tr & Ht' & Hev & Hws);
      [done|done|lia|rewrite Hbl1; lia|].
    exists w'. simpl. rewrite Hb. simpl. split; [exact Hf|].
    split; [congruence|]. split; [done|]. split; [done|]. split.
    + rewrite Hd', Hl1, Hbl1, Hd1.
      destruct (lookup_lt_is_Some_2 (cur_block w) (Z.to_nat i)) as [h Hh]; [lia|].
      rewrite (drop_S _ _ _ Hh). simpl.
      replace (Z.to_nat (i + 1)) with (S (Z.to_nat i)) by lia.
      unfold home, slot, entry. rewrite Hh. simpl. by rewrite Hc.
    + eexists. split; [rewrite Ht', Ht1, <- app_assoc; reflexivity|]. split.
      * intros Hr. destruct (Z.eqb_spec recovering 0); [done|].
        simpl. constructor; [eauto|]. by apply Hev.
      * simpl. destruct (recovering =? 0); simpl; by rewrite Hws.
Qed.


(** ** Block sizes *)

Lemma sized_bview (w : world) (b : blockid) : sized w → length (bview w b) = block_ints.
Proof.
  intros [Hd Hc]. unfold bview.
  destruct (bcache w !! b) as [bf|] eqn:E; [by apply (Hc b bf)|].
  unfold dread. destruct (disk w !! b) as [d|] eqn:E'; simpl; [by apply (Hd b d)|].
  apply length_replicate.
Qed.

Lemma header_fits_ints :
  0 < LOGSIZE → sizeof_logheader < BSIZE → (Z.to_nat LOGSIZE < block_ints)%nat.
Proof.
  unfold sizeof_logheader, block_ints. intros H0 H.
  assert (1 + LOGSIZE <= BSIZE / 4); [|lia].
  apply Z.div_le_lower_bound; lia.
Qed.

(** ** Block numbers of the log region *)

Lemma head_id_eq (l : log) :
  geometry_ok l → head_id l = (to_uint (log_dev l), log_start l).
Proof.
  intros (HL & H0 & H1). unfold head_id. f_equal.
  apply to_uint_id. unfold int_max in *. lia.
Qed.

Lemma slot_id_eq (l : log) (j : Z) :
  geometry_ok l → 0 <= j < LOGSIZE →
  slot_id l j = (to_uint (log_dev l), log_start l + j + 1).
Proof.
  intros (HL & H0 & H1) Hj. unfold slot_id. f_equal.
  rewrite to_uint_to_int. apply to_uint_id. unfold int_max in *. lia.
Qed.

Lemma entry_outside (w : world) (j : Z) :
  header_ok (logger w) → 0 <= j < cur_n w → outside_log (logger w) (entry w j).
Proof.
  intros (Hn & Hlen & Hout) Hj. unfold entry, cur_n, cur_block in *.
  rewrite Forall_lookup in Hout.
  destruct (lookup_lt_is_Some_2 (lh_block (log_lh (logger w))) (Z.to_nat j)) as [h Hh]; [lia|].
  rewrite Hh. simpl. apply (Hout (Z.to_nat j)).
  rewrite lookup_take_lt by lia. done.
Qed.

Lemma home_ne_slot (w : world) (j j' : Z) :
  geometry_ok (logger w) → header_ok (logger w) →
  0 <= j < cur_n w → 0 <= j' < cur_n w → home w j' ≠ slot w j.
Proof.
  intros Hg Hh Hj Hj'. pose proof Hh as (Hn & _).
  unfold home, slot, home_id. rewrite slot_id_eq by (done || (unfold cur_n in *; lia)).
  destruct (entry_outside w j' Hh Hj') as [Ho|Ho]; unfold cur_n in *;
    intros [=]; lia.
Qed.

Lemma home_ne_head (w : world) (j : Z) :
  geometry_ok (logger w) → header_ok (logger w) →
  0 <= j < cur_n w → home w j ≠ head w.
Proof.
  intros Hg Hh Hj. pose proof Hh as (Hn & _).
  unfold home, head, home_id. rewrite head_id_eq by done.
  destruct (entry_outside w j Hh Hj) as [Ho|Ho]; unfold cur_n in *;
    intros [=]; lia.
Qed.

Lemma slot_ne_head (w : world) (j : Z) :
  geometry_ok (logger w) → 0 <= j < LOGSIZE → slot w j ≠ head w.
Proof.
  intros Hg Hj. unfold slot, head.
  rewrite slot_id_eq, head_id_eq by done. intros [=]; lia.
Qed.

Lemma slot_inj (w : world) (j j' : Z) :
  geometry_ok (logger w) → 0 <= j < LOGSIZE → 0 <= j' < LOGSIZE →
  slot w j = slot w j' → j = j'.
Proof.
  intros Hg Hj Hj'. unfold slot.
  rewrite !slot_id_eq by done. intros [=]; lia.
Qed.

(** ** The last write among writes that agree on each block *)

Lemma last_write_Some ws b d : last_write ws b = Some d → (b, d) ∈ ws.
Proof.
  induction ws as [|[b' d'] ws IH]; simpl; [done|].
  destruct (last_write ws b) as [d''|].
  - intros [= ->]. right. by apply IH.
  - destruct (decide (b = b')) as [->|]; [|done].
    intros [= <-]. left.
Qed.

Lemma last_write_fmap (key : Z → blockid) (val : Z → block) (js : list Z) (j0 : Z) :
  j0 ∈ js → (∀ j, j ∈ js → key j = key j0 → val j = val j0) →
  last_write ((fun j => (key j, val j)) <$> js) (key j0) = Some (val j0).
Proof.
  intros Hin Hag.
  destruct (last_write _ (key j0)) as [d|] eqn:E.
  - apply last_write_Some, list_elem_of_fmap in E as (j & [= Hk ->] & Hj).
    f_equal. by apply Hag.
  - apply last_write_None in E. exfalso. apply E.
    rewrite <- list_fmap_compose. apply list_elem_of_fmap. by exists j0.
Qed.

Lemma last_write_fmap_None (key : Z → blockid) (val : Z → block) (js : list Z) (b : blockid) :
  (∀ j, j ∈ js → key j ≠ b) →
  last_write ((fun j => (key j, val j)) <$> js) b = None.
Proof.
  intros Hne. apply last_write_None.
  rewrite <- list_fmap_compose. intros (j & Hk & Hj)%list_elem_of_fmap.
  by apply (Hne j Hj).
Qed.


(** ** The commit *)

Lemma concat_singletons {A B} (f : A → B) (l : list A) :
  concat ((fun x => [f x]) <$> l) = f <$> l.
Proof. induction l as [|x l IH]; simpl; [done|]. by f_equal. Qed.

Lemma writes_of_bwrites (ws : list (blockid * block)) :
  writes_of ((fun p => EvBwrite p.1 p.2) <$> ws) = ws.
Proof.
  induction ws as [|[b d] ws IH]; [done|].
  rewrite fmap_cons. unfold writes_of in *. simpl. by f_equal.
Qed.

Lemma writes_of_installs (ws : list (blockid * block)) :
  writes_of (concat ((fun p => [EvBwrite p.1 p.2; EvBunpin p.1]) <$> ws)) = ws.
Proof.
  induction ws as [|[b d] ws IH]; [done|].
  rewrite fmap_cons. unfold writes_of in *. simpl. by f_equal.
Qed.

Lemma writes_of_commit_events (w : world) :
  writes_of (commit_events w)
  = write_log_writes w ++ [(head w, committed_header w)] ++
    install_writes w ++ [(head w, erased_header w)].
Proof.
  unfold commit_events.
  rewrite !writes_of_app, writes_of_bwrites, writes_of_installs. done.
Qed.

Lemma length_header_image (n : Z) (bl : list Z) (old : block) :
  (Z.to_nat n ≤ length bl)%nat → (Z.to_nat n < length old)%nat →
  length (header_image n bl old) = length old.
Proof.
  intros Hn Ho. unfold header_image. simpl.
  rewrite length_app, length_take, length_drop. lia.
Qed.

Lemma write_log_run (w : world) :
  0 <= cur_n w → geometry_ok (logger w) → header_ok (logger w) →
  ∃ w1, write_log w = Done w1 ∧ logger w1 = logger w ∧
        disk w1 = replay (write_log_writes w) (disk w) ∧
        (∀ b, bview w1 b = default (bview w b) (last_write (write_log_writes w) b)) ∧
        trace w1 = trace w ++ ((fun p => EvBwrite p.1 p.2) <$> write_log_writes w).
Proof.
  intros Hn0 Hg Hh. pose proof Hh as (Hn & Hlen & _). fold (cur_n w) in Hn.
  destruct (copy_loop write_log_body (logger w) (slot w) (home w)
              (fun j v => [EvBwrite (slot w j) v]) (fun j => 0 <= j < cur_n w))
    with (k := Z.to_nat (cur_n w)) (i := 0) (w := w)
    as (w1 & Hf & Hl1 & Hd1 & Hv1 & Ht1).
  - intros j w0 Hl0 Hj.
    destruct (write_log_body_copies j w0) as (w' & Hb & Hc).
    { unfold cur_block. rewrite Hl0. lia. }
    exists w'. split; [done|].
    unfold slot, home, entry, cur_block in *. by rewrite Hl0 in Hc.
  - done.
  - intros j Hj. lia.
  - intros j j' Hj Hj'. apply home_ne_slot; (done || lia).
  - exists w1. unfold write_log. rewrite Z2Nat.id in * by lia.
    split; [done|]. split; [done|]. split; [done|]. split; [done|].
    rewrite Ht1, concat_singletons. unfold write_log_writes.
    by rewrite <- list_fmap_compose.
Qed.

Lemma install_run (w w2 : world) :
  0 <= cur_n w → geometry_ok (logger w) → header_ok (logger w) →
  logger w2 = logger w →
  (∀ j, 0 <= j < cur_n w → bview w2 (slot w j) = bview w (home w j)) →
  ∃ w3, install_trans 0 w2 = Done w3 ∧ logger w3 = logger w ∧
        disk w3 = replay (install_writes w) (disk w2) ∧
        (∀ b, bview w3 b = default (bview w2 b) (last_write (install_writes w) b)) ∧
        trace w3 = trace w2 ++
          concat ((fun p => [EvBwrite p.1 p.2; EvBunpin p.1]) <$> install_writes w).
Proof.
  intros Hn0 Hg Hh Hl2 Hslots. pose proof Hh as (Hn & Hlen & _). fold (cur_n w) in Hn.
  destruct (copy_loop (install_trans_body 0) (logger w) (home w) (slot w)
              (fun j v => [EvBwrite (home w j) v; EvBunpin (home w j)])
              (fun j => 0 <= j < cur_n w))
    with (k := Z.to_nat (cur_n w)) (i := 0) (w := w2)
    as (w3 & Hf & Hl3 & Hd3 & Hv3 & Ht3).
  - intros j w0 Hl0 Hj.
    destruct (install_trans_body_copies 0 j w0) as (w' & Hb & Hc).
    { unfold cur_block. rewrite Hl0. lia. }
    exists w'. split; [done|].
    unfold slot, home, entry, cur_block in *. by rewrite Hl0 in Hc.
  - done.
  - intros j Hj. lia.
  - intros j j' Hj Hj'. apply not_eq_sym, home_ne_slot; (done || lia).
  - assert (Hmap : ∀ (A : Type) (f : Z → block → A),
               (fun j => f j (bview w2 (slot w j))) <$> seqZ 0 (cur_n w)
               = (fun j => f j (bview w (home w j))) <$> seqZ 0 (cur_n w)).
    { intros A f. apply Forall_fmap_ext_1, Forall_forall.
      intros j Hj%elem_of_seqZ. by rewrite Hslots by lia. }
    rewrite Z2Nat.id in * by lia.
    rewrite (Hmap _ (fun j v => (home w j, v))) in Hd3, Hv3.
    rewrite (Hmap _ (fun j v => [EvBwrite (home w j) v; EvBunpin (home w j)])) in Ht3.
    exists w3. unfold install_trans, cur_n. rewrite Hl2. fold (cur_n w).
    split; [done|]. split; [done|]. split; [done|]. split; [done|].
    rewrite Ht3. unfold install_writes. by rewrite <- list_fmap_compose.
Qed.


Lemma effect_trans ws1 ws2 w w1 w2 :
  effect ws1 w w1 → effect ws2 w1 w2 → effect (ws1 ++ ws2) w w2.
Proof.
  intros [Hd1 Hv1] [Hd2 Hv2]. split.
  - by rewrite replay_app, <- Hd1.
  - intros b. rewrite Hv2, last_write_app, Hv1.
    by destruct (last_write ws2 b).
Qed.

Lemma copies_effect dst v evs w w' : copies dst v evs w w' → effect [(dst, v)] w w'.
Proof.
  intros (Hl & Hd & Hv & Ht). split; [done|].
  intros b. rewrite Hv. simpl. by destruct (decide (b = dst)).
Qed.

Lemma commit_run (w : world) :
  0 < cur_n w → geometry_ok (logger w) → header_ok (logger w) → sized w →
  sizeof_logheader < BSIZE →
  ∃ w', commit w = Done w' ∧
        logger w' = set_n 0 (logger w) ∧
        trace w' = trace w ++ commit_events w ∧
        effect (writes_of (commit_events w)) w w'.
Proof.
  intros Hpos Hg Hh Hs Hfit.
  pose proof Hh as (Hn & Hlen & _). fold (cur_n w) in Hn. fold (cur_block w) in Hlen.
  pose proof Hg as (HL & _).
  pose proof (header_fits_ints HL Hfit) as Hints.
  (* phase 1 *)
  destruct (write_log_run w) as (w1 & Hwl & Hl1 & Hd1 & Hv1 & Ht1); [lia|done|done|].
  assert (Hhead1 : bview w1 (head w) = bview w (head w)).
  { rewrite Hv1. unfold write_log_writes. rewrite last_write_fmap_None; [done|].
    intros j Hj%elem_of_seqZ. apply slot_ne_head; [done|lia]. }
  assert (Hslot1 : ∀ j, 0 <= j < cur_n w → bview w1 (slot w j) = bview w (home w j)).
  { intros j Hj. rewrite Hv1. unfold write_log_writes.
    rewrite (last_write_fmap (slot w) (fun j => bview w (home w j))); [done| |].
    - apply elem_of_seqZ. lia.
    - intros j' Hj'%elem_of_seqZ Heq. apply slot_inj in Heq; [by subst|done|lia|lia]. }
  (* phase 2 *)
  assert (Hn1 : cur_n w1 = cur_n w) by (unfold cur_n; by rewrite Hl1).
  assert (Hb1 : cur_block w1 = cur_block w) by (unfold cur_block; by rewrite Hl1).
  assert (Hh1 : head w1 = head w) by (unfold head; by rewrite Hl1).
  destruct (write_head_copies w1) as (w2 & Hwh & Hc2).
  { rewrite Hn1, Hb1. lia. }
  { rewrite Hn1, Hh1, Hhead1, sized_bview by done. lia. }
  rewrite Hn1, Hb1, Hh1, Hhead1 in Hc2. fold (committed_header w) in Hc2.
  pose proof Hc2 as (Hl2 & Hd2 & Hv2 & Ht2).
  (* phase 3 *)
  destruct (install_run w w2) as (w3 & Hin & Hl3 & Hd3 & Hv3 & Ht3);
    [lia|done|done|congruence| |].
  { intros j Hj. rewrite Hv2, decide_False; [by apply Hslot1|].
    apply slot_ne_head; [done|lia]. }
  assert (Hhead3 : bview w3 (head w) = committed_header w).
  { rewrite Hv3. unfold install_writes. rewrite last_write_fmap_None.
    - simpl. by rewrite Hv2, decide_True.
    - intros j Hj%elem_of_seqZ. apply home_ne_head; (done || lia). }
  (* phase 4 *)
  set (w4 := set_logger (set_n 0 (logger w3)) w3).
  assert (Hn4 : cur_n w4 = 0) by done.
  assert (Hb4 : cur_block w4 = cur_block w) by (unfold w4, cur_block; simpl; by rewrite Hl3).
  assert (Hh4 : head w4 = head w) by (unfold w4, head; simpl; by rewrite Hl3).
  assert (Hlenc : length (committed_header w) = block_ints).
  { unfold committed_header. rewrite length_header_image; rewrite ?sized_bview by done; lia. }
  destruct (write_head_copies w4) as (w5 & Hwh4 & Hc5).
  { rewrite Hn4. simpl. lia. }
  { rewrite Hn4, Hh4. unfold w4. obs. rewrite Hhead3, Hlenc. simpl. lia. }
  rewrite Hn4, Hb4, Hh4 in Hc5.
  replace (bview w4 (head w)) with (committed_header w) in Hc5 by (unfold w4; by obs).
  fold (erased_header w) in Hc5.
  pose proof Hc5 as (Hl5 & Hd5 & Hv5 & Ht5).
  exists w5. split; [|split; [|split]].
  - unfold commit. destruct (Z.ltb_spec 0 (cur_n w)); [|lia].
    rewrite Hwl. simpl. rewrite Hwh. simpl. rewrite Hin. simpl. exact Hwh4.
  - rewrite Hl5. unfold w4. simpl. by rewrite Hl3.
  - rewrite Ht5. unfold w4. obs. rewrite Ht3, Ht2, Ht1.
    unfold commit_events. by rewrite <- !app_assoc.
  - rewrite writes_of_commit_events.
    apply effect_trans with w1; [done|].
    apply effect_trans with w2; [by apply copies_effect in Hc2|].
    apply effect_trans with w3; [done|].
    apply copies_effect in Hc5. destruct Hc5 as [Hd Hv].
    split; [by rewrite Hd|]. intros b. rewrite Hv. unfold w4. by obs.
Qed.


(** ** Recovery *)

Lemma header_image_0 (bl : list Z) (old : block) :
  (0 < length old)%nat → header_image 0 bl old = <[0%nat := 0]> old.
Proof. intros H. destruct old; [simpl in H; lia|done]. Qed.

Lemma clean_uniform (w : world) : sized w → ∀ b, length (bview w b) = block_ints.
Proof. intros Hs b. by apply sized_bview. Qed.

Lemma install_on_disk_ext (l l' : log) (j : Z) (hs : list Z) (d : gmap blockid block) :
  log_dev l = log_dev l' → log_start l = log_start l' →
  install_on_disk l j hs d = install_on_disk l' j hs d.
Proof.
  intros Hdev Hstart. revert j d.
  induction hs as [|h hs IH]; intros j d; [done|].
  simpl. unfold home_id, slot_id. rewrite Hdev, Hstart. apply IH.
Qed.

Lemma length_writes_of_bwrites (tr : list event) :
  Forall (fun e => ∃ b d, e = EvBwrite b d) tr → length (writes_of tr) = length tr.
Proof.
  induction 1 as [|e tr (b & d & ->) _ IH]; [done|].
  unfold writes_of in *. simpl. by f_equal.
Qed.

Lemma recover_run (w : world) :
  let hb := bview w (head w) in
  clean w → (∀ b, length (bview w b) = block_ints) →
  0 < LOGSIZE → sizeof_logheader < BSIZE →
  length (cur_block w) = Z.to_nat LOGSIZE → disk_count hb <= LOGSIZE →
  ∃ w', recover_from_log w = Done w' ∧ clean w' ∧
        (∀ b, length (bview w' b) = block_ints) ∧
        logger w' =
          set_lh (mkLogheader 0
                    (disk_entries hb ++ drop (Z.to_nat (disk_count hb)) (cur_block w)))
                 (logger w) ∧
        (let d1 := install_on_disk (logger w) 0 (disk_entries hb) (disk w) in
         disk w' = <[head w := <[0%nat := 0]> (dread d1 (head w))]> d1) ∧
        ∃ tr, (let d1 := install_on_disk (logger w) 0 (disk_entries hb) (disk w) in
               trace w' = trace w ++ tr ++
                          [EvBwrite (head w) (<[0%nat := 0]> (dread d1 (head w)))]) ∧
              Forall (fun e => ∃ b d, e = EvBwrite b d) tr ∧
              length tr = Z.to_nat (disk_count hb).
Proof.
  intros hb Hc Hu HL Hfit Hlen Hcount.
  pose proof (header_fits_ints HL Hfit) as Hints.
  destruct (read_head_spec w) as (w1 & Hrh & Hd1 & Ht1 & Hv1 & Hl1).
  { fold hb. lia. }
  { rewrite Hu. fold hb. lia. }
  fold hb in Hl1.
  set (n := Z.to_nat (disk_count hb)) in *.
  assert (Hde : length (disk_entries hb) = n).
  { unfold disk_entries. fold n. rewrite length_take, length_drop.
    unfold hb. rewrite Hu. lia. }
  assert (Hb1 : cur_block w1 = disk_entries hb ++ drop n (cur_block w)).
  { unfold cur_block. by rewrite Hl1. }
  assert (Hn1 : cur_n w1 = disk_count hb) by (unfold cur_n; by rewrite Hl1).
  destruct (install_clean_loop 1 block_ints n 0 w1)
    as (w2 & Hin & Hl2 & Hc2 & Hu2 & Hd2 & tr & Ht2 & Hev & Hws).
  { intros b. by rewrite Hv1, Hd1. }
  { intros b. by rewrite Hv1. }
  { done. }
  { rewrite Hb1, length_app, Hde, length_drop. lia. }
  set (w3 := set_logger (set_n 0 (logger w2)) w2).
  destruct (write_head_copies w3) as (w4 & Hwh & Hcp).
  { unfold w3, cur_n. simpl. lia. }
  { unfold w3, cur_n. simpl. rewrite set_logger_bview, Hu2. lia. }
  pose proof Hcp as (Hl4 & Hd4 & Hv4 & Ht4).
  assert (Hh3 : head w3 = head w).
  { unfold w3, head. simpl. rewrite Hl2, Hl1. done. }
  assert (Hhi : header_image (cur_n w3) (cur_block w3) (bview w3 (head w3))
                = <[0%nat := 0]> (dread (disk w2) (head w))).
  { rewrite Hh3. unfold w3 at 1, cur_n. simpl. rewrite header_image_0.
    - unfold w3. obs. by rewrite Hc2.
    - unfold w3. obs. rewrite Hu2. lia. }
  rewrite Hhi, Hh3 in Hcp, Hd4, Hv4, Ht4.
  assert (Hd2' : disk w2 = install_on_disk (logger w) 0 (disk_entries hb) (disk w)).
  { rewrite Hd2, Hl1, Hb1, Hd1.
    rewrite drop_0, take_app_length' by done.
    by rewrite (install_on_disk_ext (set_lh _ (logger w)) (logger w)). }
  exists w4. split; [|split; [|split; [|split; [|split]]]].
  - unfold recover_from_log. rewrite Hrh. simpl.
    unfold install_trans. rewrite Hn1. fold n. rewrite Hin. simpl. exact Hwh.
  - eapply copies_clean; [|by rewrite (copies_view _ _ _ _ _ Hcp)].
    intros b. unfold w3. by obs.
  - intros b. rewrite Hv4. destruct (decide (b = head w)).
    + rewrite length_insert. rewrite <- Hc2. apply Hu2.
    + unfold w3. by obs.
  - rewrite Hl4. unfold w3. simpl. rewrite Hl2, Hl1. done.
  - simpl. rewrite Hd4. unfold w3. obs. by rewrite Hd2'.
  - exists tr. split; [|split].
    + simpl. rewrite Ht4. unfold w3. obs. rewrite Ht2, Ht1, <- Hd2'.
      by rewrite <- app_assoc.
    + by apply Hev.
    + rewrite <- Hws. symmetry. apply length_writes_of_bwrites. by apply Hev.
Qed.



(** ** Panics *)

Lemma bind_no_panic {A B} (m : outcome A) (f : A → outcome B) :
  ¬ is_panic m → (∀ a, ¬ is_panic (f a)) → ¬ is_panic (m ≫= f).
Proof. intros Hm Hf. destruct m; simpl; [apply Hf|done|by intros []]. Qed.

Lemma arr_get_no_panic l i : ¬ is_panic (arr_get l i).
Proof. unfold arr_get. destruct (0 <=? i); [|by intros []]. by destruct (l !! Z.to_nat i); intros []. Qed.

Lemma arr_set_no_panic l i v : ¬ is_panic (arr_set l i v).
Proof. unfold arr_set. by destruct (_ && _); intros []. Qed.

Lemma for_loop_no_panic (body : Z → world → outcome world) (k : nat) (i : Z) (w : world) :
  (∀ j w', ¬ is_panic (body j w')) → ¬ is_panic (for_loop k i body w).
Proof.
  intros Hb. revert i w. induction k as [|k IH]; intros i w; simpl; [by intros []|].
  apply bind_no_panic; [apply Hb|]. intros w'. apply IH.
Qed.

Lemma write_head_no_panic w : ¬ is_panic (write_head w).
Proof.
  unfold write_head. apply bind_no_panic.
  { unfold set_data_int. apply bind_no_panic; [apply arr_set_no_panic|by intros ? []]. }
  intros w1. apply bind_no_panic; [|by intros ? []].
  apply for_loop_no_panic. intros j w'. unfold write_head_body.
  apply bind_no_panic; [apply arr_get_no_panic|]. intros v.
  unfold set_data_int. apply bind_no_panic; [apply arr_set_no_panic|by intros ? []].
Qed.

Lemma read_head_no_panic w : ¬ is_panic (read_head w).
Proof.
  unfold read_head. apply bind_no_panic; [apply arr_get_no_panic|]. intros n.
  apply bind_no_panic; [|by intros ? []].
  apply for_loop_no_panic. intros j w'. unfold read_head_body.
  apply bind_no_panic; [apply arr_get_no_panic|]. intros v.
  apply bind_no_panic; [apply arr_set_no_panic|by intros ? []].
Qed.

Lemma install_trans_no_panic r w : ¬ is_panic (install_trans r w).
Proof.
  apply for_loop_no_panic. intros j w'. unfold install_trans_body.
  apply bind_no_panic; [apply arr_get_no_panic|by intros ? []].
Qed.

Lemma recover_from_log_no_panic w : ¬ is_panic (recover_from_log w).
Proof.
  unfold recover_from_log. apply bind_no_panic; [apply read_head_no_panic|].
  intros w1. apply bind_no_panic; [apply install_trans_no_panic|].
  intros w2. apply write_head_no_panic.
Qed.

(** ** The world at boot *)

Lemma boot_clean (d : gmap blockid block) (l : log) : clean (set_logger l (boot d)).
Proof. intros b. unfold bview. simpl. by rewrite lookup_empty. Qed.

Lemma boot_sized (d : gmap blockid block) (l : log) :
  map_Forall (fun _ blk => length blk = block_ints) d → sized (set_logger l (boot d)).
Proof. intros Hd. split; [done|]. simpl. apply map_Forall_empty. Qed.

(** C9 (amended).  [initlog] panics exactly when
    [sizeof(struct logheader) >= BSIZE]: also for a header that fills a
    block exactly.  When the header is strictly smaller than a block,
    [initlog] on a freshly booted kernel whose disk blocks have the block
    size and whose on-disk count is at most [LOGSIZE] returns. *)
Theorem initlog_panics_iff (dev : Z) (sb : superblock) :
  (∀ w, is_panic (initlog dev sb w) ↔ BSIZE <= sizeof_logheader) ∧
  (∀ d, 0 < LOGSIZE → sizeof_logheader < BSIZE →
        map_Forall (fun _ blk => length blk = block_ints) d →
        disk_count (dread d (to_uint dev, to_uint (to_int (sb_logstart sb)))) <= LOGSIZE →
        ∃ w', initlog dev sb (boot d) = Done w').
Proof.
  split.
  - intros w. unfold initlog. destruct (Z.leb_spec BSIZE sizeof_logheader) as [H|H].
    + done.
    + split; [|lia]. intros Hp. by apply recover_from_log_no_panic in Hp.
  - intros d HL Hfit Hd Hcount. unfold initlog.
    destruct (Z.leb_spec BSIZE sizeof_logheader) as [H|H]; [lia|].
    set (l := mkLog _ _ _ _ _ _).
    destruct (recover_run (set_logger l (boot d))) as (w' & Hr & _).
    + apply boot_clean.
    + apply clean_uniform, boot_sized, Hd.
    + done.
    + done.
    + unfold cur_block. simpl. apply length_replicate.
    + rewrite boot_clean. unfold head, head_id, l. simpl. done.
    + by exists w'.
Qed.

(** ** [log_write] *)

Lemma log_scan_spec (k : nat) (i : Z) (bl : list Z) (x : Z) :
  0 <= i → (Z.to_nat i + k ≤ length bl)%nat →
  ∃ r, log_scan k i bl x = Done r ∧ i <= r <= i + Z.of_nat k ∧
       (∀ j, i <= j < r → to_uint (default 0 (bl !! Z.to_nat j)) ≠ x) ∧
       (r < i + Z.of_nat k → to_uint (default 0 (bl !! Z.to_nat r)) = x).
Proof.
  revert i. induction k as [|k IH]; intros i Hi Hlen.
  - exists i. simpl. repeat split; lia.
  - simpl. rewrite arr_get_Done by lia. simpl.
    destruct (Z.eqb_spec (to_uint (default 0 (bl !! Z.to_nat i))) x) as [Heq|Hne].
    + exists i. repeat split; (done || lia).
    + destruct (IH (i + 1)) as (r & Hr & Hb & Hbefore & Hat); [lia|lia|].
      exists r. split; [done|]. split; [lia|]. split.
      * intros j Hj. destruct (decide (j = i)) as [->|]; [done|]. apply Hbefore. lia.
      * intros Hlt. apply Hat. lia.
Qed.

Lemma log_scan_no_panic k i bl x : ¬ is_panic (log_scan k i bl x).
Proof.
  revert i. induction k as [|k IH]; intros i; simpl; [by intros []|].
  apply bind_no_panic; [apply arr_get_no_panic|]. intros v.
  destruct (to_uint v =? x); [by intros []|apply IH].
Qed.

Lemma log_write_guard (b : blockid) (w : world) :
  is_int (log_size (logger w) - 1) →
  (log_write_fatal (logger w) → is_panic (log_write b w)) ∧
  (¬ log_write_fatal (logger w) →
   log_write b w =
     let w := emit EvAcquire w in
     i ← log_scan (Z.to_nat (cur_n w)) 0 (cur_block w) b.2;
     bl ← arr_set (cur_block w) i (to_int b.2);
     let w := set_logger (set_block bl (logger w)) w in
     let w :=
       if i =? cur_n w
       then let w := bpin b w in set_logger (set_n (to_int (cur_n w + 1)) (logger w)) w
       else w in
     Done (emit EvRelease w)).
Proof.
  intros Hsz. unfold log_write, log_write_fatal, cur_n. simpl.
  rewrite (to_int_id _ Hsz).
  destruct (Z.leb_spec LOGSIZE (lh_n (log_lh (logger w))));
    destruct (Z.leb_spec (log_size (logger w) - 1) (lh_n (log_lh (logger w))));
    destruct (Z.ltb_spec (log_outstanding (logger w)) 1); simpl;
    (split; [try done; lia | try done; intros Hn; exfalso; apply Hn; lia]).
Qed.

Lemma cur_n_set_block bl l w : cur_n (set_logger (set_block bl l) w) = lh_n (log_lh l).
Proof. done. Qed.

Lemma log_write_run (b : blockid) (w : world) :
  is_int (log_size (logger w) - 1) → ¬ log_write_fatal (logger w) →
  0 <= cur_n w → LOGSIZE <= int_max → length (cur_block w) = Z.to_nat LOGSIZE →
  ∃ r w', log_write b w = Done w' ∧ 0 <= r <= cur_n w ∧
    (∀ j, 0 <= j < r → to_uint (entry w j) ≠ b.2) ∧
    (r < cur_n w → to_uint (entry w r) = b.2) ∧
    disk w' = disk w ∧ (∀ b', bview w' b' = bview w b') ∧
    cur_block w' = <[Z.to_nat r := to_int b.2]> (cur_block w) ∧
    logger w' = set_lh (log_lh (logger w')) (logger w) ∧
    (r < cur_n w → cur_n w' = cur_n w ∧ bcache w' = bcache w ∧
                   trace w' = trace w ++ [EvAcquire; EvRelease]) ∧
    (r = cur_n w → cur_n w' = cur_n w + 1 ∧
                   trace w' = trace w ++ [EvAcquire; EvBpin b; EvRelease]).
Proof.
  intros Hsz Hnf Hn0 HL Hlen.
  destruct (log_write_guard b w Hsz) as [_ Heq]. rewrite (Heq Hnf). clear Heq.
  assert (Hlt : cur_n w < LOGSIZE).
  { unfold log_write_fatal, cur_n in *. lia. }
  destruct (log_scan_spec (Z.to_nat (cur_n w)) 0 (cur_block w) b.2)
    as (r & Hr & Hb & Hbefore & Hat); [lia|lia|].
  rewrite Z2Nat.id in Hb, Hat by lia. simpl in Hb, Hat.
  cbv zeta. rewrite emit_cur_n, emit_cur_block, Hr. simpl.
  rewrite arr_set_Done by lia. simpl.
  rewrite cur_n_set_block. fold (cur_n w).
  destruct (Z.eqb_spec r (cur_n w)) as [->|Hne].
  - eexists (cur_n w), _. split; [reflexivity|]. split; [lia|].
    split; [exact Hbefore|]. split; [exact Hat|].
    repeat split; obs; try lia.
    unfold cur_n. simpl. obs. fold (cur_n w).
    rewrite to_int_id; [done|]. unfold is_int, int_min. lia.
  - eexists r, _. split; [reflexivity|]. split; [lia|].
    split; [exact Hbefore|]. split; [exact Hat|].
    repeat split; obs; try lia.
Qed.

(** C7.  [log_write] panics if and only if, at entry, the count has reached
    [LOGSIZE], or has reached the size of the log region less one, or no
    operation is outstanding.  Otherwise it returns and the block number is
    among the entries of the header.  (The size of the log region is an int
    from which one can be subtracted, and the header array has [LOGSIZE]
    entries of which at least none are in use.) *)
Theorem log_write_panics_iff (b : blockid) (w : world) :
  is_int (log_size (logger w) - 1) →
  (is_panic (log_write b w) ↔ log_write_fatal (logger w)) ∧
  (¬ log_write_fatal (logger w) →
   0 <= cur_n w → LOGSIZE <= int_max → length (cur_block w) = Z.to_nat LOGSIZE →
   ∃ w', log_write b w = Done w' ∧
         to_int b.2 ∈ take (Z.to_nat (cur_n w')) (cur_block w')).
Proof.
  intros Hsz. destruct (log_write_guard b w Hsz) as [Hfatal Hok]. split.
  - split; [|exact Hfatal].
    intros Hp. apply dec_stable. intros Hnf. rewrite (Hok Hnf) in Hp.
    revert Hp. cbv zeta. apply bind_no_panic; [apply log_scan_no_panic|]. intros i.
    apply bind_no_panic; [apply arr_set_no_panic|]. by intros ? [].
  - intros Hnf Hn0 HL Hlen.
    destruct (log_write_run b w) as (r & w' & Hw & Hr & _ & Hat & _ & _ & Hbl & _ & Hhit & Hmiss);
      try done.
    exists w'. split; [done|].
    assert (Hlt : cur_n w < LOGSIZE) by (unfold log_write_fatal, cur_n in *; lia).
    apply list_elem_of_lookup. exists (Z.to_nat r).
    assert (Hn' : r < cur_n w').
    { destruct (decide (r = cur_n w)) as [->|].
      - destruct Hmiss as [-> _]; [done|lia].
      - destruct Hhit as [-> _]; lia. }
    rewrite lookup_take_lt by lia. rewrite Hbl.
    apply list_lookup_insert_eq. lia.
Qed.

(** ** Admission *)

Lemma begin_op_pass_committing (w : world) :
  log_committing (logger w) ≠ 0 → begin_op_pass w = Asleep (emit EvSleep w).
Proof.
  intros Hc. unfold begin_op_pass.
  by destruct (Z.eqb_spec (log_committing (logger w)) 0).
Qed.

Lemma reservation_int (l : log) :
  reservation_in_range l →
  to_int (lh_n (log_lh l) + to_int (to_int (log_outstanding l + 1) * MAXOPBLOCKS))
  = reservation l.
Proof.
  intros (H1 & H2 & H3). unfold reservation in *.
  by rewrite (to_int_id _ H1), (to_int_id _ H2), (to_int_id _ H3).
Qed.

Lemma begin_op_pass_Entered (w w' : world) :
  begin_op_pass w = Entered w' →
  log_committing (logger w) = 0 ∧
  w' = emit EvRelease
         (set_logger (set_outstanding (to_int (log_outstanding (logger w) + 1)) (logger w)) w) ∧
  (reservation_in_range (logger w) →
   reservation (logger w) <= LOGSIZE ∧
   log_outstanding (logger w') = log_outstanding (logger w) + 1).
Proof.
  unfold begin_op_pass.
  destruct (Z.eqb_spec (log_committing (logger w)) 0) as [Hc|Hc]; [|done]. simpl.
  destruct (Z.ltb_spec LOGSIZE
              (to_int (lh_n (log_lh (logger w)) +
                       to_int (to_int (log_outstanding (logger w) + 1) * MAXOPBLOCKS))))
    as [Hlt|Hle]; [done|].
  intros [= <-]. split; [done|]. split; [done|].
  intros Hr. rewrite (reservation_int _ Hr) in Hle. split; [done|].
  simpl. destruct Hr as (H1 & _). by rewrite to_int_id.
Qed.

Lemma begin_op_loop_Entered (wakes : list (world → world)) (w w' : world) :
  begin_op_loop wakes w = Entered w' →
  ∃ ws, begin_op_pass ws = Entered w'.
Proof.
  revert w. induction wakes as [|f wakes IH]; intros w; simpl.
  - destruct (begin_op_pass w) eqn:E; [|done]. intros [= <-]. by exists w.
  - destruct (begin_op_pass w) eqn:E; [intros [= <-]; by exists w|]. apply IH.
Qed.

(** C5.  [begin_op] returns only from a pass through its loop made in a
    state where no commit is in progress and the reservation
    [n + (outstanding + 1) * MAXOPBLOCKS] is at most [LOGSIZE]; it then has
    incremented [outstanding] by one and released the lock.  In a state
    where a commit is in progress, or where the reservation exceeds
    [LOGSIZE], the pass puts the caller to sleep, and the loop tests again
    in the state the caller wakes up in; without a wakeup the caller stays
    asleep.  (The bounds are those of the code when its int arithmetic does
    not overflow.) *)
Theorem begin_op_admission (wakes : list (world → world)) (w : world) :
  (∀ w', begin_op wakes w = Entered w' →
     ∃ ws, begin_op_pass ws = Entered w' ∧
           log_committing (logger ws) = 0 ∧
           trace w' = trace ws ++ [EvRelease] ∧
           (reservation_in_range (logger ws) →
            reservation (logger ws) <= LOGSIZE ∧
            log_outstanding (logger w') = log_outstanding (logger ws) + 1)) ∧
  (log_committing (logger w) ≠ 0 ∨
   (reservation_in_range (logger w) ∧ LOGSIZE < reservation (logger w)) →
   begin_op_pass w = Asleep (emit EvSleep w) ∧
   begin_op_loop [] w = Asleep (emit EvSleep w) ∧
   ∀ f wakes', begin_op_loop (f :: wakes') w = begin_op_loop wakes' (f (emit EvSleep w))).
Proof.
  split.
  - intros w' Ha. unfold begin_op in Ha.
    apply begin_op_loop_Entered in Ha as (ws & Hp).
    exists ws. split; [done|].
    destruct (begin_op_pass_Entered ws w' Hp) as (Hc & -> & Hr).
    split; [done|]. split; [done|]. exact Hr.
  - intros Hblock.
    assert (Hp : begin_op_pass w = Asleep (emit EvSleep w)).
    { destruct Hblock as [Hc|[Hr Hlt]]; [by apply begin_op_pass_committing|].
      unfold begin_op_pass. rewrite (reservation_int _ Hr).
      destruct (Z.eqb_spec (log_committing (logger w)) 0); [|done]. simpl.
      destruct (Z.ltb_spec LOGSIZE (reservation (logger w))); [done|lia]. }
    split; [done|]. simpl. rewrite Hp. done.
Qed.

(** ** Exit *)

(** C6.  [end_op] decrements [outstanding] by one.  If a commit is in
    progress it panics.  Otherwise, if [outstanding] has not reached 0 it
    wakes the waiters and returns without any disk write; if [outstanding]
    has reached 0 it sets [committing], releases the lock, runs [commit],
    and then, holding the lock again, clears [committing] and wakes the
    waiters.  When the transaction holds blocks, the collaborators see the
    release, then the four phases of the commit, then acquire, wakeup and
    release. *)
Theorem end_op_protocol (w : world) :
  let out' := to_int (log_outstanding (logger w) - 1) in
  (is_int (log_outstanding (logger w) - 1) → out' = log_outstanding (logger w) - 1) ∧
  (log_committing (logger w) ≠ 0 → end_op w = Panic "logger.committing") ∧
  (log_committing (logger w) = 0 → out' ≠ 0 →
   ∃ w', end_op w = Done w' ∧
         logger w' = set_outstanding out' (logger w) ∧
         disk w' = disk w ∧
         trace w' = trace w ++ [EvAcquire; EvWakeup; EvRelease]) ∧
  (log_committing (logger w) = 0 → out' = 0 →
   log_committing (logger (committing_world w)) = 1 ∧
   end_op w = (commit (committing_world w) ≫= fun w2 => Done (commit_done w2)) ∧
   (0 < cur_n w → geometry_ok (logger w) → header_ok (logger w) → sized w →
    sizeof_logheader < BSIZE →
    ∃ w', end_op w = Done w' ∧
          trace w' = trace w ++ [EvAcquire; EvRelease] ++ commit_events w ++
                     [EvAcquire; EvWakeup; EvRelease] ∧
          log_committing (logger w') = 0 ∧ log_outstanding (logger w') = 0 ∧
          cur_n w' = 0)).
Proof.
  intros out'. split; [|split; [|split]].
  - intros Hi. apply (to_int_id _ Hi).
  - intros Hc. unfold end_op. simpl.
    by destruct (Z.eqb_spec (log_committing (logger w)) 0).
  - intros Hc Hout. unfold end_op. simpl. fold out'.
    destruct (Z.eqb_spec (log_committing (logger w)) 0); [|done]. simpl.
    destruct (Z.eqb_spec out' 0); [done|]. simpl.
    eexists. split; [reflexivity|]. simpl. rewrite <- !app_assoc. done.
  - intros Hc Hout.
    assert (Heq : end_op w = (commit (committing_world w) ≫= fun w2 => Done (commit_done w2))).
    { unfold end_op. simpl. fold out'. rewrite Hout.
      destruct (Z.eqb_spec (log_committing (logger w)) 0); [|done]. simpl. done. }
    split; [done|]. split; [exact Heq|].
    intros Hpos Hg Hh Hs Hfit.
    destruct (commit_run (committing_world w)) as (w2 & Hcm & Hl2 & Ht2 & _); try done.
    rewrite Heq, Hcm. simpl. eexists. split; [reflexivity|].
    unfold commit_done. obs. rewrite Hl2, Ht2. simpl.
    split; [|done].
    rewrite <- !app_assoc. simpl. done.
Qed.

(** ** The commit engine *)

(** C2.  With an empty header [commit] does nothing.  With [n > 0] entries
    it returns, and what the disk and the cache were told is, in this
    order: (1) for each entry [j] a write of log block [start + j + 1] with
    the cache contents of the home block; (2) a write of the header block
    with the count and the block numbers; (3) for each entry a write of the
    home block with the same contents, followed by its unpin; (4) a write of
    the header block with count 0, after the in-memory count was reset.
    The disk afterwards is the disk before with these writes applied in
    that order. *)
Theorem commit_phases (w : world) :
  (cur_n w = 0 → commit w = Done w) ∧
  (0 < cur_n w → geometry_ok (logger w) → header_ok (logger w) → sized w →
   sizeof_logheader < BSIZE →
   (∀ j, 0 <= j < cur_n w →
         slot w j = (to_uint (log_dev (logger w)), log_start (logger w) + j + 1)) ∧
   ∃ w', commit w = Done w' ∧
         trace w' = trace w ++ commit_events w ∧
         logger w' = set_n 0 (logger w) ∧
         disk w' = replay (writes_of (commit_events w)) (disk w)).
Proof.
  split.
  - intros Hn. unfold commit. by rewrite Hn.
  - intros Hpos Hg Hh Hs Hfit. split.
    + intros j Hj. apply slot_id_eq; [done|].
      destruct Hh as (Hn & _). fold (cur_n w) in Hn. lia.
    + destruct (commit_run w) as (w' & Hc & Hl & Ht & Hd & _); try done.
      by exists w'.
Qed.

(** ** What stays in the header block *)

Lemma last_write_snoc ws b d : last_write (ws ++ [(b, d)]) b = Some d.
Proof. rewrite last_write_app. simpl. by rewrite decide_True. Qed.

Lemma erased_header_lookup (w : world) :
  (Z.to_nat (cur_n w) ≤ length (cur_block w))%nat →
  (Z.to_nat (cur_n w) < length (bview w (head w)))%nat →
  erased_header w !! 0%nat = Some 0 ∧
  ∀ j, 0 <= j < cur_n w → erased_header w !! Z.to_nat (1 + j) = Some (entry w j).
Proof.
  intros Hn Hlen. unfold erased_header, committed_header, header_image. split; [done|].
  intros j Hj. replace (Z.to_nat (1 + j)) with (S (Z.to_nat j)) by lia.
  simpl. rewrite drop_0.
  rewrite lookup_app_l by (rewrite length_take; lia).
  rewrite lookup_take_lt by lia. unfold entry.
  destruct (lookup_lt_is_Some_2 (cur_block w) (Z.to_nat j)) as [h Hh]; [lia|].
  by rewrite Hh.
Qed.

Lemma commit_head_on_disk (w w' : world) :
  disk w' = replay (writes_of (commit_events w)) (disk w) →
  disk w' !! head w = Some (erased_header w).
Proof.
  intros ->. rewrite writes_of_commit_events, !app_assoc.
  unfold replay. rewrite foldl_app. simpl. apply lookup_insert_eq.
Qed.

(** C10.  Clearing the header rewrites the count and nothing else.
    [write_head] with an in-memory count of 0 changes only int 0 of the
    header block.  After a commit of [n > 0] entries the header block on
    disk has count 0 and still holds the [n] block numbers of the
    transaction behind it.  A recovery that finds count 0 on disk copies
    no block number into memory and replays nothing: its only write is the
    header block, which it leaves as it was. *)
Theorem clear_header_frame (w : world) :
  (cur_n w = 0 → (0 < length (bview w (head w)))%nat →
   ∃ w', write_head w = Done w' ∧
         disk w' = <[head w := <[0%nat := 0]> (bview w (head w))]> (disk w) ∧
         ∀ i, (0 < i)%nat → dread (disk w') (head w) !! i = bview w (head w) !! i) ∧
  (0 < cur_n w → geometry_ok (logger w) → header_ok (logger w) → sized w →
   sizeof_logheader < BSIZE →
   ∃ w', commit w = Done w' ∧
         disk_count (dread (disk w') (head w)) = 0 ∧
         ∀ j, 0 <= j < cur_n w →
              dread (disk w') (head w) !! Z.to_nat (1 + j) = Some (entry w j)) ∧
  (clean w → sized w → 0 < LOGSIZE → sizeof_logheader < BSIZE →
   length (cur_block w) = Z.to_nat LOGSIZE → disk_count (bview w (head w)) = 0 →
   ∃ w', recover_from_log w = Done w' ∧
         cur_block w' = cur_block w ∧ cur_n w' = 0 ∧
         trace w' = trace w ++ [EvBwrite (head w) (bview w (head w))] ∧
         ∀ b, dread (disk w') b = dread (disk w) b).
Proof.
  split; [|split].
  - intros Hn Hlen.
    destruct (write_head_copies w) as (w' & Hwh & Hl & Hd & Hv & Ht).
    { rewrite Hn. simpl. lia. }
    { rewrite Hn. simpl. lia. }
    rewrite Hn, header_image_0 in Hd by done.
    exists w'. split; [done|]. split; [done|].
    intros i Hi. rewrite Hd, dread_insert, decide_True by done.
    apply list_lookup_insert_ne. lia.
  - intros Hpos Hg Hh Hs Hfit.
    destruct (commit_run w) as (w' & Hc & Hl & Ht & Hd & _); try done.
    pose proof (commit_head_on_disk w w' Hd) as Hhd.
    pose proof Hh as (Hn & Hlen & _). fold (cur_n w) in Hn. fold (cur_block w) in Hlen.
    pose proof Hg as (HL & _).
    pose proof (header_fits_ints HL Hfit) as Hints.
    destruct (erased_header_lookup w) as [H0 Hent].
    { lia. }
    { rewrite sized_bview by done. lia. }
    exists w'. split; [done|].
    unfold dread, disk_count. rewrite Hhd. simpl. done.
  - intros Hc Hs HL Hfit Hlen Hcount.
    pose proof (header_fits_ints HL Hfit) as Hints.
    destruct (recover_run w) as (w' & Hr & Hc' & Hu' & Hl' & Hd' & tr & Ht' & Hev & Hws);
      try done.
    { by apply clean_uniform. }
    { rewrite Hcount. lia. }
    assert (Hde : disk_entries (bview w (head w)) = []).
    { unfold disk_entries. by rewrite Hcount. }
    rewrite Hcount, Hde in *. simpl in Hd', Hl', Hws.
    assert (Hid : <[0%nat := 0]> (dread (disk w) (head w)) = dread (disk w) (head w)).
    { apply list_insert_id. rewrite <- Hc. unfold disk_count in Hcount.
      destruct (bview w (head w) !! 0%nat) as [v|] eqn:E; [simpl in Hcount; by subst|].
      apply lookup_ge_None in E. rewrite sized_bview in E by done. lia. }
    rewrite Hid in Hd'.
    exists w'. split; [done|]. split; [|split; [|split]].
    + unfold cur_block. rewrite Hl'. simpl. by rewrite drop_0.
    + unfold cur_n. by rewrite Hl'.
    + rewrite Ht'. destruct tr as [|e tr]; [|simpl in Hws; lia].
      simpl. by rewrite Hid, Hc.
    + intros b. rewrite Hd', dread_insert. by destruct (decide (b = head w)) as [->|].
Qed.

(** ** Recovery, twice *)

(** C8.  On a cache that holds nothing but what is on disk (as at boot),
    with blocks of the block size and an on-disk count of at most
    [LOGSIZE] (beyond it [read_head] overruns the header array), recovery
    returns; the disk it leaves is the disk it found with each of the
    logged entries, in order, copied from its log block to its home block,
    and then the header block written with count 0; the buffer cache is
    told to write and never to unpin; and a second recovery right after
    returns and leaves that disk as it is. *)
Theorem recovery_idempotent (w : world) :
  clean w → sized w → 0 < LOGSIZE → sizeof_logheader < BSIZE →
  length (cur_block w) = Z.to_nat LOGSIZE →
  disk_count (bview w (head w)) <= LOGSIZE →
  ∃ w1, recover_from_log w = Done w1 ∧
    (let d1 := install_on_disk (logger w) 0 (disk_entries (bview w (head w))) (disk w) in
     disk w1 = <[head w := <[0%nat := 0]> (dread d1 (head w))]> d1) ∧
    disk_count (dread (disk w1) (head w)) = 0 ∧
    (∃ tr, trace w1 = trace w ++ tr ∧
           length (writes_of tr) = S (Z.to_nat (disk_count (bview w (head w)))) ∧
           ∀ b, EvBunpin b ∉ tr) ∧
    ∃ w2, recover_from_log w1 = Done w2 ∧ disk w2 = disk w1.
Proof.
  intros Hc Hs HL Hfit Hlen Hcount.
  pose proof (header_fits_ints HL Hfit) as Hints.
  destruct (recover_run w) as (w1 & Hr & Hc1 & Hu1 & Hl1 & Hd1 & tr & Ht1 & Hev & Hws);
    try done.
  { by apply clean_uniform. }
  set (hb := bview w (head w)) in *.
  set (d1 := install_on_disk (logger w) 0 (disk_entries hb) (disk w)) in *.
  simpl in Hd1, Ht1.
  assert (Hlen1 : (0 < length (dread d1 (head w)))%nat).
  { assert (Hx : length (bview w1 (head w)) = block_ints) by apply Hu1.
    rewrite Hc1, Hd1, dread_insert, decide_True, length_insert in Hx by done. lia. }
  assert (Hhd1 : disk w1 !! head w = Some (<[0%nat := 0]> (dread d1 (head w)))).
  { rewrite Hd1. apply lookup_insert_eq. }
  assert (Hcnt1 : disk_count (dread (disk w1) (head w)) = 0).
  { unfold dread at 1. rewrite Hhd1. simpl. unfold disk_count.
    by rewrite list_lookup_insert_eq. }
  assert (Hh1 : head w1 = head w) by (unfold head; by rewrite Hl1).
  exists w1. split; [done|]. split; [done|]. split; [done|]. split.
  - eexists. split; [exact Ht1|]. split.
    + rewrite writes_of_app, length_app, length_writes_of_bwrites, Hws by done. simpl. lia.
    + intros b Hin. apply elem_of_app in Hin as [Hin|Hin].
      * rewrite Forall_forall in Hev. by destruct (Hev _ Hin) as (? & ? & ?).
      * by apply list_elem_of_singleton in Hin.
  - destruct (recover_run w1) as (w2 & Hr2 & _ & _ & _ & Hd2 & _); try done.
    { unfold cur_block. rewrite Hl1. simpl.
      rewrite length_app, length_drop. unfold disk_entries.
      rewrite length_take, length_drop. fold (cur_block w). rewrite Hlen.
      unfold hb in *. rewrite (sized_bview w) by done. lia. }
    { rewrite Hh1, Hc1, Hcnt1. lia. }
    exists w2. split; [done|].
    simpl in Hd2. rewrite Hh1, Hc1 in Hd2.
    assert (Hde : disk_entries (dread (disk w1) (head w)) = []).
    { unfold disk_entries. by rewrite Hcnt1. }
    rewrite Hde in Hd2. simpl in Hd2. rewrite Hd2.
    assert (Hdr1 : dread (disk w1) (head w) = <[0%nat := 0]> (dread d1 (head w))).
    { unfold dread at 1. by rewrite Hhd1. }
    apply insert_id. rewrite Hhd1, Hdr1. f_equal. symmetry.
    apply list_insert_id. by apply list_lookup_insert_eq.
Qed.

(** ** Absorption *)

Lemma logged_iff (w : world) (x : Z) :
  0 <= cur_n w → (Z.to_nat (cur_n w) ≤ length (cur_block w))%nat →
  logged w x ↔ ∃ j, 0 <= j < cur_n w ∧ to_uint (entry w j) = x.
Proof.
  intros Hn Hlen. unfold logged, entries, entry. split.
  - intros (h & -> & Hin)%list_elem_of_fmap.
    apply list_elem_of_lookup in Hin as [i Hi].
    pose proof (lookup_lt_Some _ _ _ Hi) as Hlt. rewrite length_take in Hlt.
    rewrite lookup_take_lt in Hi by lia.
    exists (Z.of_nat i). split; [lia|]. by rewrite Nat2Z.id, Hi.
  - intros (j & Hj & <-). apply list_elem_of_fmap.
    destruct (lookup_lt_is_Some_2 (cur_block w) (Z.to_nat j)) as [h Hh]; [lia|].
    exists h. rewrite Hh. split; [done|].
    apply list_elem_of_lookup. exists (Z.to_nat j).
    rewrite lookup_take_lt by lia. done.
Qed.

Lemma logger_lh_intro (w w' : world) (n : Z) (bl : list Z) :
  logger w' = set_lh (log_lh (logger w')) (logger w) →
  cur_n w' = n → cur_block w' = bl →
  logger w' = set_lh (mkLogheader n bl) (logger w).
Proof.
  intros H Hn Hb. etrans; [exact H|]. f_equal.
  unfold cur_n, cur_block in *. destruct (log_lh (logger w')). simpl in *. by subst.
Qed.

Lemma set_lh_self (w : world) :
  set_lh (mkLogheader (cur_n w) (cur_block w)) (logger w) = logger w.
Proof. unfold cur_n, cur_block. by destruct (logger w) as [? ? ? ? ? []]. Qed.

Lemma log_write_hit (b : blockid) (w : world) :
  is_int (log_size (logger w) - 1) → ¬ log_write_fatal (logger w) →
  0 <= cur_n w → LOGSIZE <= int_max → length (cur_block w) = Z.to_nat LOGSIZE →
  Forall is_int (cur_block w) → logged w b.2 →
  ∃ w', log_write b w = Done w' ∧ logger w' = logger w ∧ bcache w' = bcache w ∧
        disk w' = disk w ∧ trace w' = trace w ++ [EvAcquire; EvRelease].
Proof.
  intros Hsz Hnf Hn0 HL Hlen Hints Hlog.
  assert (Hlt : cur_n w < LOGSIZE) by (unfold log_write_fatal, cur_n in *; lia).
  destruct (log_write_run b w) as (r & w' & Hw & Hr & Hbefore & Hat & Hd & _ & Hbl & Hlg & Hhit & _);
    try done.
  apply logged_iff in Hlog as (j & Hj & Hjx); [|lia|lia].
  assert (Hrn : r < cur_n w).
  { destruct (decide (r < cur_n w)); [done|]. exfalso. apply (Hbefore j); [lia|done]. }
  destruct (Hhit Hrn) as (Hn' & Hc' & Ht').
  exists w'. split; [done|]. split; [|done].
  rewrite (logger_lh_intro w w' _ _ Hlg Hn' Hbl).
  rewrite list_insert_id; [apply set_lh_self|].
  destruct (lookup_lt_is_Some_2 (cur_block w) (Z.to_nat r)) as [h Hh]; [lia|].
  rewrite Hh. f_equal. specialize (Hat Hrn). unfold entry in Hat. rewrite Hh in Hat.
  simpl in Hat. rewrite <- Hat. symmetry. apply to_int_to_uint.
  rewrite Forall_lookup in Hints. by apply (Hints _ _ Hh).
Qed.

Lemma log_write_miss (b : blockid) (w : world) :
  is_int (log_size (logger w) - 1) → ¬ log_write_fatal (logger w) →
  0 <= cur_n w → LOGSIZE <= int_max → length (cur_block w) = Z.to_nat LOGSIZE →
  ¬ logged w b.2 →
  ∃ w', log_write b w = Done w' ∧
        logger w' = set_lh (mkLogheader (cur_n w + 1)
                              (<[Z.to_nat (cur_n w) := to_int b.2]> (cur_block w)))
                           (logger w) ∧
        disk w' = disk w ∧ trace w' = trace w ++ [EvAcquire; EvBpin b; EvRelease].
Proof.
  intros Hsz Hnf Hn0 HL Hlen Hnlog.
  assert (Hlt : cur_n w < LOGSIZE) by (unfold log_write_fatal, cur_n in *; lia).
  destruct (log_write_run b w) as (r & w' & Hw & Hr & _ & Hat & Hd & _ & Hbl & Hlg & _ & Hmiss);
    try done.
  assert (Hrn : r = cur_n w).
  { destruct (decide (r = cur_n w)); [done|]. exfalso. apply Hnlog.
    apply logged_iff; [lia|lia|]. exists r. split; [lia|]. apply Hat. lia. }
  destruct (Hmiss Hrn) as (Hn' & Ht').
  exists w'. split; [done|]. split; [|done].
  apply logger_lh_intro; [done|done|by rewrite Hbl, Hrn].
Qed.

Lemma log_write_times_hit (k : nat) (b : blockid) (w : world) :
  is_int (log_size (logger w) - 1) → ¬ log_write_fatal (logger w) →
  0 <= cur_n w → LOGSIZE <= int_max → length (cur_block w) = Z.to_nat LOGSIZE →
  Forall is_int (cur_block w) → logged w b.2 →
  ∃ w', log_write_times k b w = Done w' ∧ logger w' = logger w ∧ disk w' = disk w ∧
        ∃ tr, trace w' = trace w ++ tr ∧ ∀ b', EvBpin b' ∉ tr.
Proof.
  revert w. induction k as [|k IH]; intros w Hsz Hnf Hn0 HL Hlen Hints Hlog.
  - exists w. repeat split. exists []. rewrite app_nil_r. split; [done|].
    intros b'. apply not_elem_of_nil.
  - destruct (log_write_hit b w) as (w1 & Hw & Hl1 & Hc1 & Hd1 & Ht1); try done.
    destruct (IH w1) as (w' & Hk & Hl' & Hd' & tr & Ht' & Hpin).
    1-7: unfold logged, entries, cur_n, cur_block in *; by rewrite ?Hl1.
    exists w'. simpl. rewrite Hw. simpl. split; [done|].
    split; [congruence|]. split; [congruence|].
    eexists. split; [rewrite Ht', Ht1, <- app_assoc; reflexivity|].
    intros b' Hin. apply elem_of_app in Hin as [Hin|Hin]; [|by apply (Hpin b')].
    apply elem_of_cons in Hin as [?|Hin]; [done|].
    by apply list_elem_of_singleton in Hin.
Qed.

Lemma replay_last_write_None ws d b :
  last_write ws b = None → dread (replay ws d) b = dread d b.
Proof. intros H. by rewrite dread_replay, H. Qed.

Lemma commit_disk_slot (w : world) (j : Z) :
  geometry_ok (logger w) → header_ok (logger w) → 0 <= j < cur_n w →
  dread (replay (writes_of (commit_events w)) (disk w)) (slot w j) = bview w (home w j).
Proof.
  intros Hg Hh Hj. pose proof Hh as (Hn & _). fold (cur_n w) in Hn.
  rewrite dread_replay, writes_of_commit_events, !last_write_app. simpl.
  rewrite !decide_False by (apply slot_ne_head; (done || lia)).
  unfold install_writes. rewrite last_write_fmap_None; cycle 1.
  { intros j' Hj'%elem_of_seqZ. apply home_ne_slot; (done || lia). }
  unfold write_log_writes.
  rewrite (last_write_fmap (slot w) (fun j => bview w (home w j))); [done| |].
  - apply elem_of_seqZ. lia.
  - intros j' Hj'%elem_of_seqZ Heq. apply slot_inj in Heq; [by subst|done|lia|lia].
Qed.

Lemma logged_after_miss (b : blockid) (w w1 : world) :
  0 <= cur_n w → (Z.to_nat (cur_n w) < length (cur_block w))%nat →
  0 <= b.2 < 4294967296 →
  logger w1 = set_lh (mkLogheader (cur_n w + 1)
                        (<[Z.to_nat (cur_n w) := to_int b.2]> (cur_block w)))
                     (logger w) →
  logged w1 b.2.
Proof.
  intros Hn Hlen Hb Hl1. unfold logged, entries, cur_n, cur_block. rewrite Hl1. simpl.
  fold (cur_n w) (cur_block w).
  apply list_elem_of_fmap. exists (to_int b.2). split.
  - rewrite to_uint_to_int. unfold to_uint. by rewrite Z.mod_small.
  - apply list_elem_of_lookup. exists (Z.to_nat (cur_n w)).
    rewrite lookup_take_lt by lia. by apply list_lookup_insert_eq.
Qed.

Lemma log_write_full (b : blockid) (w : world) :
  LOGSIZE <= cur_n w ∨ to_int (log_size (logger w) - 1) <= cur_n w →
  log_write b w = Panic "too big a transaction".
Proof.
  intros H. unfold log_write. rewrite emit_cur_n, emit_logger.
  destruct (Z.leb_spec LOGSIZE (cur_n w)); simpl; [done|].
  destruct (Z.leb_spec (to_int (log_size (logger w) - 1)) (cur_n w)); simpl; [done|lia].
Qed.

(** C3.  Absorption, under the guard of [log_write] itself: an open
    transaction ([outstanding >= 1]) whose header has a free entry
    ([n < LOGSIZE] and [n < size - 1]).  A [log_write] of a block whose
    number is already in the header leaves the header (count and block
    list) and the cache as they are and pins nothing; a [log_write] of a
    block whose number is not yet there pins the block once, stores the
    number at position [n] and increments [n].  [N >= 1] calls in a row for
    the same block leave the header that the first call left, with the
    block in it, pin nothing after the first call and write nothing to the
    disk, when the block is already in the header, or there is room for
    one entry more than the block takes, or [N = 1].  Otherwise the first
    call takes the last free entry and every later call for the same block
    panics, absorbed though it would be: [log_write] tests the room before
    it scans the header, so on a full header it panics for every block.
    The log block that [commit] writes for an entry holds the cache
    contents of the home block at the time of the commit. *)
Theorem log_absorption (b : blockid) (w : world) (N : nat) :
  is_int (log_size (logger w) - 1) →
  0 <= cur_n w → cur_n w < LOGSIZE → cur_n w < log_size (logger w) - 1 →
  1 <= log_outstanding (logger w) → LOGSIZE <= int_max →
  length (cur_block w) = Z.to_nat LOGSIZE → Forall is_int (cur_block w) →
  0 <= b.2 < 4294967296 → (1 ≤ N)%nat →
  (logged w b.2 →
   ∃ w', log_write b w = Done w' ∧ logger w' = logger w ∧ bcache w' = bcache w ∧
         trace w' = trace w ++ [EvAcquire; EvRelease]) ∧
  (¬ logged w b.2 →
   ∃ w', log_write b w = Done w' ∧
         cur_n w' = cur_n w + 1 ∧
         cur_block w' = <[Z.to_nat (cur_n w) := to_int b.2]> (cur_block w) ∧
         trace w' = trace w ++ [EvAcquire; EvBpin b; EvRelease]) ∧
  (N = 1%nat ∨ logged w b.2 ∨
   (cur_n w + 1 < LOGSIZE ∧ cur_n w + 1 < log_size (logger w) - 1) →
   ∃ w1 wN, log_write b w = Done w1 ∧ log_write_times N b w = Done wN ∧
            logger wN = logger w1 ∧ logged wN b.2 ∧
            (logged w b.2 → cur_n wN = cur_n w) ∧
            (¬ logged w b.2 → cur_n wN = cur_n w + 1) ∧
            disk wN = disk w ∧
            ∃ tr, trace wN = trace w1 ++ tr ∧ ∀ b', EvBpin b' ∉ tr) ∧
  (¬ logged w b.2 →
   LOGSIZE <= cur_n w + 1 ∨ log_size (logger w) - 1 <= cur_n w + 1 →
   ∃ w1, log_write b w = Done w1 ∧ logged w1 b.2 ∧ cur_n w1 = cur_n w + 1 ∧
         log_write b w1 = Panic "too big a transaction" ∧
         ((2 ≤ N)%nat → log_write_times N b w = Panic "too big a transaction")) ∧
  (∀ wf, LOGSIZE <= cur_n wf ∨ to_int (log_size (logger wf) - 1) <= cur_n wf →
         log_write b wf = Panic "too big a transaction") ∧
  (∀ wc, 0 < cur_n wc → geometry_ok (logger wc) → header_ok (logger wc) →
         sized wc → sizeof_logheader < BSIZE →
         ∃ w', commit wc = Done w' ∧
               ∀ j, 0 <= j < cur_n wc →
                    dread (disk w') (slot wc j) = bview wc (home wc j)).
Proof.
  intros Hsz Hn0 HnL Hnsz Hout HL Hlen Hints Hb HN.
  assert (Hnf : ¬ log_write_fatal (logger w)).
  { unfold log_write_fatal, cur_n in *. lia. }
  assert (Hfirst : ∃ w1, log_write b w = Done w1 ∧ disk w1 = disk w ∧
                  log_size (logger w1) = log_size (logger w) ∧
                  log_outstanding (logger w1) = log_outstanding (logger w) ∧
                  length (cur_block w1) = Z.to_nat LOGSIZE ∧
                  Forall is_int (cur_block w1) ∧ logged w1 b.2 ∧
                  (logged w b.2 → cur_n w1 = cur_n w) ∧
                  (¬ logged w b.2 → cur_n w1 = cur_n w + 1)).
  { destruct (decide (b.2 ∈ to_uint <$> entries w)) as [Hlog|Hnlog].
    - destruct (log_write_hit b w) as (w1 & Hw & Hl & Hc & Hd & Ht); try done.
      exists w1. unfold logged, entries, cur_n, cur_block in *. rewrite Hl.
      repeat split; (done || (intros; lia)).
    - destruct (log_write_miss b w) as (w1 & Hw & Hl & Hd & Ht); try done.
      exists w1. split; [done|]. split; [done|].
      assert (Hlog1 : logged w1 b.2).
      { apply (logged_after_miss b w w1); (done || lia). }
      unfold cur_n, cur_block in *. rewrite Hl. simpl.
      split; [done|]. split; [done|].
      split; [by rewrite length_insert|].
      split; [apply Forall_insert; [done|apply to_int_is_int]|].
      split; [done|]. split; [done|]. done. }
  destruct Hfirst as (w1 & Hw1 & Hd1 & Hsz1 & Hout1 & Hlen1 & Hints1 & Hlog1 & Hhit & Hmiss).
  repeat apply conj.
  - intros Hlog.
    destruct (log_write_hit b w) as (w' & Hw & Hl & Hc & Hd & Ht); try done.
    by exists w'.
  - intros Hnlog.
    destruct (log_write_miss b w) as (w' & Hw & Hl & Hd & Ht); try done.
    exists w'. split; [done|]. unfold cur_n, cur_block. rewrite Hl. done.
  - intros Hroom. destruct N as [|k]; [lia|].
    assert (Hk : ∃ wN, log_write_times k b w1 = Done wN ∧ logger wN = logger w1 ∧
                       disk wN = disk w1 ∧
                       ∃ tr, trace wN = trace w1 ++ tr ∧ ∀ b', EvBpin b' ∉ tr).
    { destruct (decide (k = 0%nat)) as [->|Hk].
      { exists w1. repeat split. exists []. rewrite app_nil_r. split; [done|].
        intros b'. apply not_elem_of_nil. }
      apply log_write_times_hit; try done.
      - by rewrite Hsz1.
      - destruct (decide (b.2 ∈ to_uint <$> entries w)) as [Hlog|Hnlog].
        + specialize (Hhit Hlog). unfold log_write_fatal, cur_n in *.
          rewrite Hsz1, Hout1. lia.
        + specialize (Hmiss Hnlog). unfold log_write_fatal, cur_n in *.
          rewrite Hsz1, Hout1.
          destruct Hroom as [?|[?|?]]; [lia|done|lia].
      - destruct (decide (b.2 ∈ to_uint <$> entries w)) as [Hlog|Hnlog].
        + rewrite (Hhit Hlog). lia.
        + rewrite (Hmiss Hnlog). lia. }
    destruct Hk as (wN & Hk & HlN & HdN & tr & HtN & Hpin).
    exists w1, wN. split; [done|]. split; [simpl; by rewrite Hw1|].
    split; [done|].
    split; [unfold logged, entries, cur_n, cur_block in *; by rewrite HlN|].
    split; [intros H; unfold cur_n in *; rewrite HlN; by apply Hhit|].
    split; [intros H; unfold cur_n in *; rewrite HlN; by apply Hmiss|].
    split; [congruence|]. by exists tr.
  - intros Hnlog Hlast. specialize (Hmiss Hnlog).
    assert (Hp : log_write b w1 = Panic "too big a transaction").
    { apply log_write_full. rewrite Hsz1, (to_int_id _ Hsz). lia. }
    exists w1. split; [done|]. split; [done|]. split; [done|]. split; [done|].
    intros H2. destruct N as [|[|k]]; [lia|lia|].
    simpl. rewrite Hw1. simpl. by rewrite Hp.
  - intros wf. apply log_write_full.
  - intros wc Hpos Hg Hh Hs Hfit.
    destruct (commit_run wc) as (w' & Hc & _ & _ & Hd & _); try done.
    exists w'. split; [done|]. intros j Hj.
    rewrite Hd. by apply commit_disk_slot.
Qed.

(** ** What the operations leave of the log manager's memory *)

Lemma bind_Done_inv {A B} (m : outcome A) (f : A → outcome B) (b : B) :
  (m ≫= f) = Done b → ∃ a, m = Done a ∧ f a = Done b.
Proof. destruct m as [a| |]; simpl; [by exists a|done|done]. Qed.

Lemma for_loop_preserves (R : world → Prop) (body : Z → world → outcome world)
    (k : nat) (i : Z) (w w' : world) :
  (∀ j w0 w1, R w0 → body j w0 = Done w1 → R w1) →
  R w → for_loop k i body w = Done w' → R w'.
Proof.
  intros Hb. revert i w. induction k as [|k IH]; intros i w HR; simpl.
  - by intros [= <-].
  - intros (w1 & H1 & H2)%bind_Done_inv. eapply IH; [|exact H2]. by eapply Hb.
Qed.

Lemma install_trans_logger (r : Z) (w w' : world) :
  install_trans r w = Done w' → logger w' = logger w.
Proof.
  unfold install_trans.
  apply (for_loop_preserves (fun w0 => logger w0 = logger w)); [|done].
  intros j w0 w1 HR. unfold install_trans_body.
  intros (h & _ & [= <-])%bind_Done_inv.
  destruct (r =? 0); by obs.
Qed.

Lemma write_log_logger (w w' : world) :
  write_log w = Done w' → logger w' = logger w.
Proof.
  unfold write_log.
  apply (for_loop_preserves (fun w0 => logger w0 = logger w)); [|done].
  intros j w0 w1 HR. unfold write_log_body.
  intros (h & _ & [= <-])%bind_Done_inv. by obs.
Qed.

Lemma set_data_int_logger b i v w w' :
  set_data_int b i v w = Done w' → logger w' = logger w.
Proof. unfold set_data_int. intros (d & _ & [= <-])%bind_Done_inv. by obs. Qed.

Lemma write_head_logger (w w' : world) :
  write_head w = Done w' → logger w' = logger w.
Proof.
  unfold write_head.
  intros (w1 & H1 & (w2 & H2 & [= <-])%bind_Done_inv)%bind_Done_inv.
  apply set_data_int_logger in H1.
  apply (for_loop_preserves (fun w0 => logger w0 = logger w)) in H2.
  - by obs.
  - intros j w0 w3 HR. unfold write_head_body.
    intros (v & _ & H3)%bind_Done_inv. apply set_data_int_logger in H3. congruence.
  - rewrite H1. by obs.
Qed.

Lemma read_head_size (w w' : world) :
  read_head w = Done w' → log_size (logger w') = log_size (logger w).
Proof.
  unfold read_head.
  intros (n & _ & (w2 & H2 & [= <-])%bind_Done_inv)%bind_Done_inv.
  apply (for_loop_preserves (fun w0 => log_size (logger w0) = log_size (logger w))) in H2.
  - by obs.
  - intros j w0 w3 HR. unfold read_head_body.
    intros (v & _ & (bl & _ & [= <-])%bind_Done_inv)%bind_Done_inv. done.
  - simpl. by obs.
Qed.

Lemma recover_from_log_logger (w w' : world) :
  recover_from_log w = Done w' →
  cur_n w' = 0 ∧ log_size (logger w') = log_size (logger w).
Proof.
  unfold recover_from_log.
  intros (w1 & H1 & (w2 & H2 & H3)%bind_Done_inv)%bind_Done_inv.
  apply read_head_size in H1. apply install_trans_logger in H2.
  apply write_head_logger in H3. unfold cur_n. rewrite H3. simpl.
  split; [done|]. congruence.
Qed.

Lemma commit_logger (w w' : world) :
  commit w = Done w' →
  log_size (logger w') = log_size (logger w) ∧
  (cur_n w' = 0 ∨ (cur_n w <= 0 ∧ cur_n w' = cur_n w)).
Proof.
  unfold commit. destruct (Z.ltb_spec 0 (cur_n w)) as [Hpos|Hle].
  - intros (w1 & H1 & (w2 & H2 & (w3 & H3 & H4)%bind_Done_inv)%bind_Done_inv)%bind_Done_inv.
    apply write_log_logger in H1. apply write_head_logger in H2.
    apply install_trans_logger in H3. apply write_head_logger in H4.
    unfold cur_n. rewrite H4. simpl. split; [congruence|by left].
  - intros [= <-]. split; [done|]. right. done.
Qed.

Lemma end_op_logger (w w' : world) :
  end_op w = Done w' →
  log_size (logger w') = log_size (logger w) ∧
  (cur_n w' = 0 ∨ cur_n w' = cur_n w).
Proof.
  unfold end_op. simpl.
  destruct (log_committing (logger w) =? 0); [|done]. simpl.
  destruct (to_int (log_outstanding (logger w) - 1) =? 0); simpl.
  - intros (w2 & H2 & [= <-])%bind_Done_inv.
    apply commit_logger in H2 as [Hs Hn]. simpl in *. unfold cur_n in *. simpl in *.
    split; [done|]. destruct Hn as [Hn|[_ Hn]]; [by left|by right].
  - intros [= <-]. split; [done|by right].
Qed.

Lemma log_write_logger (b : blockid) (w w' : world) :
  log_write b w = Done w' →
  log_size (logger w') = log_size (logger w) ∧
  cur_n w < LOGSIZE ∧ cur_n w < to_int (log_size (logger w) - 1) ∧
  (cur_n w' = cur_n w ∨ cur_n w' = to_int (cur_n w + 1)).
Proof.
  unfold log_write. rewrite emit_cur_n, emit_logger, emit_cur_block.
  destruct (Z.leb_spec LOGSIZE (cur_n w)); [done|].
  destruct (Z.leb_spec (to_int (log_size (logger w) - 1)) (cur_n w)); [done|]. simpl.
  destruct (log_outstanding (logger w) <? 1); [done|].
  intros (i & _ & (bl & _ & [= <-])%bind_Done_inv)%bind_Done_inv.
  rewrite cur_n_set_block. fold (cur_n w).
  destruct (i =? cur_n w); simpl; (split; [done|]); (split; [done|]); (split; [done|]).
  - right. done.
  - left. done.
Qed.

Lemma begin_op_pass_logger (w : world) :
  log_size (logger (admission_world (begin_op_pass w))) = log_size (logger w) ∧
  cur_n (admission_world (begin_op_pass w)) = cur_n w.
Proof.
  unfold begin_op_pass. destruct (negb _); [done|]. by destruct (_ <? _).
Qed.

(** ** The capacity invariant *)

Lemma count_bound (ok : superblock → Prop) (w : world) :
  0 < LOGSIZE → LOGSIZE <= int_max → reachable ok w → 0 <= cur_n w <= LOGSIZE.
Proof.
  intros HL0 HL Hr.
  induction Hr as [d dev sb w Hok Hi|w _ IH|w _ IH|w b w' _ IH Hlw
                   |w b d w' _ IH Hu|w w' _ IH He|w w' _ IH Hc|w w' _ IH Hrc].
  - unfold initlog in Hi. destruct (BSIZE <=? sizeof_logheader); [done|].
    apply recover_from_log_logger in Hi as [Hn Hs]. lia.
  - unfold begin_op. simpl.
    destruct (begin_op_pass_logger (emit EvAcquire w)) as [Hs Hn].
    destruct (begin_op_pass (emit EvAcquire w)); simpl in *; by rewrite Hn.
  - destruct (begin_op_pass_logger w) as [Hs Hn]. by rewrite Hn.
  - apply log_write_logger in Hlw as (Hs & Hlt & Hlt' & Hn).
    rewrite to_int_id in Hn by (unfold is_int, int_min; lia). lia.
  - unfold logged_update in Hu.
    apply bind_Done_inv in Hu as (w1 & Hlw & [= <-]).
    apply log_write_logger in Hlw as (Hs & Hlt & Hlt' & Hn).
    rewrite set_data_cur_n, bread_cur_n in *. rewrite brelse_cur_n.
    rewrite to_int_id in Hn by (unfold is_int, int_min; lia). lia.
  - apply end_op_logger in He as [Hs Hn]. lia.
  - apply commit_logger in Hc as [Hs Hn]. lia.
  - apply recover_from_log_logger in Hrc as [Hn Hs]. lia.
Qed.

Lemma capacity_reachable (w : world) :
  0 < LOGSIZE → LOGSIZE <= int_max →
  reachable (fun sb => 1 <= to_int (sb_nlog sb)) w →
  capacity_inv w.
Proof.
  intros HL0 HL Hr.
  assert (capacity_inv w ∧ log_size (logger w) <= int_max) as [H _]; [|done].
  induction Hr as [d dev sb w Hok Hi|w _ IH|w _ IH|w b w' _ IH Hlw
                   |w b d w' _ IH Hu|w w' _ IH He|w w' _ IH Hc|w w' _ IH Hrc].
  - unfold initlog in Hi. destruct (BSIZE <=? sizeof_logheader); [done|].
    apply recover_from_log_logger in Hi as [Hn Hs]. simpl in Hs.
    unfold capacity_inv. rewrite Hn, Hs.
    pose proof (to_int_is_int (sb_nlog sb)) as [_ ?]. lia.
  - unfold begin_op. simpl.
    destruct (begin_op_pass_logger (emit EvAcquire w)) as [Hs Hn].
    destruct (begin_op_pass (emit EvAcquire w)); simpl in *;
      unfold capacity_inv in *; by rewrite Hs, Hn.
  - destruct (begin_op_pass_logger w) as [Hs Hn].
    unfold capacity_inv in *. by rewrite Hs, Hn.
  - apply log_write_logger in Hlw as (Hs & Hlt & Hlt' & Hn).
    destruct IH as [[Hn0 Hsz] Hmax]. unfold capacity_inv. rewrite Hs.
    rewrite to_int_id in Hlt' by (unfold is_int, int_min; lia).
    rewrite to_int_id in Hn by (unfold is_int, int_min; lia).
    lia.
  - unfold logged_update in Hu.
    apply bind_Done_inv in Hu as (w1 & Hlw & [= <-]).
    apply log_write_logger in Hlw as (Hs & Hlt & Hlt' & Hn).
    rewrite set_data_cur_n, bread_cur_n, set_data_logger, bread_logger in *.
    destruct IH as [[Hn0 Hsz] Hmax]. unfold capacity_inv.
    rewrite brelse_cur_n, brelse_logger, Hs.
    rewrite to_int_id in Hlt' by (unfold is_int, int_min; lia).
    rewrite to_int_id in Hn by (unfold is_int, int_min; lia).
    lia.
  - apply end_op_logger in He as [Hs Hn].
    destruct IH as [[Hn0 Hsz] Hmax]. unfold capacity_inv. rewrite Hs. lia.
  - apply commit_logger in Hc as [Hs Hn].
    destruct IH as [[Hn0 Hsz] Hmax]. unfold capacity_inv. rewrite Hs. lia.
  - apply recover_from_log_logger in Hrc as [Hn Hs].
    destruct IH as [[Hn0 Hsz] Hmax]. unfold capacity_inv. rewrite Hs, Hn. lia.
Qed.

(** C4 (amended).  Every reachable state satisfies [0 <= n <= LOGSIZE],
    whatever the superblock.  When every superblock given to [initlog] has
    a log region of at least one block ([nlog], read as an int, is at least
    1), every reachable state also satisfies [n <= size - 1].  ([LOGSIZE]
    is a positive int.) *)
Theorem capacity_invariant (w : world) :
  0 < LOGSIZE → LOGSIZE <= int_max →
  (reachable (fun _ => True) w → 0 <= cur_n w <= LOGSIZE) ∧
  (reachable (fun sb => 1 <= to_int (sb_nlog sb)) w → capacity_inv w).
Proof.
  intros HL0 HL. split.
  - by apply count_bound.
  - by apply capacity_reachable.
Qed.

(** ** Crashes *)

Lemma last_write_take_None (ws : list (blockid * block)) (m : nat) (b : blockid) :
  b ∉ ws.*1 → last_write (take m ws) b = None.
Proof.
  intros Hb. apply last_write_None. rewrite fmap_take.
  intros Hin. apply Hb. by apply (subseteq_take m).
Qed.

Lemma not_in_fmap_keys (key : Z → blockid) (val : Z → block) (js : list Z) (b : blockid) :
  (∀ j, j ∈ js → key j ≠ b) → b ∉ ((fun j => (key j, val j)) <$> js).*1.
Proof.
  intros Hne. rewrite <- list_fmap_compose. intros (j & Hk & Hj)%list_elem_of_fmap.
  by apply (Hne j Hj).
Qed.

Lemma replay_sized (N : nat) (ws : list (blockid * block)) (d : gmap blockid block) :
  map_Forall (fun _ blk => length blk = N) d →
  Forall (fun p => length p.2 = N) ws →
  map_Forall (fun _ blk => length blk = N) (replay ws d).
Proof.
  intros Hd Hws. revert d Hd. induction Hws as [|p ws Hp _ IH]; intros d Hd; [done|].
  simpl. apply IH. by apply map_Forall_insert_2.
Qed.

Lemma length_write_log_writes (w : world) :
  length (write_log_writes w) = Z.to_nat (cur_n w).
Proof. unfold write_log_writes. by rewrite length_fmap, length_seqZ. Qed.

Lemma length_install_writes (w : world) :
  length (install_writes w) = Z.to_nat (cur_n w).
Proof. unfold install_writes. by rewrite length_fmap, length_seqZ. Qed.

Lemma commit_writes_sized (w : world) :
  0 < LOGSIZE → sizeof_logheader < BSIZE → header_ok (logger w) → sized w →
  Forall (fun p => length p.2 = block_ints) (writes_of (commit_events w)).
Proof.
  intros HL Hfit (Hn & Hlen & _) Hs. fold (cur_n w) in Hn. fold (cur_block w) in Hlen.
  pose proof (header_fits_ints HL Hfit) as Hints.
  assert (Hch : length (committed_header w) = block_ints).
  { unfold committed_header. rewrite length_header_image; rewrite ?sized_bview by done; lia. }
  rewrite writes_of_commit_events. repeat apply Forall_app_2.
  - unfold write_log_writes. apply Forall_fmap, Forall_forall. intros j _. simpl.
    by apply sized_bview.
  - constructor; [done|constructor].
  - unfold install_writes. apply Forall_fmap, Forall_forall. intros j _. simpl.
    by apply sized_bview.
  - constructor; [|constructor].
    change (length (erased_header w) = block_ints). unfold erased_header.
    rewrite length_header_image; rewrite ?Hch; simpl; lia.
Qed.

(** Installing on the bare disk, when no home block lies among the log
    blocks read: every home block ends with the contents [C] that its log
    block held, every other block is left alone. *)
Lemma install_on_disk_spec (l : log) (C : blockid → block) (hs : list Z) (i : Z)
    (d : gmap blockid block) :
  (∀ t h, hs !! t = Some h → dread d (slot_id l (i + Z.of_nat t)) = C (home_id l h)) →
  (∀ t h, (t < length hs)%nat → h ∈ hs → home_id l h ≠ slot_id l (i + Z.of_nat t)) →
  ∀ b, dread (install_on_disk l i hs d) b
       = if decide (b ∈ home_id l <$> hs) then C b else dread d b.
Proof.
  revert i d. induction hs as [|h0 hs IH]; intros i d Hslots Hne b.
  - done.
  - simpl. rewrite IH.
    + rewrite dread_insert.
      assert (H0 : dread d (slot_id l i) = C (home_id l h0)).
      { rewrite <- (Hslots 0%nat h0) by done. by rewrite Z.add_0_r. }
      rewrite H0. change (list_fmap Z blockid (home_id l) hs) with (home_id l <$> hs).
      destruct (decide (b ∈ home_id l <$> hs)) as [Hin|Hnin].
      * rewrite decide_True; [done|]. by right.
      * destruct (decide (b = home_id l h0)) as [->|Hb].
        -- rewrite decide_True; [done|]. by left.
        -- rewrite decide_False; [done|].
           intros [?|?]%elem_of_cons; done.
    + intros t h Ht. rewrite dread_insert, decide_False.
      * replace (i + 1 + Z.of_nat t) with (i + Z.of_nat (S t)) by lia.
        by apply (Hslots (S t)).
      * replace (i + 1 + Z.of_nat t) with (i + Z.of_nat (S t)) by lia.
        apply lookup_lt_Some in Ht.
        apply not_eq_sym, Hne; [simpl; lia|by left].
    + intros t h Ht Hh.
      replace (i + 1 + Z.of_nat t) with (i + Z.of_nat (S t)) by lia.
      apply Hne; [simpl; lia|by right].
Qed.

Lemma disk_count_committed (w : world) : disk_count (committed_header w) = cur_n w.
Proof. done. Qed.

Lemma disk_entries_committed (w : world) :
  (Z.to_nat (cur_n w) ≤ length (cur_block w))%nat →
  disk_entries (committed_header w) = entries w.
Proof.
  intros Hn. unfold disk_entries. rewrite disk_count_committed.
  unfold committed_header, header_image, entries. simpl. rewrite drop_0.
  rewrite take_app_le by (rewrite length_take; lia).
  apply take_idemp.
Qed.

Lemma entries_lookup (w : world) (t : nat) (h : Z) :
  entries w !! t = Some h → 0 <= Z.of_nat t < cur_n w ∧ entry w (Z.of_nat t) = h.
Proof.
  unfold entries, entry. intros Ht.
  pose proof (lookup_lt_Some _ _ _ Ht) as Hlt. rewrite length_take in Hlt.
  rewrite lookup_take_lt in Ht by lia. rewrite Nat2Z.id, Ht. split; [lia|done].
Qed.

Lemma home_in_entries (w : world) (j : Z) :
  0 <= j < cur_n w → (Z.to_nat (cur_n w) ≤ length (cur_block w))%nat →
  home w j ∈ home_id (logger w) <$> entries w.
Proof.
  intros Hj Hn. unfold home. apply list_elem_of_fmap. exists (entry w j). split; [done|].
  unfold entry, entries.
  destruct (lookup_lt_is_Some_2 (cur_block w) (Z.to_nat j)) as [h Hh]; [lia|].
  rewrite Hh. simpl. apply list_elem_of_lookup. exists (Z.to_nat j).
  rewrite lookup_take_lt by lia. done.
Qed.

Lemma last_write_cons p ws b :
  last_write (p :: ws) b =
  match last_write ws b with
  | Some d => Some d
  | None => if decide (b = p.1) then Some p.2 else None
  end.
Proof. done. Qed.

(** Recovery at the next boot, from a disk that holds the committed header
    and the log blocks, or the erased header and the installed blocks. *)
Lemma recover_committed (w : world) (dk : gmap blockid block) (nlog : Z) :
  geometry_ok (logger w) → header_ok (logger w) → sizeof_logheader < BSIZE →
  map_Forall (fun _ blk => length blk = block_ints) dk →
  (dread dk (head w) = committed_header w ∧
   ∀ j, 0 <= j < cur_n w → dread dk (slot w j) = bview w (home w j)) ∨
  (disk_count (dread dk (head w)) = 0 ∧
   ∀ j, 0 <= j < cur_n w → dread dk (home w j) = bview w (home w j)) →
  ∃ wr, initlog (log_dev (logger w)) (mkSuperblock (log_start (logger w)) nlog) (boot dk)
        = Done wr ∧
        ∀ j, 0 <= j < cur_n w → dread (disk wr) (home w j) = bview w (home w j).
Proof.
  intros Hg Hh Hfit Hdk Hcases.
  pose proof Hg as (HL & Hs0 & Hs1).
  pose proof Hh as (Hn & Hlen & _). fold (cur_n w) in Hn. fold (cur_block w) in Hlen.
  unfold initlog. destruct (Z.leb_spec BSIZE sizeof_logheader); [lia|].
  simpl. rewrite (to_int_id (log_start (logger w))) by (unfold is_int, int_min; lia).
  set (l := mkLog _ _ _ _ _ _).
  set (wb := set_logger l (boot dk)).
  assert (Hhead : head wb = head w) by done.
  assert (Hview : ∀ b, bview wb b = dread dk b) by apply boot_clean.
  destruct (recover_run wb) as (wr & Hr & _ & _ & _ & Hd & _).
  { apply boot_clean. }
  { apply clean_uniform. by apply boot_sized. }
  { done. }
  { done. }
  { unfold cur_block. simpl. apply length_replicate. }
  { rewrite Hhead, Hview. destruct Hcases as [[-> _]|[-> _]]; [|lia].
    rewrite disk_count_committed. lia. }
  exists wr. split; [done|]. intros j Hj.
  simpl in Hd. rewrite Hhead, Hview in Hd. rewrite Hd.
  rewrite dread_insert, decide_False by (apply home_ne_head; done).
  change (disk wb) with dk.
  rewrite (install_on_disk_ext l (logger w)) by done.
  destruct Hcases as [[Hhd Hslots]|[Hcnt Hhomes]].
  - rewrite Hhd, disk_entries_committed by lia.
    rewrite (install_on_disk_spec (logger w) (bview w)).
    + rewrite decide_True; [done|]. apply home_in_entries; lia.
    + intros t h Ht. apply entries_lookup in Ht as [Ht <-].
      rewrite Z.add_0_l. by apply Hslots.
    + intros t h Ht Hin. rewrite Z.add_0_l.
      apply list_elem_of_lookup in Hin as [t' Ht'].
      apply entries_lookup in Ht' as [Ht' <-].
      unfold entries in Ht. rewrite length_take in Ht.
      apply (home_ne_slot w); (done || lia).
  - unfold disk_entries. rewrite Hcnt. simpl. by apply Hhomes.
Qed.

(** C1.  Crash atomicity.  Nothing an operation records reaches the disk
    before the commit.  Let [commit] run on a transaction of [n > 0]
    entries whose home blocks lie outside the log region, and let the
    machine crash when [k] of the block writes of the commit are on disk.
    If [k <= n] (the write of the header, which is write number [n + 1], is
    not complete), every block that is not a log block, so every home
    block, is on disk as it was before the commit.  If [k > n], the
    recovery of the next boot returns and leaves every home block of the
    transaction on disk with the contents it had in the cache at the time
    of the commit. *)
Theorem crash_atomicity (w : world) :
  0 < cur_n w → geometry_ok (logger w) → header_ok (logger w) → sized w →
  sizeof_logheader < BSIZE →
  (∀ b d w0 w1, logged_update b d w0 = Done w1 → disk w1 = disk w0) ∧
  ∃ w', commit w = Done w' ∧ trace w' = trace w ++ commit_events w ∧
    disk w' = crash_disk (disk w) (commit_events w) (length (writes_of (commit_events w))) ∧
    (∀ k, (k ≤ Z.to_nat (cur_n w))%nat →
       (∀ j, 0 <= j < cur_n w →
             dread (crash_disk (disk w) (commit_events w) k) (home w j)
             = dread (disk w) (home w j)) ∧
       (∀ b, (∀ j, 0 <= j < cur_n w → b ≠ slot w j) →
             dread (crash_disk (disk w) (commit_events w) k) b = dread (disk w) b)) ∧
    (∀ k nlog, (Z.to_nat (cur_n w) < k)%nat →
       ∃ wr, initlog (log_dev (logger w)) (mkSuperblock (log_start (logger w)) nlog)
                     (boot (crash_disk (disk w) (commit_events w) k)) = Done wr ∧
             ∀ j, 0 <= j < cur_n w → dread (disk wr) (home w j) = bview w (home w j)).
Proof.
  intros Hpos Hg Hh Hs Hfit.
  pose proof Hg as (HL & _).
  pose proof Hh as (Hn & Hlen & _). fold (cur_n w) in Hn. fold (cur_block w) in Hlen.
  pose proof (header_fits_ints HL Hfit) as Hints.
  split.
  { intros b d w0 w1. unfold logged_update.
    intros (w2 & Hlw & [= <-])%bind_Done_inv.
    assert (Hsame : ∀ b0 wa wb, log_write b0 wa = Done wb → disk wb = disk wa).
    { intros b0 wa wb. unfold log_write.
      destruct (_ || _); [done|]. destruct (_ <? _); [done|].
      intros (i & _ & (bl & _ & [= <-])%bind_Done_inv)%bind_Done_inv.
      by destruct (i =? _). }
    rewrite brelse_disk, (Hsame _ _ _ Hlw). by obs. }
  destruct (commit_run w) as (w' & Hc & _ & Ht & Hd & _); try done.
  exists w'. split; [done|]. split; [done|].
  split; [unfold crash_disk; by rewrite firstn_all|].
  assert (Hslot_keys : ∀ b, (∀ j, 0 <= j < cur_n w → b ≠ slot w j) →
                            b ∉ (write_log_writes w).*1).
  { intros b Hb. apply not_in_fmap_keys. intros j Hj%elem_of_seqZ.
    apply not_eq_sym, Hb. lia. }
  assert (Hhome_keys : ∀ b, (∀ j, 0 <= j < cur_n w → b ≠ home w j) →
                            b ∉ (install_writes w).*1).
  { intros b Hb. apply not_in_fmap_keys. intros j Hj%elem_of_seqZ.
    apply not_eq_sym, Hb. lia. }
  assert (Hslot_val : ∀ j, 0 <= j < cur_n w →
            last_write (write_log_writes w) (slot w j) = Some (bview w (home w j))).
  { intros j Hj. unfold write_log_writes.
    rewrite (last_write_fmap (slot w) (fun j => bview w (home w j))); [done| |].
    - apply elem_of_seqZ. lia.
    - intros j' Hj'%elem_of_seqZ Heq. apply slot_inj in Heq; [by subst|done|lia|lia]. }
  split.
  - intros k Hk.
    assert (Hout : ∀ b, (∀ j, 0 <= j < cur_n w → b ≠ slot w j) →
              dread (crash_disk (disk w) (commit_events w) k) b = dread (disk w) b).
    { intros b Hb. unfold crash_disk.
      rewrite writes_of_commit_events, take_app_le
        by (rewrite length_write_log_writes; lia).
      apply replay_last_write_None, last_write_take_None, Hslot_keys, Hb. }
    split; [|exact Hout].
    intros j Hj. apply Hout. intros j' Hj'. by apply home_ne_slot.
  - intros k nlog Hk.
    apply recover_committed; try done.
    { apply replay_sized; [by destruct Hs|].
      apply Forall_take. apply commit_writes_sized; done. }
    unfold crash_disk. rewrite writes_of_commit_events.
    rewrite take_app_ge by (rewrite length_write_log_writes; lia).
    rewrite length_write_log_writes.
    destruct (k - Z.to_nat (cur_n w))%nat as [|m] eqn:Em; [lia|]. simpl.
    destruct (decide (m ≤ Z.to_nat (cur_n w))%nat) as [Hm|Hm].
    + left. rewrite take_app_le by (rewrite length_install_writes; lia).
      split.
      * rewrite dread_replay, last_write_app, last_write_cons.
        rewrite last_write_take_None.
        -- simpl. by rewrite decide_True.
        -- apply Hhome_keys. intros j Hj. apply not_eq_sym, home_ne_head; done.
      * intros j Hj. rewrite dread_replay, last_write_app, last_write_cons.
        rewrite last_write_take_None.
        -- simpl. rewrite decide_False by (apply slot_ne_head; (done || lia)).
           by rewrite Hslot_val.
        -- apply Hhome_keys. intros j' Hj'. apply not_eq_sym, home_ne_slot; done.
    + right. rewrite take_ge by (rewrite length_app, length_install_writes; simpl; lia).
      split.
      * by rewrite dread_replay, last_write_app, last_write_cons, last_write_snoc.
      * intros j Hj. rewrite dread_replay, last_write_app, last_write_cons, last_write_app.
        simpl. rewrite decide_False by (apply home_ne_head; done).
        unfold install_writes.
        rewrite (last_write_fmap (home w) (fun j => bview w (home w j))); [done| |].
        -- apply elem_of_seqZ. lia.
        -- intros j' _ Heq. by rewrite Heq.
Qed.
(** ** A header that the array cannot hold *)

Lemma arr_get_not_Panic (l : list Z) (i : Z) (msg : string) : arr_get l i ≠ Panic msg.
Proof. intros E. pose proof (arr_get_no_panic l i) as H. rewrite E in H. by apply H. Qed.

Lemma arr_set_not_Panic (l : list Z) (i v : Z) (msg : string) : arr_set l i v ≠ Panic msg.
Proof. intros E. pose proof (arr_set_no_panic l i v) as H. rewrite E in H. by apply H. Qed.

Lemma read_head_body_length (buf : blockid) (j : Z) (w w' : world) :
  read_head_body buf j w = Done w' →
  length (cur_block w') = length (cur_block w) ∧ ∀ b, bview w' b = bview w b.
Proof.
  unfold read_head_body.
  intros (v & _ & (bl & Hset & [= <-])%bind_Done_inv)%bind_Done_inv.
  split; [|by obs].
  unfold arr_set in Hset. destruct (_ && _); [|done].
  injection Hset as <-. unfold cur_block. simpl. by rewrite length_insert.
Qed.

Lemma read_head_body_outside (buf : blockid) (w : world) :
  read_head_body buf (Z.of_nat (length (cur_block w))) w = Undefined.
Proof.
  unfold read_head_body. destruct (arr_get _ _) as [v| |] eqn:E; simpl.
  - unfold arr_set. destruct (Z.ltb_spec (Z.of_nat (length (cur_block w)))
                                          (Z.of_nat (length (cur_block w)))); [lia|].
    by rewrite andb_false_r.
  - by apply arr_get_not_Panic in E.
  - done.
Qed.

Lemma read_head_loop_overrun (buf : blockid) (k : nat) (i : Z) (w : world) :
  0 <= i <= Z.of_nat (length (cur_block w)) →
  Z.of_nat (length (cur_block w)) < i + Z.of_nat k →
  for_loop k i (read_head_body buf) w = Undefined.
Proof.
  revert i w. induction k as [|k IH]; intros i w Hi Hk; [lia|].
  simpl. destruct (decide (i = Z.of_nat (length (cur_block w)))) as [->|Hne].
  - by rewrite read_head_body_outside.
  - destruct (read_head_body buf i w) as [w1|msg|] eqn:E; simpl; [| |done].
    + apply read_head_body_length in E as [Hlen _].
      apply IH; rewrite Hlen; lia.
    + exfalso. revert E. unfold read_head_body.
      destruct (arr_get _ _) as [v|m|] eqn:Eg; simpl;
        [|by apply arr_get_not_Panic in Eg|done].
      destruct (arr_set _ _ _) as [bl|m|] eqn:Es; simpl;
        [done|by apply arr_set_not_Panic in Es|done].
Qed.

Lemma overrun_read_head (w : world) :
  0 <= LOGSIZE → length (cur_block w) = Z.to_nat LOGSIZE →
  LOGSIZE < disk_count (bview w (head w)) →
  read_head w = Undefined.
Proof.
  intros HL Hlen Hcount. unfold read_head. fold (head w). obs.
  unfold disk_count in Hcount.
  destruct (bview w (head w) !! 0%nat) as [n|] eqn:E; simpl in Hcount; [|lia].
  rewrite arr_get_Done by (apply lookup_lt_Some in E; lia).
  change (Z.to_nat 0) with 0%nat. rewrite E. simpl.
  rewrite read_head_loop_overrun; [done| |].
  - unfold cur_block. simpl. lia.
  - unfold cur_block, cur_n. simpl. fold (cur_block w). lia.
Qed.

(** X1.  [read_head] trusts the count it finds on disk.  When the count in
    the header block is larger than [LOGSIZE], the loop of [read_head]
    stores past the end of [logger.lh.block]: the behaviour of [read_head],
    and with it that of [recover_from_log] and of [initlog], is
    undefined. *)
Theorem read_head_overrun :
  0 <= LOGSIZE →
  (∀ w, length (cur_block w) = Z.to_nat LOGSIZE →
        LOGSIZE < disk_count (bview w (head w)) →
        read_head w = Undefined ∧ recover_from_log w = Undefined) ∧
  (∀ dev sb d, sizeof_logheader < BSIZE →
        LOGSIZE < disk_count (dread d (to_uint dev, to_uint (to_int (sb_logstart sb)))) →
        initlog dev sb (boot d) = Undefined).
Proof.
  intros HL. split.
  - intros w Hlen Hcount.
    assert (H : read_head w = Undefined) by by apply overrun_read_head.
    split; [done|]. unfold recover_from_log. by rewrite H.
  - intros dev sb d Hfit Hcount. unfold initlog.
    destruct (Z.leb_spec BSIZE sizeof_logheader); [lia|].
    unfold recover_from_log. rewrite overrun_read_head; [done|done| |].
    + unfold cur_block. simpl. apply length_replicate.
    + by rewrite boot_clean.
Qed.
(** ** Block sizes are kept *)

Lemma sized_dread (d : gmap blockid block) (b : blockid) :
  map_Forall (fun _ blk => length blk = block_ints) d → length (dread d b) = block_ints.
Proof.
  intros Hd. unfold dread. destruct (d !! b) as [blk|] eqn:E; simpl.
  - by apply (Hd b blk).
  - apply length_replicate.
Qed.

Lemma bread_sized (b : blockid) (w : world) : sized w → sized (bread b w).
Proof.
  intros [Hd Hc]. split; [by rewrite bread_disk|].
  unfold bread. destruct (bcache w !! b) as [bf|] eqn:E; simpl.
  - apply map_Forall_insert_2; [|done]. simpl. by apply (Hc b bf).
  - apply map_Forall_insert_2; [|done]. simpl. by apply sized_dread.
Qed.

Lemma set_data_sized (b : blockid) (d : block) (w : world) :
  length d = block_ints → sized w → sized (set_data b d w).
Proof.
  intros Hlen [Hd Hc]. split; [by rewrite set_data_disk|].
  unfold set_data. destruct (bcache w !! b) as [bf|] eqn:E; simpl;
    by apply map_Forall_insert_2.
Qed.

Lemma bwrite_sized (b : blockid) (w : world) : sized w → sized (bwrite b w).
Proof.
  intros Hs. pose proof Hs as [Hd Hc]. split; [|done].
  rewrite bwrite_disk. apply map_Forall_insert_2; [|done]. by apply sized_bview.
Qed.

Lemma add_refcnt_sized (b : blockid) (k : Z) (w : world) :
  sized w → sized (add_refcnt b k w).
Proof.
  intros [Hd Hc]. split; [done|]. simpl.
  intros b' bf'. rewrite lookup_alter_Some.
  intros [(_ & bf & Hbf & ->)|(_ & Hbf)]; [simpl|]; by eapply Hc.
Qed.

Lemma brelse_sized (b : blockid) (w : world) : sized w → sized (brelse b w).
Proof. apply add_refcnt_sized. Qed.

Lemma bpin_sized (b : blockid) (w : world) : sized w → sized (bpin b w).
Proof. intros Hs. by apply (add_refcnt_sized b 1) in Hs. Qed.

Lemma bunpin_sized (b : blockid) (w : world) : sized w → sized (bunpin b w).
Proof. intros Hs. by apply (add_refcnt_sized b (-1)) in Hs. Qed.

Lemma set_logger_sized (l : log) (w : world) : sized w → sized (set_logger l w).
Proof. done. Qed.

Lemma emit_sized (e : event) (w : world) : sized w → sized (emit e w).
Proof. done. Qed.

Lemma set_data_int_sized (b : blockid) (i v : Z) (w w' : world) :
  sized w → set_data_int b i v w = Done w' → sized w'.
Proof.
  intros Hs. unfold set_data_int, arr_set.
  destruct (_ && _); [|done]. simpl. intros [= <-].
  apply set_data_sized; [|done]. rewrite length_insert. by apply sized_bview.
Qed.

Lemma install_trans_sized (r : Z) (w w' : world) :
  sized w → install_trans r w = Done w' → sized w'.
Proof.
  intros Hs. unfold install_trans. apply for_loop_preserves; [|done].
  intros j w0 w1 H0. unfold install_trans_body.
  intros (h & _ & [= <-])%bind_Done_inv.
  do 2 apply brelse_sized.
  assert (H1 : ∀ dbuf lbuf w2,
            sized w2 → sized (bwrite dbuf (set_data dbuf (bview w2 lbuf) w2))).
  { intros dbuf lbuf w2 H2. apply bwrite_sized, set_data_sized; [by apply sized_bview|done]. }
  destruct (r =? 0); [apply bunpin_sized|]; apply H1; by do 2 apply bread_sized.
Qed.

Lemma write_log_sized (w w' : world) : sized w → write_log w = Done w' → sized w'.
Proof.
  intros Hs. unfold write_log. apply for_loop_preserves; [|done].
  intros j w0 w1 H0. unfold write_log_body.
  intros (h & _ & [= <-])%bind_Done_inv.
  do 2 apply brelse_sized.
  apply bwrite_sized, set_data_sized; [|by do 2 apply bread_sized].
  apply sized_bview. by do 2 apply bread_sized.
Qed.

Lemma write_head_sized (w w' : world) : sized w → write_head w = Done w' → sized w'.
Proof.
  intros Hs. unfold write_head.
  intros (w1 & H1 & (w2 & H2 & [= <-])%bind_Done_inv)%bind_Done_inv.
  apply brelse_sized, bwrite_sized.
  apply set_data_int_sized in H1; [|by apply bread_sized].
  revert H2. apply for_loop_preserves; [|done].
  intros j w0 w3 H0. unfold write_head_body.
  intros (v & _ & H3)%bind_Done_inv. by apply set_data_int_sized in H3.
Qed.

Lemma read_head_sized (w w' : world) : sized w → read_head w = Done w' → sized w'.
Proof.
  intros Hs. unfold read_head.
  intros (n & _ & (w2 & H2 & [= <-])%bind_Done_inv)%bind_Done_inv.
  apply brelse_sized. revert H2. apply for_loop_preserves.
  - intros j w0 w3 H0. unfold read_head_body.
    intros (v & _ & (bl & _ & [= <-])%bind_Done_inv)%bind_Done_inv. done.
  - by apply set_logger_sized, bread_sized.
Qed.

Lemma recover_from_log_sized (w w' : world) :
  sized w → recover_from_log w = Done w' → sized w'.
Proof.
  intros Hs. unfold recover_from_log.
  intros (w1 & H1 & (w2 & H2 & H3)%bind_Done_inv)%bind_Done_inv.
  apply read_head_sized in H1; [|done].
  apply install_trans_sized in H2; [|done].
  by apply write_head_sized in H3.
Qed.

Lemma commit_sized (w w' : world) : sized w → commit w = Done w' → sized w'.
Proof.
  intros Hs. unfold commit. destruct (0 <? cur_n w); [|by intros [= <-]].
  intros (w1 & H1 & (w2 & H2 & (w3 & H3 & H4)%bind_Done_inv)%bind_Done_inv)%bind_Done_inv.
  apply write_log_sized in H1; [|done].
  apply write_head_sized in H2; [|done].
  apply install_trans_sized in H3; [|done].
  by apply write_head_sized in H4.
Qed.

Lemma log_write_sized (b : blockid) (w w' : world) :
  sized w → log_write b w = Done w' → sized w'.
Proof.
  intros Hs. unfold log_write. destruct (_ || _); [done|]. destruct (_ <? _); [done|].
  intros (i & _ & (bl & _ & [= <-])%bind_Done_inv)%bind_Done_inv.
  destruct (i =? _); [|done].
  apply emit_sized, set_logger_sized, bpin_sized. done.
Qed.

Lemma end_op_sized (w w' : world) : sized w → end_op w = Done w' → sized w'.
Proof.
  intros Hs. unfold end_op. simpl.
  destruct (log_committing (logger w) =? 0); [|done]. simpl.
  destruct (to_int (log_outstanding (logger w) - 1) =? 0); simpl.
  - intros (w2 & H2 & [= <-])%bind_Done_inv.
    apply commit_sized in H2; done.
  - by intros [= <-].
Qed.

Lemma logged_update_sized (b : blockid) (d : block) (w w' : world) :
  length d = block_ints → sized w → logged_update b d w = Done w' → sized w'.
Proof.
  intros Hd Hs. unfold logged_update.
  intros (w1 & H1 & [= <-])%bind_Done_inv.
  apply brelse_sized. apply log_write_sized in H1; [done|].
  by apply set_data_sized, bread_sized.
Qed.
(** ** Recovery, write by write *)

Lemma length_disk_entries (hb : block) :
  (Z.to_nat (disk_count hb) < length hb)%nat →
  length (disk_entries hb) = Z.to_nat (disk_count hb).
Proof. intros H. unfold disk_entries. rewrite length_take, length_drop. lia. Qed.

Lemma disk_log_header_ok (l : log) (d : gmap blockid block) (bl : list Z) :
  let hb := dread d (head_id l) in
  disk_log_ok l d → 0 <= disk_count hb →
  (Z.to_nat (disk_count hb) < length hb)%nat →
  length bl = Z.to_nat LOGSIZE →
  header_ok (set_lh (mkLogheader (disk_count hb)
                       (disk_entries hb ++ drop (Z.to_nat (disk_count hb)) bl)) l).
Proof.
  intros hb [Hc Hout] H0 Hlen Hbl. fold hb in Hc, Hout. unfold header_ok. simpl.
  pose proof (length_disk_entries hb Hlen) as Hde.
  split; [lia|]. split.
  - rewrite length_app, length_drop, Hde. lia.
  - rewrite take_app_length' by done. exact Hout.
Qed.

Lemma recover_writes_run (w : world) :
  clean w → sized w → geometry_ok (logger w) → sizeof_logheader < BSIZE →
  length (cur_block w) = Z.to_nat LOGSIZE → disk_log_ok (logger w) (disk w) →
  ∃ w', recover_from_log w = Done w' ∧ clean w' ∧ sized w' ∧
        logger w' =
          set_lh (mkLogheader 0
                    (disk_entries (bview w (head w)) ++
                     drop (Z.to_nat (disk_count (bview w (head w)))) (cur_block w)))
                 (logger w) ∧
        trace w' = trace w ++
          ((fun p => EvBwrite p.1 p.2) <$> recovery_writes (logger w) (disk w)) ∧
        disk w' = replay (recovery_writes (logger w) (disk w)) (disk w).
Proof.
  intros Hc Hs Hg Hfit Hlen Hok.
  pose proof Hg as (HL & Hs0 & Hs1).
  pose proof (header_fits_ints HL Hfit) as Hints.
  pose proof Hok as [Hcount Hout].
  assert (Hhb : bview w (head w) = dread (disk w) (head_id (logger w))) by apply Hc.
  set (hb := dread (disk w) (head_id (logger w))) in *.
  assert (Hhlen : length hb = block_ints) by (rewrite <- Hhb; by apply sized_bview).
  assert (Hde : length (disk_entries hb) = Z.to_nat (disk_count hb)).
  { apply length_disk_entries. lia. }
  destruct (read_head_spec w) as (w1 & Hrh & Hd1 & Ht1 & Hv1 & Hl1).
  { rewrite Hhb. lia. }
  { rewrite Hhb. lia. }
  rewrite Hhb in Hl1.
  set (n := Z.to_nat (disk_count hb)) in *.
  assert (Hb1 : cur_block w1 = disk_entries hb ++ drop n (cur_block w)).
  { unfold cur_block. by rewrite Hl1. }
  assert (Hn1 : cur_n w1 = disk_count hb) by (unfold cur_n; by rewrite Hl1).
  assert (Hlen1 : length (cur_block w1) = Z.to_nat LOGSIZE).
  { rewrite Hb1, length_app, length_drop, Hde. lia. }
  assert (Hg1 : geometry_ok (logger w1)) by (by rewrite Hl1).
  assert (Hh1 : 0 <= disk_count hb → header_ok (logger w1)).
  { intros H0. rewrite Hl1. apply disk_log_header_ok; fold hb; (done || lia). }
  destruct (copy_loop (install_trans_body 1) (logger w1) (home w1) (slot w1)
              (fun j v => [EvBwrite (home w1 j) v]) (fun j => 0 <= j < Z.of_nat n))
    with (k := n) (i := 0) (w := w1) as (w2 & Hf & Hl2 & Hd2 & Hv2 & Ht2).
  - intros j w0 Hl0 Hj.
    destruct (install_trans_body_copies 1 j w0) as (w' & Hb & Hcp).
    { unfold cur_block. rewrite Hl0. fold (cur_block w1). lia. }
    exists w'. split; [done|].
    unfold slot, home, entry, cur_block in *. by rewrite Hl0 in Hcp.
  - done.
  - intros j Hj. lia.
  - intros j j' Hj Hj'. apply not_eq_sym, home_ne_slot; try done; try (rewrite Hn1; lia).
    apply Hh1. lia.
  - assert (Hcopies : (fun j => (home w1 j, bview w1 (slot w1 j))) <$> seqZ 0 (Z.of_nat n)
                      = recovery_copies (logger w) (disk w)).
    { unfold recovery_copies. fold hb. rewrite Hde. fold n.
      apply Forall_fmap_ext_1, Forall_forall. intros j Hj%elem_of_seqZ.
      unfold home, slot, entry. rewrite Hb1, Hl1, Hv1, Hc.
      rewrite lookup_app_l by lia. done. }
    assert (Hevs : concat ((fun j => [EvBwrite (home w1 j) (bview w1 (slot w1 j))])
                             <$> seqZ 0 (Z.of_nat n))
                   = (fun p => EvBwrite p.1 p.2) <$> recovery_copies (logger w) (disk w)).
    { rewrite <- Hcopies, concat_singletons, <- list_fmap_compose. done. }
    rewrite Hcopies in Hd2, Hv2. rewrite Hevs in Ht2.
    assert (Hhead2 : bview w2 (head w) = hb).
    { rewrite Hv2, <- Hcopies, last_write_fmap_None.
      - simpl. by rewrite Hv1.
      - intros j Hj%elem_of_seqZ.
        replace (head w) with (head w1) by (unfold head; by rewrite Hl1).
        apply home_ne_head; [done|apply Hh1; lia|rewrite Hn1; lia]. }
    set (w3 := set_logger (set_n 0 (logger w2)) w2).
    assert (Hs2 : sized w2).
    { apply (install_trans_sized 1 w1).
      - by apply (read_head_sized w).
      - unfold install_trans. rewrite Hn1. exact Hf. }
    destruct (write_head_copies w3) as (w4 & Hwh & Hcp).
    { unfold w3, cur_n. simpl. lia. }
    { unfold w3, cur_n. simpl. rewrite set_logger_bview, sized_bview by done. lia. }
    pose proof Hcp as (Hl4 & Hd4 & Hv4 & Ht4).
    assert (Hh3 : head w3 = head w).
    { unfold w3, head. simpl. by rewrite Hl2, Hl1. }
    assert (Hhi : header_image (cur_n w3) (cur_block w3) (bview w3 (head w3))
                  = <[0%nat := 0]> hb).
    { rewrite Hh3. unfold w3 at 1, cur_n. simpl. rewrite header_image_0.
      - unfold w3. obs. by rewrite Hhead2.
      - unfold w3. obs. rewrite Hhead2. lia. }
    rewrite Hhi, Hh3 in Hcp, Hd4, Hv4, Ht4.
    exists w4. split; [|split; [|split; [|split; [|split]]]].
    + unfold recover_from_log. rewrite Hrh. simpl.
      unfold install_trans. rewrite Hn1. fold n. rewrite Hf. simpl. exact Hwh.
    + eapply copies_clean; [|by rewrite (copies_view _ _ _ _ _ Hcp)].
      intros b. unfold w3. obs. rewrite Hv2, Hd2, dread_replay, Hv1, Hd1, Hc. done.
    + apply (recover_from_log_sized w); [done|].
      unfold recover_from_log. rewrite Hrh. simpl.
      unfold install_trans. rewrite Hn1. fold n. rewrite Hf. simpl. exact Hwh.
    + rewrite Hl4. unfold w3. simpl. rewrite Hl2, Hl1, Hhb. done.
    + rewrite Ht4. unfold w3. obs. rewrite Ht2, Ht1.
      unfold recovery_writes. fold hb. rewrite fmap_app, <- !app_assoc. reflexivity.
    + rewrite Hd4. unfold w3. obs. rewrite Hd2, Hd1.
      unfold recovery_writes. fold hb. rewrite replay_app. reflexivity.
Qed.
(** ** The block writes of a recovery *)

Lemma recovery_copies_keys (l : log) (d : gmap blockid block) (b : blockid) :
  geometry_ok l → disk_log_ok l d → b ∈ (recovery_copies l d).*1 →
  b ≠ head_id l ∧
  ∀ j, 0 <= j < Z.of_nat (length (disk_entries (dread d (head_id l)))) → b ≠ slot_id l j.
Proof.
  intros Hg [Hcount Hout] Hin. pose proof Hg as (HL & Hs0 & Hs1).
  set (hb := dread d (head_id l)) in *.
  unfold recovery_copies in Hin. fold hb in Hin.
  rewrite <- list_fmap_compose in Hin.
  apply list_elem_of_fmap in Hin as (j' & -> & Hj'%elem_of_seqZ). simpl.
  destruct (lookup_lt_is_Some_2 (disk_entries hb) (Z.to_nat j')) as [h Hh]; [lia|].
  rewrite Hh. simpl.
  rewrite Forall_lookup in Hout. specialize (Hout _ _ Hh).
  assert (Hle : (length (disk_entries hb) ≤ Z.to_nat (disk_count hb))%nat).
  { unfold disk_entries. rewrite length_take. lia. }
  split.
  - rewrite head_id_eq by done. unfold home_id. intros [=]. lia.
  - intros j Hj. rewrite slot_id_eq by (done || lia).
    unfold home_id. intros [=]. lia.
Qed.

Lemma recovery_copies_sized (l : log) (d : gmap blockid block) :
  map_Forall (fun _ blk => length blk = block_ints) d →
  Forall (fun p => length p.2 = block_ints) (recovery_copies l d).
Proof.
  intros Hd. unfold recovery_copies. apply Forall_fmap, Forall_forall.
  intros j _. simpl. by apply sized_dread.
Qed.

Lemma recovery_writes_sized (l : log) (d : gmap blockid block) :
  map_Forall (fun _ blk => length blk = block_ints) d →
  Forall (fun p => length p.2 = block_ints) (recovery_writes l d).
Proof.
  intros Hd. unfold recovery_writes. apply Forall_app_2.
  - by apply recovery_copies_sized.
  - constructor; [|constructor]. simpl. rewrite length_insert. by apply sized_dread.
Qed.

(** A disk that holds some of the copies of a recovery holds the same log. *)
Lemma recovery_copies_partial (l : log) (d : gmap blockid block) (k : nat) :
  geometry_ok l → disk_log_ok l d →
  let dk := replay (take k (recovery_copies l d)) d in
  dread dk (head_id l) = dread d (head_id l) ∧
  recovery_copies l dk = recovery_copies l d.
Proof.
  intros Hg Hok dk.
  assert (Hhead : dread dk (head_id l) = dread d (head_id l)).
  { unfold dk. apply replay_last_write_None, last_write_take_None.
    intros Hin. by apply (recovery_copies_keys l d) in Hin as [Hne _]. }
  split; [done|].
  unfold recovery_copies. rewrite Hhead.
  apply Forall_fmap_ext_1, Forall_forall. intros j Hj%elem_of_seqZ.
  f_equal. unfold dk. apply replay_last_write_None, last_write_take_None.
  intros Hin. apply (recovery_copies_keys l d) in Hin as [_ Hne]; [|done..].
  by apply (Hne j).
Qed.

Lemma disk_count_cleared (hb : block) :
  (0 < length hb)%nat → disk_count (<[0%nat := 0]> hb) = 0.
Proof. intros H. unfold disk_count. by rewrite list_lookup_insert_eq. Qed.

Lemma boot_fresh (dev : Z) (sb : superblock) (d : gmap blockid block) :
  sizeof_logheader < BSIZE →
  initlog dev sb (boot d)
  = recover_from_log
      (set_logger (fresh_logger dev (to_int (sb_logstart sb)) (to_int (sb_nlog sb)))
                  (boot d)).
Proof.
  intros Hfit. unfold initlog. by destruct (Z.leb_spec BSIZE sizeof_logheader); [lia|].
Qed.

Lemma recover_boot (l : log) (d : gmap blockid block) :
  geometry_ok l → sizeof_logheader < BSIZE →
  length (lh_block (log_lh l)) = Z.to_nat LOGSIZE →
  map_Forall (fun _ blk => length blk = block_ints) d → disk_log_ok l d →
  ∃ w', recover_from_log (set_logger l (boot d)) = Done w' ∧ clean w' ∧ sized w' ∧
        logger w' =
          set_lh (mkLogheader 0
                    (disk_entries (dread d (head_id l)) ++
                     drop (Z.to_nat (disk_count (dread d (head_id l)))) (lh_block (log_lh l))))
                 l ∧
        trace w' = (fun p => EvBwrite p.1 p.2) <$> recovery_writes l d ∧
        disk w' = replay (recovery_writes l d) d.
Proof.
  intros Hg Hfit Hlen Hd Hok.
  destruct (recover_writes_run (set_logger l (boot d)))
    as (w' & Hr & Hc & Hs & Hl & Ht & Hdk);
    [apply boot_clean|by apply boot_sized|done..|].
  exists w'. rewrite boot_clean in Hl. done.
Qed.

(** X2.  Recovery can be interrupted and run again.  Let the disk hold a
    log that a commit wrote, and let the recovery of a boot be cut off by a
    crash when [k] of its block writes are on disk, for any [k].  The
    recovery of the next boot returns and leaves every block of the disk
    as the uninterrupted recovery leaves it. *)
Theorem recovery_restartable (dev : Z) (sb : superblock) (d : gmap blockid block) :
  let l := fresh_logger dev (to_int (sb_logstart sb)) (to_int (sb_nlog sb)) in
  geometry_ok l → sizeof_logheader < BSIZE →
  map_Forall (fun _ blk => length blk = block_ints) d → disk_log_ok l d →
  ∃ w1, initlog dev sb (boot d) = Done w1 ∧
        writes_of (trace w1) = recovery_writes l d ∧
        ∀ k, ∃ w2, initlog dev sb (boot (crash_disk d (trace w1) k)) = Done w2 ∧
                   ∀ b, dread (disk w2) b = dread (disk w1) b.
Proof.
  intros l Hg Hfit Hd Hok. pose proof Hg as (HL & _).
  pose proof (header_fits_ints HL Hfit) as Hints.
  assert (Hlen : length (lh_block (log_lh l)) = Z.to_nat LOGSIZE) by apply length_replicate.
  destruct (recover_boot l d) as (w1 & Hr1 & _ & _ & _ & Ht1 & Hd1); try done.
  exists w1. rewrite boot_fresh by done. split; [done|].
  assert (Hws : writes_of (trace w1) = recovery_writes l d).
  { rewrite Ht1. apply writes_of_bwrites. }
  split; [done|]. intros k. unfold crash_disk. rewrite Hws.
  set (hb := dread d (head_id l)).
  assert (Hhb : length hb = block_ints) by by apply sized_dread.
  set (dk := replay (take k (recovery_writes l d)) d).
  assert (Hdk : map_Forall (fun _ blk => length blk = block_ints) dk).
  { apply replay_sized; [done|]. by apply Forall_take, recovery_writes_sized. }
  rewrite boot_fresh by done.
  destruct (decide (k ≤ length (recovery_copies l d))%nat) as [Hk|Hk].
  - assert (Hdk' : dk = replay (take k (recovery_copies l d)) d).
    { unfold dk, recovery_writes. by rewrite take_app_le. }
    destruct (recovery_copies_partial l d k Hg Hok) as [Hhead Hcopies].
    rewrite <- Hdk' in Hhead, Hcopies.
    assert (Hwr : recovery_writes l dk = recovery_writes l d).
    { unfold recovery_writes. by rewrite Hcopies, Hhead. }
    destruct (recover_boot l dk) as (w2 & Hr2 & _ & _ & _ & _ & Hd2); try done.
    { unfold disk_log_ok. by rewrite Hhead. }
    exists w2. split; [done|]. intros b.
    rewrite Hd2, Hd1, Hwr, !dread_replay.
    destruct (last_write (recovery_writes l d) b) as [v|] eqn:E; [done|]. simpl.
    rewrite Hdk', dread_replay, last_write_take_None; [done|].
    apply last_write_None in E. unfold recovery_writes in E.
    rewrite fmap_app in E. intros Hin. apply E, elem_of_app. by left.
  - assert (Hdk' : dk = replay (recovery_writes l d) d).
    { unfold dk. rewrite take_ge; [done|].
      unfold recovery_writes. rewrite length_app. simpl. lia. }
    assert (Hhead : dread dk (head_id l) = <[0%nat := 0]> hb).
    { rewrite Hdk', dread_replay. unfold recovery_writes. by rewrite last_write_snoc. }
    assert (Hcnt : disk_count (dread dk (head_id l)) = 0).
    { rewrite Hhead. apply disk_count_cleared. lia. }
    assert (Hcopies : recovery_copies l dk = []).
    { unfold recovery_copies, disk_entries. by rewrite Hcnt. }
    destruct (recover_boot l dk) as (w2 & Hr2 & _ & _ & _ & _ & Hd2); try done.
    { unfold disk_log_ok, disk_entries. rewrite Hcnt. split; [lia|done]. }
    exists w2. split; [done|]. intros b.
    rewrite Hd2, Hd1, <- Hdk'. unfold recovery_writes. rewrite Hcopies. simpl.
    rewrite dread_insert. destruct (decide (b = head_id l)) as [->|]; [|done].
    rewrite Hhead. apply list_insert_id. apply list_lookup_insert_eq. lia.
Qed.
(** ** Reference counts *)

Lemma refcnt_bread (b : blockid) (w : world) (b' : blockid) :
  refcnt (bread b w) b' = refcnt w b' + (if decide (b' = b) then 1 else 0).
Proof.
  unfold refcnt, bread. destruct (decide (b' = b)) as [->|Hne].
  - destruct (bcache w !! b) as [bf|] eqn:E; simpl; by rewrite lookup_insert_eq.
  - destruct (bcache w !! b) as [bf|] eqn:E; simpl;
      rewrite lookup_insert_ne by done; lia.
Qed.

Lemma cached_bread (b : blockid) (w : world) : cached (bread b w) b.
Proof.
  unfold cached, bread.
  destruct (bcache w !! b) as [bf|] eqn:E; simpl; by rewrite lookup_insert_eq.
Qed.

Lemma cached_bread_mono (b : blockid) (w : world) (b' : blockid) :
  cached w b' → cached (bread b w) b'.
Proof.
  unfold cached, bread. intros H.
  destruct (bcache w !! b) as [bf|] eqn:E; simpl;
    (destruct (decide (b' = b)) as [->|];
     [by rewrite lookup_insert_eq|by rewrite lookup_insert_ne]).
Qed.

Lemma refcnt_add_refcnt (b : blockid) (k : Z) (w : world) (b' : blockid) :
  cached w b →
  refcnt (add_refcnt b k w) b' = refcnt w b' + (if decide (b' = b) then k else 0).
Proof.
  intros [bf Hbf]. unfold refcnt, add_refcnt. simpl.
  destruct (decide (b' = b)) as [->|Hne].
  - by rewrite lookup_alter_eq, Hbf.
  - rewrite lookup_alter_ne by done. lia.
Qed.

Lemma cached_add_refcnt (b : blockid) (k : Z) (w : world) (b' : blockid) :
  cached w b' → cached (add_refcnt b k w) b'.
Proof.
  unfold cached, add_refcnt. simpl. intros [bf Hbf].
  destruct (decide (b' = b)) as [->|Hne].
  - rewrite lookup_alter_eq, Hbf. by eexists.
  - rewrite lookup_alter_ne by done. by eexists.
Qed.

Lemma refcnt_set_data (b : blockid) (d : block) (w : world) (b' : blockid) :
  refcnt (set_data b d w) b' = refcnt w b'.
Proof.
  unfold refcnt, set_data. destruct (decide (b' = b)) as [->|Hne].
  - destruct (bcache w !! b) as [bf|] eqn:E; simpl; by rewrite lookup_insert_eq.
  - destruct (bcache w !! b) as [bf|] eqn:E; simpl; by rewrite lookup_insert_ne.
Qed.

Lemma cached_set_data (b : blockid) (d : block) (w : world) (b' : blockid) :
  cached w b' → cached (set_data b d w) b'.
Proof.
  unfold cached, set_data. intros H.
  destruct (bcache w !! b) as [bf|] eqn:E; simpl;
    (destruct (decide (b' = b)) as [->|];
     [by rewrite lookup_insert_eq|by rewrite lookup_insert_ne]).
Qed.

Lemma refcnt_bwrite (b : blockid) (w : world) (b' : blockid) :
  refcnt (bwrite b w) b' = refcnt w b'.
Proof. done. Qed.

Lemma cached_bwrite (b : blockid) (w : world) (b' : blockid) :
  cached w b' → cached (bwrite b w) b'.
Proof. done. Qed.

Lemma refcnt_brelse (b : blockid) (w : world) (b' : blockid) :
  cached w b →
  refcnt (brelse b w) b' = refcnt w b' + (if decide (b' = b) then -1 else 0).
Proof. apply refcnt_add_refcnt. Qed.

Lemma refcnt_bunpin (b : blockid) (w : world) (b' : blockid) :
  cached w b →
  refcnt (bunpin b w) b' = refcnt w b' + (if decide (b' = b) then -1 else 0).
Proof. apply (refcnt_add_refcnt b (-1)). Qed.

Lemma refcnt_bpin (b : blockid) (w : world) (b' : blockid) :
  cached w b →
  refcnt (bpin b w) b' = refcnt w b' + (if decide (b' = b) then 1 else 0).
Proof. apply (refcnt_add_refcnt b 1). Qed.

Lemma cached_brelse (b : blockid) (w : world) (b' : blockid) :
  cached w b' → cached (brelse b w) b'.
Proof. apply cached_add_refcnt. Qed.

Lemma cached_bunpin (b : blockid) (w : world) (b' : blockid) :
  cached w b' → cached (bunpin b w) b'.
Proof. apply (cached_add_refcnt b (-1)). Qed.

Lemma cached_bpin (b : blockid) (w : world) (b' : blockid) :
  cached w b' → cached (bpin b w) b'.
Proof. apply (cached_add_refcnt b 1). Qed.

Lemma refcnt_set_logger (l : log) (w : world) (b : blockid) :
  refcnt (set_logger l w) b = refcnt w b.
Proof. done. Qed.

Lemma refcnt_emit (e : event) (w : world) (b : blockid) : refcnt (emit e w) b = refcnt w b.
Proof. done. Qed.

(** One iteration of the loop of [install_trans] gives back the two
    references it takes; when it is not recovering it also drops the pin
    of the home block. *)
Lemma install_trans_body_refcnt (r : Z) (j : Z) (w w' : world) :
  install_trans_body r j w = Done w' →
  logger w' = logger w ∧
  ∀ b, refcnt w' b
       = refcnt w b - (if r =? 0 then (if decide (b = home w j) then 1 else 0) else 0).
Proof.
  unfold install_trans_body. rewrite bread_logger.
  intros (h & Hh & [= <-])%bind_Done_inv.
  assert (He : home w j = home_id (logger w) h).
  { unfold home, entry. unfold arr_get in Hh. destruct (0 <=? j); [|done].
    rewrite bread_cur_block in Hh.
    by destruct (cur_block w !! Z.to_nat j); simplify_eq. }
  rewrite He. set (lbuf := slot_id (logger w) j). set (dbuf := home_id (logger w) h).
  split; [destruct (r =? 0); by obs|].
  intros b.
  assert (Hcl : cached (bread dbuf (bread lbuf w)) lbuf)
    by apply cached_bread_mono, cached_bread.
  assert (Hcd : cached (bread dbuf (bread lbuf w)) dbuf) by apply cached_bread.
  destruct (r =? 0).
  - rewrite !refcnt_brelse, refcnt_bunpin, refcnt_bwrite, refcnt_set_data, !refcnt_bread.
    + repeat case_decide; lia.
    + by apply cached_bwrite, cached_set_data.
    + by apply cached_bunpin, cached_bwrite, cached_set_data.
    + by apply cached_brelse, cached_bunpin, cached_bwrite, cached_set_data.
  - rewrite !refcnt_brelse, refcnt_bwrite, refcnt_set_data, !refcnt_bread.
    + repeat case_decide; lia.
    + by apply cached_bwrite, cached_set_data.
    + by apply cached_brelse, cached_bwrite, cached_set_data.
Qed.

Lemma write_log_body_refcnt (j : Z) (w w' : world) :
  write_log_body j w = Done w' → ∀ b, refcnt w' b = refcnt w b.
Proof.
  unfold write_log_body. rewrite bread_logger.
  intros (h & Hh & [= <-])%bind_Done_inv b.
  set (to := slot_id (logger w) j). set (from := home_id (logger w) h).
  assert (Hct : cached (bread from (bread to w)) to)
    by apply cached_bread_mono, cached_bread.
  assert (Hcf : cached (bread from (bread to w)) from) by apply cached_bread.
  rewrite !refcnt_brelse, refcnt_bwrite, refcnt_set_data, !refcnt_bread.
  - repeat case_decide; lia.
  - by apply cached_bwrite, cached_set_data.
  - by apply cached_brelse, cached_bwrite, cached_set_data.
Qed.

Lemma set_data_int_refcnt (buf : blockid) (i v : Z) (w w' : world) :
  set_data_int buf i v w = Done w' →
  (∀ b, refcnt w' b = refcnt w b) ∧ (∀ b, cached w b → cached w' b).
Proof.
  unfold set_data_int. intros (d & _ & [= <-])%bind_Done_inv. split.
  - intros b. apply refcnt_set_data.
  - intros b. apply cached_set_data.
Qed.

Lemma write_head_refcnt (w w' : world) :
  write_head w = Done w' → ∀ b, refcnt w' b = refcnt w b.
Proof.
  unfold write_head. set (buf := head_id (logger w)).
  intros (w1 & H1 & (w2 & H2 & [= <-])%bind_Done_inv)%bind_Done_inv b.
  apply set_data_int_refcnt in H1 as [Hr1 Hc1].
  apply (for_loop_preserves
           (fun w0 => (∀ b, refcnt w0 b = refcnt w1 b) ∧ cached w0 buf)) in H2
    as [Hr2 Hc2].
  - rewrite refcnt_brelse, refcnt_bwrite, Hr2, Hr1, refcnt_bread by done.
    case_decide; lia.
  - intros j w0 w3 [Hr0 Hc0]. unfold write_head_body.
    intros (v & _ & H3)%bind_Done_inv.
    apply set_data_int_refcnt in H3 as [Hr3 Hc3].
    split; [|by apply Hc3]. intros b0. by rewrite Hr3.
  - split; [done|]. apply Hc1, cached_bread.
Qed.

Lemma read_head_refcnt (w w' : world) :
  read_head w = Done w' → ∀ b, refcnt w' b = refcnt w b.
Proof.
  unfold read_head. set (buf := head_id (logger w)).
  intros (n & _ & (w2 & H2 & [= <-])%bind_Done_inv)%bind_Done_inv b.
  apply (for_loop_preserves
           (fun w0 => bcache w0 = bcache (bread buf w))) in H2.
  - rewrite refcnt_brelse.
    + unfold refcnt at 1. rewrite H2. fold (refcnt (bread buf w) b).
      rewrite refcnt_bread. case_decide; lia.
    + unfold cached. rewrite H2. apply cached_bread.
  - intros j w0 w3 H0. unfold read_head_body.
    intros (v & _ & (bl & _ & [= <-])%bind_Done_inv)%bind_Done_inv. done.
  - done.
Qed.

Lemma install_recovering_refcnt (w w' : world) :
  install_trans 1 w = Done w' → ∀ b, refcnt w' b = refcnt w b.
Proof.
  unfold install_trans.
  apply (for_loop_preserves (fun w0 => ∀ b, refcnt w0 b = refcnt w b)); [|done].
  intros j w0 w1 H0 Hb b. apply install_trans_body_refcnt in Hb as [_ Hb].
  rewrite Hb, H0. simpl. lia.
Qed.

Lemma write_log_refcnt (w w' : world) :
  write_log w = Done w' → ∀ b, refcnt w' b = refcnt w b.
Proof.
  unfold write_log.
  apply (for_loop_preserves (fun w0 => ∀ b, refcnt w0 b = refcnt w b)); [|done].
  intros j w0 w1 H0 Hb b. rewrite (write_log_body_refcnt _ _ _ Hb). apply H0.
Qed.

Lemma install_loop_refcnt (k : nat) (i : Z) (w w' : world) :
  for_loop k i (install_trans_body 0) w = Done w' →
  ∀ b, refcnt w' b
       = refcnt w b - Z.of_nat (length (filter (fun j => home w j = b) (seqZ i (Z.of_nat k)))).
Proof.
  revert i w. induction k as [|k IH]; intros i w.
  - intros [= <-] b. simpl. lia.
  - simpl for_loop. intros (w1 & H1 & H2)%bind_Done_inv b.
    apply install_trans_body_refcnt in H1 as [Hl1 Hr1].
    rewrite (IH _ _ H2), Hr1, seqZ_succ, filter_cons. simpl.
    assert (Hh : ∀ j, home w1 j = home w j) by (intros j; unfold home, entry, cur_block; by rewrite Hl1).
    rewrite (list_filter_iff (fun j => home w1 j = b) (fun j => home w j = b))
      by (intros j; by rewrite Hh).
    destruct (decide (b = home w i)) as [->|Hne].
    + rewrite decide_True by done. simpl. lia.
    + rewrite decide_False by done. lia.
Qed.

Lemma recover_refcnt (w w' : world) :
  recover_from_log w = Done w' → ∀ b, refcnt w' b = refcnt w b.
Proof.
  unfold recover_from_log.
  intros (w1 & H1 & (w2 & H2 & H3)%bind_Done_inv)%bind_Done_inv b.
  rewrite (write_head_refcnt _ _ H3), refcnt_set_logger.
  rewrite (install_recovering_refcnt _ _ H2). apply (read_head_refcnt _ _ H1).
Qed.

(** X3.  Recovery leaks no buffer.  [recover_from_log] releases every
    buffer it reads: when it returns, every buffer has the reference count
    it had before; on a cache that holds nothing, as at boot, it leaves no
    buffer referenced. *)
Theorem recovery_releases_buffers (w w' : world) :
  recover_from_log w = Done w' →
  (∀ b, refcnt w' b = refcnt w b) ∧
  (bcache w = ∅ → ∀ b, refcnt w' b = 0).
Proof.
  intros Hr. split; [by apply recover_refcnt|].
  intros He b. rewrite (recover_refcnt _ _ Hr). unfold refcnt. by rewrite He, lookup_empty.
Qed.

Lemma commit_refcnt (w w' : world) :
  commit w = Done w' → ∀ b, refcnt w' b = refcnt w b - times_logged w b.
Proof.
  unfold commit, times_logged. destruct (Z.ltb_spec 0 (cur_n w)) as [Hpos|Hle].
  - intros (w1 & H1 & (w2 & H2 & (w3 & H3 & H4)%bind_Done_inv)%bind_Done_inv)%bind_Done_inv b.
    rewrite (write_head_refcnt _ _ H4), refcnt_set_logger.
    pose proof (write_log_logger _ _ H1) as Hl1.
    pose proof (write_head_logger _ _ H2) as Hl2.
    unfold install_trans in H3. rewrite (install_loop_refcnt _ _ _ _ H3).
    rewrite (write_head_refcnt _ _ H2), (write_log_refcnt _ _ H1).
    assert (Hn : cur_n w2 = cur_n w) by (unfold cur_n; congruence).
    rewrite Hn, Z2Nat.id by lia.
    rewrite (list_filter_iff (fun j => home w2 j = b) (fun j => home w j = b)); [done|].
    intros j. unfold home, entry, cur_block. by rewrite Hl2, Hl1.
  - intros [= <-] b. rewrite seqZ_nil by lia. simpl. lia.
Qed.

(** X4.  The commit gives back the pins of the transaction.  When [commit]
    returns, the reference count of every buffer is what it was before, less
    one for each entry of the header whose home block the buffer holds:
    [install_trans] unpins each logged block once, and every other
    reference that the commit takes it releases. *)
Theorem commit_unpins (w w' : world) :
  commit w = Done w' → ∀ b, refcnt w' b = refcnt w b - times_logged w b.
Proof. apply commit_refcnt. Qed.
(** ** What a commit leaves on disk and in the cache *)

Lemma commit_last_write_home (w : world) (j : Z) :
  geometry_ok (logger w) → header_ok (logger w) → 0 <= j < cur_n w →
  last_write (writes_of (commit_events w)) (home w j) = Some (bview w (home w j)).
Proof.
  intros Hg Hh Hj.
  rewrite writes_of_commit_events, !last_write_app, last_write_cons. simpl.
  rewrite decide_False by (by apply home_ne_head).
  unfold install_writes.
  rewrite (last_write_fmap (home w) (fun j => bview w (home w j))); [done| |].
  - apply elem_of_seqZ. lia.
  - intros j' _ Heq. by rewrite Heq.
Qed.

Lemma commit_last_write_other (w : world) (b : blockid) :
  b ≠ head w → (∀ j, 0 <= j < cur_n w → b ≠ slot w j) →
  last_write (writes_of (commit_events w)) b = None ∨
  ∃ j, 0 <= j < cur_n w ∧ b = home w j ∧
       last_write (writes_of (commit_events w)) b = Some (bview w b).
Proof.
  intros Hhead Hslot.
  rewrite writes_of_commit_events, !last_write_app, last_write_cons. simpl.
  rewrite !decide_False by done.
  assert (Hlog : last_write (write_log_writes w) b = None).
  { apply last_write_fmap_None. intros j Hj%elem_of_seqZ.
    apply not_eq_sym, Hslot. lia. }
  rewrite Hlog.
  destruct (last_write (install_writes w) b) as [v|] eqn:E; [|by left].
  right. apply last_write_Some in E. unfold install_writes in E.
  apply list_elem_of_fmap in E as (j & [= -> ->] & Hj%elem_of_seqZ).
  exists j. split; [lia|]. done.
Qed.

(** X5.  What [commit] makes durable.  When [commit] returns, every home
    block of the transaction holds on disk what the cache holds for it, the
    cache shows for every block other than the header block and the log
    blocks of the transaction what it showed before, and no block of the
    disk other than these and the home blocks of the transaction has
    changed. *)
Theorem commit_durable (w : world) :
  0 < cur_n w → geometry_ok (logger w) → header_ok (logger w) → sized w →
  sizeof_logheader < BSIZE →
  ∃ w', commit w = Done w' ∧
    (∀ j, 0 <= j < cur_n w →
          dread (disk w') (home w j) = bview w (home w j) ∧
          bview w' (home w j) = bview w (home w j)) ∧
    (∀ b, b ≠ head w → (∀ j, 0 <= j < cur_n w → b ≠ slot w j) →
          bview w' b = bview w b) ∧
    (∀ b, b ≠ head w → (∀ j, 0 <= j < cur_n w → b ≠ slot w j ∧ b ≠ home w j) →
          dread (disk w') b = dread (disk w) b).
Proof.
  intros Hpos Hg Hh Hs Hfit.
  destruct (commit_run w) as (w' & Hc & _ & _ & Hd & Hv); try done.
  exists w'. split; [done|]. split; [|split].
  - intros j Hj. rewrite Hd, Hv, dread_replay, commit_last_write_home by done. done.
  - intros b Hhead Hslot. rewrite Hv.
    destruct (commit_last_write_other w b Hhead Hslot) as [->|(j & _ & _ & ->)]; done.
  - intros b Hhead Hother. rewrite Hd, dread_replay.
    destruct (commit_last_write_other w b Hhead) as [->|(j & Hj & -> & _)]; [|done|].
    + intros j Hj. by apply Hother.
    + exfalso. by apply (Hother j Hj).
Qed.
(** ** One operation, from [begin_op] to [end_op] *)

Lemma begin_op_pass_idle (w : world) :
  idle (logger w) → 1 <= MAXOPBLOCKS <= LOGSIZE → LOGSIZE <= int_max →
  begin_op_pass w
  = Entered (emit EvRelease (set_logger (set_outstanding 1 (logger w)) w)).
Proof.
  intros (Hn & Ho & Hc) HM HL. unfold begin_op_pass.
  rewrite reservation_int; cycle 1.
  { unfold reservation_in_range, reservation, is_int, int_min. rewrite Hn, Ho. lia. }
  unfold reservation. rewrite Hn, Ho, Hc. simpl.
  destruct (Z.ltb_spec LOGSIZE (0 + (0 + 1) * MAXOPBLOCKS)); [lia|done].
Qed.

Lemma begin_op_idle (w : world) :
  idle (logger w) → 1 <= MAXOPBLOCKS <= LOGSIZE → LOGSIZE <= int_max →
  begin_op [] w
  = Entered (emit EvRelease
               (set_logger (set_outstanding 1 (logger w)) (emit EvAcquire w))).
Proof.
  intros Hidle HM HL. unfold begin_op. simpl.
  by rewrite (begin_op_pass_idle (emit EvAcquire w)).
Qed.

Lemma end_op_last (w : world) :
  log_committing (logger w) = 0 → to_int (log_outstanding (logger w) - 1) = 0 →
  end_op w = (commit (committing_world w) ≫= fun w2 => Done (commit_done w2)).
Proof.
  intros Hc Hout. unfold end_op. simpl. rewrite Hout, Hc. done.
Qed.

Lemma log_write_refcnt (b : blockid) (w w' : world) :
  log_write b w = Done w' → cached w b →
  (cur_n w' = cur_n w ∧ ∀ b', refcnt w' b' = refcnt w b') ∨
  (cur_n w' = to_int (cur_n w + 1) ∧
   ∀ b', refcnt w' b' = refcnt w b' + (if decide (b' = b) then 1 else 0)).
Proof.
  unfold log_write. rewrite emit_cur_n, emit_logger, emit_cur_block.
  destruct (_ || _); [done|]. destruct (_ <? _); [done|].
  intros (i & _ & (bl & _ & [= <-])%bind_Done_inv)%bind_Done_inv Hc.
  rewrite cur_n_set_block. fold (cur_n w).
  destruct (i =? cur_n w).
  - right. split; [done|]. intros b'.
    rewrite refcnt_emit, refcnt_set_logger, refcnt_bpin; done.
  - left. done.
Qed.

Lemma operation_run (b : blockid) (d : block) (w : world) :
  idle (logger w) → geometry_ok (logger w) → length (cur_block w) = Z.to_nat LOGSIZE →
  sized w → sizeof_logheader < BSIZE → 1 <= MAXOPBLOCKS <= LOGSIZE →
  2 <= log_size (logger w) <= int_max →
  0 <= b.2 < 4294967296 →
  b.2 < log_start (logger w) ∨ log_start (logger w) + 1 < b.2 →
  length d = block_ints →
  let hm := (to_uint (log_dev (logger w)), b.2) in
  ∃ w1 w2 w3,
    begin_op [] w = Entered w1 ∧ logged_update b d w1 = Done w2 ∧ end_op w2 = Done w3 ∧
    disk w2 = disk w ∧
    (∀ b', bview w2 b' = if decide (b' = b) then d else bview w b') ∧
    dread (disk w3) hm = bview w2 hm ∧ bview w3 hm = bview w2 hm ∧
    (∀ b', b'.1 ≠ to_uint (log_dev (logger w)) →
           dread (disk w3) b' = dread (disk w) b' ∧ bview w3 b' = bview w2 b') ∧
    (∀ b', refcnt w3 b'
           = refcnt w b' + (if decide (b' = b) then 1 else 0)
             - (if decide (b' = hm) then 1 else 0)) ∧
    logger w3 = set_lh (mkLogheader 0 (<[0%nat := to_int b.2]> (cur_block w))) (logger w).
Proof.
  intros Hidle Hg Hlen Hs Hfit HM Hsize Hb Hout Hd hm.
  pose proof Hidle as (Hn & Ho & Hc). pose proof Hg as (HL & Hs0 & Hs1).
  assert (HLmax : LOGSIZE <= int_max) by lia.
  (* begin_op *)
  exists (emit EvRelease (set_logger (set_outstanding 1 (logger w)) (emit EvAcquire w))).
  rewrite begin_op_idle by done.
  set (w1 := emit EvRelease _).
  assert (Hl1 : logger w1 = set_outstanding 1 (logger w)) by done.
  (* the update *)
  set (wa := set_data b d (bread b w1)).
  assert (Hla : logger wa = logger w1) by (unfold wa; by obs).
  destruct (log_write_run b wa)
    as (r & wb & Hlw & Hr & _ & _ & Hdb & Hvb & Hbb & Hlb & _ & Hmiss).
  { rewrite Hla, Hl1. simpl. unfold is_int, int_min. lia. }
  { rewrite Hla, Hl1. unfold log_write_fatal. simpl. rewrite Hn. lia. }
  { unfold cur_n. rewrite Hla, Hl1. simpl. lia. }
  { done. }
  { unfold cur_block. rewrite Hla, Hl1. done. }
  assert (Hna : cur_n wa = 0) by (unfold cur_n; rewrite Hla, Hl1; done).
  assert (Hba : cur_block wa = cur_block w) by (unfold cur_block; rewrite Hla, Hl1; done).
  rewrite Hna in Hr, Hmiss. assert (r = 0) as -> by lia.
  destruct Hmiss as [Hnb Htb]; [done|]. simpl in Hnb, Hbb.
  rewrite Hba in Hbb.
  assert (Hlb' : logger wb
                 = set_lh (mkLogheader 1 (<[0%nat := to_int b.2]> (cur_block w)))
                          (set_outstanding 1 (logger w))).
  { rewrite <- Hl1, <- Hla. by apply logger_lh_intro. }
  set (w2 := brelse b wb).
  assert (Hl2 : logger w2 = logger wb) by (unfold w2; by obs).
  assert (Hd2 : disk w2 = disk w).
  { unfold w2. rewrite brelse_disk, Hdb. unfold wa. by rewrite set_data_disk, bread_disk. }
  assert (Hv2 : ∀ b', bview w2 b' = if decide (b' = b) then d else bview w b').
  { intros b'. unfold w2. rewrite brelse_bview, Hvb. unfold wa.
    rewrite set_data_bview, bread_bview. done. }
  assert (Hs2 : sized w2).
  { apply brelse_sized, (log_write_sized b wa); [|done].
    apply set_data_sized; [done|]. by apply bread_sized. }
  assert (Hr2 : ∀ b', refcnt w2 b' = refcnt w b' + (if decide (b' = b) then 1 else 0)).
  { intros b'.
    assert (Hca : cached wa b) by apply cached_set_data, cached_bread.
    destruct (log_write_refcnt b wa wb Hlw Hca) as [[Hx _]|[_ Hx]]; [lia|].
    unfold w2. rewrite refcnt_brelse, Hx; cycle 1.
    { destruct Hca as [bf Hbf]. unfold cached.
      assert (Hy : refcnt wb b = refcnt wa b + 1) by (rewrite Hx; by rewrite decide_True).
      revert Hlw. unfold log_write. destruct (_ || _); [done|]. destruct (_ <? _); [done|].
      intros (i & _ & (bl & _ & [= <-])%bind_Done_inv)%bind_Done_inv.
      destruct (i =? _); simpl; [|by eexists].
      apply (cached_add_refcnt b 1). by eexists. }
    unfold wa. rewrite refcnt_set_data, refcnt_bread. unfold w1.
    rewrite refcnt_emit, refcnt_set_logger, refcnt_emit. repeat case_decide; lia. }
  set (wc := committing_world w2).
  assert (Hlc : logger wc
                = set_lh (mkLogheader 1 (<[0%nat := to_int b.2]> (cur_block w)))
                         (set_committing 1 (logger w))).
  { unfold wc, committing_world. simpl. rewrite Hlb'.
    unfold set_lh, set_committing, set_outstanding. simpl. by rewrite Ho. }
  assert (Hnc : cur_n wc = 1) by (unfold cur_n; by rewrite Hlc).
  assert (Hgc : geometry_ok (logger wc)) by (by rewrite Hlc).
  assert (Hu : to_uint (to_int b.2) = b.2).
  { rewrite to_uint_to_int. unfold to_uint. apply Z.mod_small. lia. }
  assert (Hhc : header_ok (logger wc)).
  { rewrite Hlc. unfold header_ok. simpl. split; [lia|]. split.
    - rewrite length_insert. exact Hlen.
    - destruct (cur_block w) as [|x bl] eqn:E; [simpl in Hlen; lia|]. simpl.
      constructor; [|constructor]. unfold outside_log. simpl. rewrite Hu. lia. }
  assert (Hsc : sized wc) by done.
  assert (Hhome : home wc 0 = hm).
  { unfold home, entry, cur_block, home_id. rewrite Hlc. simpl.
    rewrite list_lookup_insert_eq by lia. simpl. by rewrite Hu. }
  destruct (commit_run wc) as (w' & Hcm & Hl' & Ht' & Hd' & Hv'); [lia|done..|].
  exists w2, (commit_done w'). split; [done|].
  split.
  { change (log_write b wa ≫= (fun w' => Done (brelse b w')) = Done w2).
    by rewrite Hlw. }
  split.
  { rewrite end_op_last.
    - fold wc. by rewrite Hcm.
    - rewrite Hl2, Hlb'. simpl. done.
    - rewrite Hl2, Hlb'. simpl. done. }
  split; [done|]. split; [done|].
  assert (Hvc : ∀ b', bview wc b' = bview w2 b') by done.
  assert (Hdc : disk wc = disk w) by done.
  split; [|split; [|split; [|split]]].
  - unfold commit_done. obs. rewrite Hd', dread_replay, <- Hhome.
    rewrite commit_last_write_home by (done || lia). simpl. by rewrite Hvc.
  - unfold commit_done. obs. rewrite Hv', <- Hhome.
    rewrite commit_last_write_home by (done || lia). simpl. by rewrite Hvc.
  - intros b' Hdev.
    assert (Hlw' : last_write (writes_of (commit_events wc)) b' = None).
    { destruct (commit_last_write_other wc b') as [Hx|(j & Hj & Hx & _)]; [| |done|].
      - intros ->. apply Hdev. unfold head, head_id. by rewrite Hlc.
      - intros j Hj ->. apply Hdev. unfold slot, slot_id. by rewrite Hlc.
      - exfalso. apply Hdev. rewrite Hx. unfold home, home_id. by rewrite Hlc. }
    unfold commit_done. obs. rewrite Hd', Hv', dread_replay, Hlw', Hdc. done.
  - intros b'. unfold commit_done.
    rewrite refcnt_emit, refcnt_emit, refcnt_set_logger, refcnt_emit.
    rewrite (commit_refcnt _ _ Hcm).
    assert (Hrc : refcnt wc b' = refcnt w2 b') by done.
    rewrite Hrc, Hr2. unfold times_logged. rewrite Hnc.
    change (seqZ 0 1) with [0]. rewrite filter_cons, filter_nil, Hhome.
    repeat case_decide; simpl; (lia || congruence).
  - unfold commit_done. simpl. rewrite Hl', Hlc.
    unfold set_lh, set_n, set_committing. simpl. by rewrite Ho, Hc.
Qed.

(** X6.  A write made inside an operation is on disk when [end_op] returns.
    On an idle log, let a caller enter with [begin_op], modify a block of
    the log's device outside the log region and record it with [log_write]
    (the use that log.c documents), and leave with [end_op].  All three
    calls return; the block on disk is untouched until [end_op], and holds
    the new contents afterwards, as does the cache; the log is idle again
    and every buffer has the reference count it started with. *)
Theorem operation_durable (b : blockid) (d : block) (w : world) :
  idle (logger w) → geometry_ok (logger w) → length (cur_block w) = Z.to_nat LOGSIZE →
  sized w → sizeof_logheader < BSIZE → 1 <= MAXOPBLOCKS <= LOGSIZE →
  2 <= log_size (logger w) <= int_max →
  loggable (logger w) b → b.1 = to_uint (log_dev (logger w)) → length d = block_ints →
  ∃ w1 w2 w3,
    begin_op [] w = Entered w1 ∧ logged_update b d w1 = Done w2 ∧ end_op w2 = Done w3 ∧
    dread (disk w2) b = dread (disk w) b ∧
    dread (disk w3) b = d ∧ bview w3 b = d ∧
    idle (logger w3) ∧ ∀ b', refcnt w3 b' = refcnt w b'.
Proof.
  intros Hidle Hg Hlen Hs Hfit HM Hsize (Hb & Hfar) Hdev Hd.
  assert (Hout : b.2 < log_start (logger w) ∨ log_start (logger w) + 1 < b.2) by lia.
  destruct (operation_run b d w)
    as (w1 & w2 & w3 & H1 & H2 & H3 & Hd2 & Hv2 & Hd3 & Hv3 & _ & Hr3 & Hl3); try done.
  assert (Hhm : (to_uint (log_dev (logger w)), b.2) = b) by (destruct b; simpl in *; by subst).
  rewrite Hhm in Hd3, Hv3, Hr3.
  exists w1, w2, w3. split; [done|]. split; [done|]. split; [done|].
  split; [by rewrite Hd2|].
  rewrite Hd3, Hv3, Hv2, decide_True by done.
  split; [done|]. split; [done|]. split.
  - rewrite Hl3. destruct Hidle as (Hn & Ho & Hc). by repeat split.
  - intros b'. rewrite Hr3. case_decide; lia.
Qed.

(** X7.  [log_write] records the block number of the buffer and not its
    device; [install_trans] takes the device from the log.  So a buffer of
    another device that is passed to [log_write] is never written: at the
    commit the block with that number on the log's device is written
    instead, with what the cache holds for it, while the block of the
    buffer stays on disk as it was and the buffer keeps its pin. *)
Theorem log_write_ignores_device (b : blockid) (d : block) (w : world) :
  idle (logger w) → geometry_ok (logger w) → length (cur_block w) = Z.to_nat LOGSIZE →
  sized w → sizeof_logheader < BSIZE → 1 <= MAXOPBLOCKS <= LOGSIZE →
  2 <= log_size (logger w) <= int_max →
  loggable (logger w) b → b.1 ≠ to_uint (log_dev (logger w)) → length d = block_ints →
  ∃ w1 w2 w3,
    begin_op [] w = Entered w1 ∧ logged_update b d w1 = Done w2 ∧ end_op w2 = Done w3 ∧
    dread (disk w3) b = dread (disk w) b ∧ bview w3 b = d ∧
    dread (disk w3) (to_uint (log_dev (logger w)), b.2)
    = bview w (to_uint (log_dev (logger w)), b.2) ∧
    refcnt w3 b = refcnt w b + 1.
Proof.
  intros Hidle Hg Hlen Hs Hfit HM Hsize (Hb & Hfar) Hdev Hd.
  assert (Hout : b.2 < log_start (logger w) ∨ log_start (logger w) + 1 < b.2) by lia.
  destruct (operation_run b d w)
    as (w1 & w2 & w3 & H1 & H2 & H3 & Hd2 & Hv2 & Hd3 & Hv3 & Hother & Hr3 & Hl3); try done.
  assert (Hhm : (to_uint (log_dev (logger w)), b.2) ≠ b).
  { intros Heq. apply Hdev. by rewrite <- Heq. }
  exists w1, w2, w3. split; [done|]. split; [done|]. split; [done|].
  destruct (Hother b Hdev) as [Hdb Hvb].
  split; [done|]. split; [by rewrite Hvb, Hv2, decide_True|].
  split.
  - rewrite Hd3, Hv2. by rewrite decide_False.
  - rewrite Hr3. repeat case_decide; (lia || congruence).
Qed.
(** ** The header on disk, written and read back *)

Lemma disk_entries_header_image (n : Z) (bl : list Z) (old : block) :
  (Z.to_nat n ≤ length bl)%nat →
  disk_count (header_image n bl old) = n ∧
  disk_entries (header_image n bl old) = take (Z.to_nat n) bl.
Proof.
  intros Hn. split; [done|].
  unfold disk_entries. change (disk_count (header_image n bl old)) with n.
  unfold header_image. simpl. rewrite drop_0.
  rewrite take_app_le by (rewrite length_take; lia).
  apply take_idemp.
Qed.

(** X8.  The header survives a reboot.  What [write_head] writes,
    [read_head] of a freshly booted kernel reads back: the count and the
    block numbers that the count covers. *)
Theorem header_round_trip (w : world) (l : log) :
  0 <= cur_n w <= LOGSIZE → 0 < LOGSIZE → length (cur_block w) = Z.to_nat LOGSIZE →
  sized w → sizeof_logheader < BSIZE →
  head_id l = head w → length (lh_block (log_lh l)) = Z.to_nat LOGSIZE →
  ∃ w1 w2, write_head w = Done w1 ∧
           read_head (set_logger l (boot (disk w1))) = Done w2 ∧
           cur_n w2 = cur_n w ∧ entries w2 = entries w.
Proof.
  intros Hn HL Hlen Hs Hfit Hhead Hlen'.
  pose proof (header_fits_ints HL Hfit) as Hints.
  destruct (write_head_copies w) as (w1 & Hwh & _ & Hd1 & _ & _).
  { lia. }
  { rewrite sized_bview by done. lia. }
  set (img := header_image (cur_n w) (cur_block w) (bview w (head w))) in *.
  destruct (disk_entries_header_image (cur_n w) (cur_block w) (bview w (head w)))
    as [Hcnt Hent]; [lia|]. fold img in Hcnt, Hent.
  set (wb := set_logger l (boot (disk w1))).
  assert (Hhb : bview wb (head wb) = img).
  { unfold wb. rewrite boot_clean. unfold head. simpl. rewrite Hhead, Hd1.
    by rewrite dread_insert, decide_True. }
  assert (Himg : length img = block_ints).
  { unfold img. rewrite length_header_image; rewrite ?sized_bview by done; lia. }
  destruct (read_head_spec wb) as (w2 & Hrh & _ & _ & _ & Hl2).
  { rewrite Hhb, Hcnt. unfold cur_block. simpl. lia. }
  { rewrite Hhb, Hcnt, Himg. lia. }
  rewrite Hhb, Hcnt, Hent in Hl2.
  exists w1, w2. split; [done|]. split; [done|].
  unfold entries, cur_n, cur_block. rewrite Hl2. simpl.
  split; [done|]. fold (cur_n w) (cur_block w).
  rewrite take_app_length'; [done|]. rewrite length_take. lia.
Qed.

(** ** Recovery of a log that holds nothing *)

(** X9.  A count below zero is taken for an empty log.  [read_head] does
    not check the sign of the count it reads; with a negative count the
    loops of [read_head] and [install_trans] do not run, and
    [recover_from_log] writes the header block with count 0 and nothing
    else. *)
Theorem recover_negative_count (w : world) :
  clean w → sized w → 0 < LOGSIZE → sizeof_logheader < BSIZE →
  length (cur_block w) = Z.to_nat LOGSIZE → disk_count (bview w (head w)) < 0 →
  ∃ w', recover_from_log w = Done w' ∧ cur_n w' = 0 ∧ cur_block w' = cur_block w ∧
        trace w' = trace w ++ [EvBwrite (head w) (<[0%nat := 0]> (bview w (head w)))] ∧
        disk_count (dread (disk w') (head w)) = 0 ∧
        ∀ b, b ≠ head w → dread (disk w') b = dread (disk w) b.
Proof.
  intros Hc Hs HL Hfit Hlen Hcount.
  pose proof (header_fits_ints HL Hfit) as Hints.
  destruct (recover_run w) as (w' & Hr & _ & _ & Hl' & Hd' & tr & Ht' & _ & Hws);
    try done.
  { by apply clean_uniform. }
  { lia. }
  assert (Hz : Z.to_nat (disk_count (bview w (head w))) = 0%nat) by lia.
  assert (Hde : disk_entries (bview w (head w)) = []).
  { unfold disk_entries. by rewrite Hz. }
  rewrite Hz, Hde in *. simpl in Hd', Ht', Hl'.
  destruct tr as [|e tr]; [|simpl in Hws; lia]. simpl in Ht'.
  rewrite <- Hc in Hd', Ht'.
  exists w'. split; [done|]. split; [|split; [|split; [|split]]].
  - unfold cur_n. by rewrite Hl'.
  - unfold cur_block. rewrite Hl'. simpl. by rewrite drop_0.
  - done.
  - rewrite Hd', dread_insert, decide_True by done.
    apply disk_count_cleared. rewrite sized_bview by done. lia.
  - intros b Hb. by rewrite Hd', dread_insert, decide_False.
Qed.

(** ** A crash before the commit point, and the next boot *)

Lemma crash_before_head (w : world) (k : nat) (b : blockid) :
  (k ≤ Z.to_nat (cur_n w))%nat → (∀ j, 0 <= j < cur_n w → b ≠ slot w j) →
  dread (crash_disk (disk w) (commit_events w) k) b = dread (disk w) b.
Proof.
  intros Hk Hb. unfold crash_disk.
  rewrite writes_of_commit_events, take_app_le by (rewrite length_write_log_writes; lia).
  apply replay_last_write_None, last_write_take_None, not_in_fmap_keys.
  intros j Hj%elem_of_seqZ. apply not_eq_sym, Hb. lia.
Qed.

(** X10.  All or nothing, the nothing.  Let the header on disk be clear
    when a commit starts, and let the machine crash before the header
    write of the commit is on disk.  The recovery of the next boot returns,
    installs no block and writes only the header block, as it was; every
    block of the disk that is not one of the log blocks of the transaction
    is as it was before the commit. *)
Theorem uncommitted_crash_leaves_old (w : world) (nlog : Z) (k : nat) :
  0 < cur_n w → geometry_ok (logger w) → header_ok (logger w) → sized w →
  sizeof_logheader < BSIZE →
  disk_count (dread (disk w) (head w)) = 0 →
  (k ≤ Z.to_nat (cur_n w))%nat →
  ∃ w' wr,
    commit w = Done w' ∧ trace w' = trace w ++ commit_events w ∧
    initlog (log_dev (logger w)) (mkSuperblock (log_start (logger w)) nlog)
            (boot (crash_disk (disk w) (commit_events w) k)) = Done wr ∧
    cur_n wr = 0 ∧
    writes_of (trace wr) = [(head w, dread (disk w) (head w))] ∧
    ∀ b, (∀ j, 0 <= j < cur_n w → b ≠ slot w j) → dread (disk wr) b = dread (disk w) b.
Proof.
  intros Hpos Hg Hh Hs Hfit Hclear Hk.
  pose proof Hg as (HL & Hs0 & Hs1).
  pose proof Hh as (Hn & Hlen & _). fold (cur_n w) in Hn. fold (cur_block w) in Hlen.
  pose proof (header_fits_ints HL Hfit) as Hints.
  destruct (commit_run w) as (w' & Hc & _ & Ht & _ & _); try done.
  set (dk := crash_disk (disk w) (commit_events w) k).
  assert (Hhead : dread dk (head w) = dread (disk w) (head w)).
  { apply crash_before_head; [done|]. intros j Hj. apply not_eq_sym, slot_ne_head; [done|lia]. }
  assert (Hdk : map_Forall (fun _ blk => length blk = block_ints) dk).
  { apply replay_sized; [by destruct Hs|]. by apply Forall_take, commit_writes_sized. }
  rewrite boot_fresh by done. simpl.
  rewrite (to_int_id (log_start (logger w))) by (unfold is_int, int_min; lia).
  set (l := fresh_logger _ _ _). set (wb := set_logger l (boot dk)).
  assert (Hhb : head wb = head w) by done.
  assert (Hvb : bview wb (head wb) = dread (disk w) (head w)).
  { unfold wb. by rewrite boot_clean. }
  destruct (recover_run wb) as (wr & Hr & _ & _ & Hlr & Hdr & tr & Htr & _ & Hws).
  { apply boot_clean. }
  { apply clean_uniform. by apply boot_sized. }
  { done. }
  { done. }
  { unfold cur_block. simpl. apply length_replicate. }
  { rewrite Hvb, Hclear. lia. }
  assert (Hde : disk_entries (dread (disk w) (head w)) = []).
  { unfold disk_entries. by rewrite Hclear. }
  rewrite Hvb, Hhb, Hclear, Hde in *. simpl in Hdr, Htr, Hws.
  destruct tr as [|e tr]; [|simpl in Hws; lia]. simpl in Htr.
  assert (Hid : <[0%nat := 0]> (dread dk (head w)) = dread (disk w) (head w)).
  { rewrite Hhead. apply list_insert_id. unfold disk_count in Hclear.
    destruct (dread (disk w) (head w) !! 0%nat) as [v|] eqn:E; [simpl in Hclear; by subst|].
    apply lookup_ge_None in E. rewrite sized_dread in E by (by destruct Hs). lia. }
  rewrite Hid in Hdr, Htr.
  exists w', wr. split; [done|]. split; [done|]. split; [done|].
  split; [unfold cur_n; by rewrite Hlr|]. split; [by rewrite Htr|].
  intros b Hb. rewrite Hdr, dread_insert.
  destruct (decide (b = head w)) as [->|]; [done|].
  by apply crash_before_head.
Qed.

(** ** The log after [initlog] *)

(** X11.  What [initlog] sets up.  On a disk whose blocks have the block
    size and whose header count is at most [LOGSIZE], [initlog] at boot
    returns with the log idle and empty, the location of the log taken from
    the superblock (converted to [int]), the header on disk cleared, the
    cache showing what the disk holds and no buffer referenced. *)
Theorem initlog_ready (dev : Z) (sb : superblock) (d : gmap blockid block) :
  0 < LOGSIZE → sizeof_logheader < BSIZE →
  map_Forall (fun _ blk => length blk = block_ints) d →
  disk_count (dread d (to_uint dev, to_uint (to_int (sb_logstart sb)))) <= LOGSIZE →
  ∃ w, initlog dev sb (boot d) = Done w ∧
       idle (logger w) ∧
       log_start (logger w) = to_int (sb_logstart sb) ∧
       log_size (logger w) = to_int (sb_nlog sb) ∧
       log_dev (logger w) = dev ∧
       length (cur_block w) = Z.to_nat LOGSIZE ∧
       clean w ∧ sized w ∧
       disk_count (dread (disk w) (head w)) = 0 ∧
       ∀ b, refcnt w b = 0.
Proof.
  intros HL Hfit Hd Hcount.
  pose proof (header_fits_ints HL Hfit) as Hints.
  rewrite boot_fresh by done.
  set (l := fresh_logger _ _ _). set (wb := set_logger l (boot d)).
  assert (Hvb : bview wb (head wb)
                = dread d (to_uint dev, to_uint (to_int (sb_logstart sb)))).
  { unfold wb. by rewrite boot_clean. }
  set (hb := dread d _) in *.
  assert (Hhb : length hb = block_ints) by by apply sized_dread.
  destruct (recover_run wb) as (w & Hr & Hc & Hu & Hl & Hdw & _).
  { apply boot_clean. }
  { apply clean_uniform. by apply boot_sized. }
  { done. }
  { done. }
  { unfold cur_block. simpl. apply length_replicate. }
  { by rewrite Hvb. }
  rewrite Hvb in Hl.
  exists w. split; [done|]. rewrite Hl. simpl.
  split; [done|]. split; [done|]. split; [done|]. split; [done|].
  split.
  { unfold cur_block. rewrite Hl. simpl. rewrite length_app, length_drop.
    unfold disk_entries. rewrite length_take, length_drop.
    replace (length (cur_block wb)) with (Z.to_nat LOGSIZE)
      by (symmetry; apply length_replicate).
    lia. }
  split; [done|].
  split; [apply (recover_from_log_sized wb); [by apply boot_sized|done]|].
  split.
  { simpl in Hdw. unfold head. rewrite Hl. simpl.
    change (head_id l) with (head wb). rewrite Hdw, dread_insert, decide_True by done.
    apply disk_count_cleared.
    assert (Hx : length (bview w (head wb)) = block_ints) by apply Hu.
    rewrite Hc, Hdw, dread_insert, decide_True, length_insert in Hx by done.
    rewrite Hx. lia. }
  intros b. rewrite (recover_refcnt _ _ Hr). done.
Qed.
(** ** The lock *)

Lemma lock_run_app (st : lock_state) (tr1 tr2 : list event) :
  lock_run st (tr1 ++ tr2) = lock_run st tr1 ≫= fun st' => lock_run st' tr2.
Proof.
  revert st. induction tr1 as [|e tr1 IH]; intros st; [done|].
  simpl. destruct (lock_step st e); [apply IH|done].
Qed.

Lemma lock_run_io (s : nat) (tr : list event) :
  Forall is_io tr → lock_run (mkLock false s) tr = Some (mkLock false s).
Proof. induction 1 as [|e tr He _ IH]; [done|]. by destruct e. Qed.

Lemma lock_of_app (w w' : world) (tr : list event) :
  trace w' = trace w ++ tr →
  lock_of w' = lock_of w ≫= fun st => lock_run st tr.
Proof. intros H. unfold lock_of. by rewrite H, lock_run_app. Qed.

Lemma io_only_refl (w w' : world) : trace w' = trace w → io_only w w'.
Proof. intros H. exists []. by rewrite app_nil_r. Qed.

Lemma io_only_trans (w1 w2 w3 : world) : io_only w1 w2 → io_only w2 w3 → io_only w1 w3.
Proof.
  intros (tr1 & H1 & F1) (tr2 & H2 & F2). exists (tr1 ++ tr2).
  split; [by rewrite H2, H1, app_assoc|by apply Forall_app_2].
Qed.

Lemma io_only_step (w w' : world) (tr : list event) :
  trace w' = trace w ++ tr → Forall is_io tr → io_only w w'.
Proof. intros H F. by exists tr. Qed.

Lemma for_loop_io_only (body : Z → world → outcome world) (k : nat) (i : Z) (w w' : world) :
  (∀ j w0 w1, body j w0 = Done w1 → io_only w0 w1) →
  for_loop k i body w = Done w' → io_only w w'.
Proof.
  intros Hb. apply (for_loop_preserves (io_only w)).
  - intros j w0 w1 H0 H1. eapply io_only_trans; [done|]. by eapply Hb.
  - by apply io_only_refl.
Qed.

Lemma write_log_io_only (w w' : world) : write_log w = Done w' → io_only w w'.
Proof.
  apply for_loop_io_only. intros j w0 w1. unfold write_log_body.
  intros (h & _ & [= <-])%bind_Done_inv.
  eapply io_only_step; [by obs|]. by repeat constructor.
Qed.

Lemma install_trans_io_only (r : Z) (w w' : world) :
  install_trans r w = Done w' → io_only w w'.
Proof.
  apply for_loop_io_only. intros j w0 w1. unfold install_trans_body.
  intros (h & _ & [= <-])%bind_Done_inv.
  destruct (r =? 0).
  - eapply io_only_step; [by obs|]. by repeat constructor.
  - eapply io_only_step; [by obs|]. by repeat constructor.
Qed.

Lemma set_data_int_trace (b : blockid) (i v : Z) (w w' : world) :
  set_data_int b i v w = Done w' → trace w' = trace w.
Proof. unfold set_data_int. intros (d & _ & [= <-])%bind_Done_inv. by obs. Qed.

Lemma write_head_io_only (w w' : world) : write_head w = Done w' → io_only w w'.
Proof.
  unfold write_head.
  intros (w1 & H1 & (w2 & H2 & [= <-])%bind_Done_inv)%bind_Done_inv.
  apply set_data_int_trace in H1.
  apply (for_loop_preserves (fun w0 => trace w0 = trace w)) in H2.
  - eapply io_only_step; [obs; by rewrite H2|]. by repeat constructor.
  - intros j w0 w3 H0. unfold write_head_body.
    intros (v & _ & H3)%bind_Done_inv. apply set_data_int_trace in H3. congruence.
  - rewrite H1. by obs.
Qed.

Lemma read_head_trace (w w' : world) : read_head w = Done w' → trace w' = trace w.
Proof.
  unfold read_head.
  intros (n & _ & (w2 & H2 & [= <-])%bind_Done_inv)%bind_Done_inv.
  apply (for_loop_preserves (fun w0 => trace w0 = trace w)) in H2.
  - by obs.
  - intros j w0 w3 H0. unfold read_head_body.
    intros (v & _ & (bl & _ & [= <-])%bind_Done_inv)%bind_Done_inv. done.
  - by obs.
Qed.

Lemma commit_io_only (w w' : world) : commit w = Done w' → io_only w w'.
Proof.
  unfold commit. destruct (0 <? cur_n w); [|intros [= <-]; by apply io_only_refl].
  intros (w1 & H1 & (w2 & H2 & (w3 & H3 & H4)%bind_Done_inv)%bind_Done_inv)%bind_Done_inv.
  apply write_log_io_only in H1. apply write_head_io_only in H2.
  apply install_trans_io_only in H3. apply write_head_io_only in H4.
  eapply io_only_trans; [exact H1|]. eapply io_only_trans; [exact H2|].
  eapply io_only_trans; [exact H3|]. exact H4.
Qed.

Lemma recover_io_only (w w' : world) : recover_from_log w = Done w' → io_only w w'.
Proof.
  unfold recover_from_log.
  intros (w1 & H1 & (w2 & H2 & H3)%bind_Done_inv)%bind_Done_inv.
  apply read_head_trace in H1. apply install_trans_io_only in H2.
  apply write_head_io_only in H3.
  eapply io_only_trans; [by apply io_only_refl|].
  eapply io_only_trans; [exact H2|]. exact H3.
Qed.

Lemma lock_of_io_only (w w' : world) (s : nat) :
  io_only w w' → lock_of w = lock_free s → lock_of w' = lock_free s.
Proof.
  intros (tr & Ht & F) H. rewrite (lock_of_app w w' tr Ht), H. simpl.
  by apply lock_run_io.
Qed.

(** The loop of [begin_op], entered by a caller who holds the lock: one who
    has just acquired it, or one who has come back from [sleep]. *)
Lemma begin_op_loop_lock (s : nat) (wakes : list (world → world)) (w : world) :
  lock_of w = Some (mkLock true s) ∨ lock_of w = lock_free (S s) →
  Forall (quiet_wake s) wakes →
  (∀ w', begin_op_loop wakes w = Entered w' → lock_of w' = lock_free s) ∧
  (∀ w', begin_op_loop wakes w = Asleep w' → lock_of w' = lock_free (S s)).
Proof.
  intros Hw Hq.
  assert (Hsleep : ∀ w0, lock_of w0 = Some (mkLock true s) ∨ lock_of w0 = lock_free (S s) →
                         lock_of (emit EvSleep w0) = lock_free (S s)).
  { intros w0 H0. rewrite (lock_of_app w0 _ [EvSleep]) by apply emit_trace.
    by destruct H0 as [-> | ->]. }
  assert (Henter : ∀ w0 l, lock_of w0 = Some (mkLock true s) ∨ lock_of w0 = lock_free (S s) →
                           lock_of (emit EvRelease (set_logger l w0)) = lock_free s).
  { intros w0 l H0. rewrite (lock_of_app w0 _ [EvRelease]) by (by obs).
    by destruct H0 as [-> | ->]. }
  revert w Hw. induction Hq as [|f wakes Hf _ IH]; intros w Hw.
  - simpl. unfold begin_op_pass.
    destruct (negb _); [|destruct (_ <? _)]; (split; intros w' [= <-]); auto.
  - simpl. unfold begin_op_pass.
    destruct (negb _); [|destruct (_ <? _)].
    + apply IH. right. apply Hf. auto.
    + apply IH. right. apply Hf. auto.
    + split; intros w' [= <-]. auto.
Qed.

(** X12.  The lock of the log is taken and given back in turn, and no block
    is written while it is held.  Started with the lock free, [log_write]
    and [end_op] return with the lock free, having acquired it only when it
    was free and released it only when it was held; [end_op] releases the
    lock before it calls [commit] and takes it again afterwards.
    [begin_op] acquires the lock once, calls [sleep] only while it holds
    the lock, and releases it when it admits the caller, however often the
    caller has slept before, provided that what runs during each sleep
    leaves the lock free; a caller who is still asleep does not hold the
    lock.  [commit] and [recover_from_log] never touch the lock, never
    sleep and never wake anyone. *)
Theorem lock_discipline (w : world) (s : nat) :
  lock_of w = lock_free s →
  (∀ b w', log_write b w = Done w' → lock_of w' = lock_free s) ∧
  (∀ w', end_op w = Done w' → lock_of w' = lock_free s) ∧
  (∀ wakes, Forall (quiet_wake s) wakes →
     (∀ w', begin_op wakes w = Entered w' → lock_of w' = lock_free s) ∧
     (∀ w', begin_op wakes w = Asleep w' → lock_of w' = lock_free (S s))) ∧
  (∀ w', commit w = Done w' → io_only w w') ∧
  (∀ w', recover_from_log w = Done w' → io_only w w').
Proof.
  intros Hfree. split; [|split; [|split; [|split]]].
  - intros b w'. unfold log_write. destruct (_ || _); [done|]. destruct (_ <? _); [done|].
    intros (i & _ & (bl & _ & [= <-])%bind_Done_inv)%bind_Done_inv.
    destruct (i =? _).
    + rewrite (lock_of_app w _ [EvAcquire; EvBpin b; EvRelease]) by (by obs).
      by rewrite Hfree.
    + rewrite (lock_of_app w _ [EvAcquire; EvRelease]) by (by obs).
      by rewrite Hfree.
  - intros w'. unfold end_op. simpl.
    destruct (log_committing (logger w) =? 0); [|done]. simpl.
    destruct (to_int (log_outstanding (logger w) - 1) =? 0); simpl.
    + intros (w2 & H2 & [= <-])%bind_Done_inv.
      apply commit_io_only in H2 as (tr & H2 & F). simpl in H2.
      rewrite (lock_of_app w _ ([EvAcquire; EvRelease] ++ tr ++
                                [EvAcquire; EvWakeup; EvRelease])).
      * rewrite Hfree. simpl. rewrite lock_run_app, lock_run_io by done. done.
      * simpl. rewrite H2, <- !app_assoc. done.
    + intros [= <-].
      rewrite (lock_of_app w _ [EvAcquire; EvWakeup; EvRelease])
        by (simpl; by rewrite <- !app_assoc).
      by rewrite Hfree.
  - intros wakes Hq. unfold begin_op. apply begin_op_loop_lock; [|done].
    left. erewrite lock_of_app; [|apply emit_trace]. by rewrite Hfree.
  - intros w'. apply commit_io_only.
  - intros w'. apply recover_io_only.
Qed.

(** ** Room for what was reserved *)

Lemma log_write_all_run (bs : list blockid) (w : world) :
  is_int (log_size (logger w) - 1) → LOGSIZE <= log_size (logger w) - 1 →
  1 <= log_outstanding (logger w) → LOGSIZE <= int_max →
  0 <= cur_n w → cur_n w + Z.of_nat (length bs) <= LOGSIZE →
  length (cur_block w) = Z.to_nat LOGSIZE →
  ∃ w', log_write_all bs w = Done w' ∧
        cur_n w <= cur_n w' <= cur_n w + Z.of_nat (length bs) ∧
        log_outstanding (logger w') = log_outstanding (logger w) ∧
        disk w' = disk w.
Proof.
  revert w. induction bs as [|b bs IH]; intros w Hsz Hbig Hout HL Hn0 Hroom Hlen.
  - exists w. simpl. repeat split; lia.
  - simpl in Hroom.
    destruct (log_write_run b w)
      as (r & w1 & Hlw & Hr & _ & _ & Hd1 & _ & Hb1 & Hl1 & Hhit & Hmiss); try done.
    { unfold log_write_fatal, cur_n in *. lia. }
    assert (Hn1 : cur_n w <= cur_n w1 <= cur_n w + 1).
    { destruct (decide (r = cur_n w)) as [->|Hne].
      - destruct Hmiss as [-> _]; [done|lia].
      - destruct Hhit as [-> _]; lia. }
    assert (Hs1 : log_size (logger w1) = log_size (logger w)) by (by rewrite Hl1).
    assert (Ho1 : log_outstanding (logger w1) = log_outstanding (logger w)) by (by rewrite Hl1).
    destruct (IH w1) as (w' & Hall & Hn' & Ho' & Hd').
    { by rewrite Hs1. }
    { by rewrite Hs1. }
    { by rewrite Ho1. }
    { done. }
    { lia. }
    { lia. }
    { by rewrite Hb1, length_insert. }
    exists w'. simpl. rewrite Hlw. simpl. split; [done|].
    split; [lia|]. split; [congruence|congruence].
Qed.

(** X13.  The reservation is enough.  A caller whom [begin_op] has just
    admitted can record up to [MAXOPBLOCKS] blocks with [log_write], one
    after the other, and no call aborts: the test of [begin_op] left room
    for them.  (The log region on disk is larger than [LOGSIZE] blocks, and
    the reservation was computed without overflow.) *)
Theorem reservation_suffices (bs : list blockid) (ws w : world) :
  begin_op_pass ws = Entered w → reservation_in_range (logger ws) →
  0 <= cur_n ws → 0 <= log_outstanding (logger ws) → 1 <= MAXOPBLOCKS →
  LOGSIZE <= int_max → LOGSIZE < log_size (logger ws) <= int_max →
  length (cur_block ws) = Z.to_nat LOGSIZE →
  Z.of_nat (length bs) <= MAXOPBLOCKS →
  ∃ w', log_write_all bs w = Done w' ∧
        cur_n ws <= cur_n w' <= cur_n ws + Z.of_nat (length bs) ∧
        cur_n w' <= LOGSIZE ∧ disk w' = disk ws.
Proof.
  intros Hp Hrange Hn0 Ho0 HM HL Hsize Hlen Hbs.
  destruct (begin_op_pass_Entered ws w Hp) as (_ & -> & Hres).
  destruct (Hres Hrange) as [Hle Hout]. unfold reservation in Hle. fold (cur_n ws) in Hle.
  set (w1 := emit EvRelease _) in *.
  assert (Hl1 : logger w1
                = set_outstanding (to_int (log_outstanding (logger ws) + 1)) (logger ws))
    by done.
  assert (Hroom : cur_n ws + MAXOPBLOCKS <= LOGSIZE) by nia.
  destruct (log_write_all_run bs w1) as (w' & Hall & Hn' & _ & Hd').
  - rewrite Hl1. simpl. unfold is_int, int_min. lia.
  - rewrite Hl1. simpl. lia.
  - rewrite Hout. lia.
  - done.
  - unfold cur_n. rewrite Hl1. simpl. done.
  - unfold cur_n. rewrite Hl1. simpl. fold (cur_n ws). lia.
  - unfold cur_block. rewrite Hl1. done.
  - assert (Hn1 : cur_n w1 = cur_n ws) by (unfold cur_n; by rewrite Hl1).
    rewrite Hn1 in Hn'.
    exists w'. split; [done|]. split; [done|]. split; [lia|]. done.
Qed.

(** ** The header as a set of block numbers *)

(** X14.  [log_write] adds a block number to the header as to a set.  When
    the block numbers of the open transaction are pairwise distinct, they
    are so after [log_write], and the block numbers logged afterwards are
    those logged before and the number of the buffer. *)
Theorem log_write_no_duplicates (b : blockid) (w : world) :
  is_int (log_size (logger w) - 1) → ¬ log_write_fatal (logger w) →
  0 <= cur_n w → LOGSIZE <= int_max → length (cur_block w) = Z.to_nat LOGSIZE →
  0 <= b.2 < 4294967296 → NoDup (to_uint <$> entries w) →
  ∃ w', log_write b w = Done w' ∧ NoDup (to_uint <$> entries w') ∧
        ∀ x, logged w' x ↔ logged w x ∨ x = b.2.
Proof.
  intros Hsz Hnf Hn0 HL Hlen Hb Hnd.
  assert (Hlt : cur_n w < LOGSIZE) by (unfold log_write_fatal, cur_n in *; lia).
  assert (Hu : to_uint (to_int b.2) = b.2).
  { rewrite to_uint_to_int. unfold to_uint. apply Z.mod_small. lia. }
  destruct (log_write_run b w)
    as (r & w' & Hlw & Hr & Hbefore & Hat & _ & _ & Hbl & _ & Hhit & Hmiss); try done.
  exists w'. split; [done|].
  destruct (decide (r = cur_n w)) as [->|Hne].
  - destruct Hmiss as [Hn' _]; [done|].
    assert (He : entries w' = entries w ++ [to_int b.2]).
    { unfold entries. rewrite Hn', Hbl.
      replace (Z.to_nat (cur_n w + 1)) with (S (Z.to_nat (cur_n w))) by lia.
      rewrite (take_S_r _ _ (to_int b.2)) by (apply list_lookup_insert_eq; lia).
      by rewrite take_insert_ge by lia. }
    assert (Hnew : ¬ logged w b.2).
    { intros (j & Hj & Hjx)%logged_iff; [|lia|lia]. by apply (Hbefore j). }
    unfold logged in *. rewrite He, fmap_app. simpl. rewrite Hu. split.
    + apply NoDup_app. split; [done|]. split; [|apply NoDup_singleton].
      intros x Hx ->%list_elem_of_singleton. done.
    + intros x. rewrite elem_of_app, list_elem_of_singleton. done.
  - destruct Hhit as [Hn' _]; [lia|].
    destruct (lookup_lt_is_Some_2 (cur_block w) (Z.to_nat r)) as [h Hh]; [lia|].
    assert (Hhx : to_uint h = b.2).
    { specialize (Hat ltac:(lia)). unfold entry in Hat. by rewrite Hh in Hat. }
    assert (He : to_uint <$> entries w' = to_uint <$> entries w).
    { unfold entries. rewrite Hn', Hbl, take_insert_lt by lia.
      rewrite list_fmap_insert. apply list_insert_id.
      rewrite list_lookup_fmap, lookup_take_lt by lia. rewrite Hh. simpl.
      by rewrite Hu, Hhx. }
    unfold logged. rewrite He. split; [done|].
    intros x. split; [by left|]. intros [Hx| ->]; [done|].
    apply list_elem_of_fmap. exists h. split; [done|].
    apply list_elem_of_lookup. exists (Z.to_nat r). unfold entries.
    by rewrite lookup_take_lt by lia.
Qed.

(** ** Panics *)

(** X15.  The panics of log.c, each with its cause, in both directions.
    [initlog] panics exactly when the header does not fit in a block, with
    one message, before it touches the log.  [log_write] panics with
    "too big a transaction" exactly when the header is full or holds as
    many blocks as the log region has slots, and with
    "log_write outside of trans" exactly when there is room and no
    operation is open: it tests the room before it tests whether the
    caller is inside an operation, so when both tests fail the message is
    that of the first.  [end_op] panics exactly when a commit is in
    progress, at its entry.  These are the only panics: [commit] and
    [recover_from_log] never panic. *)
Theorem panic_messages :
  (∀ dev sb w msg, initlog dev sb w = Panic msg →
     msg = "initlog: too big logheader" ∧ BSIZE <= sizeof_logheader) ∧
  (∀ dev sb w, BSIZE <= sizeof_logheader →
     initlog dev sb w = Panic "initlog: too big logheader") ∧
  (∀ b w msg, log_write b w = Panic msg →
     (msg = "too big a transaction" ∧
      (LOGSIZE <= cur_n w ∨ to_int (log_size (logger w) - 1) <= cur_n w)) ∨
     (msg = "log_write outside of trans" ∧
      cur_n w < LOGSIZE ∧ cur_n w < to_int (log_size (logger w) - 1) ∧
      log_outstanding (logger w) < 1)) ∧
  (∀ b w, LOGSIZE <= cur_n w ∨ to_int (log_size (logger w) - 1) <= cur_n w →
     log_write b w = Panic "too big a transaction") ∧
  (∀ b w, cur_n w < LOGSIZE → cur_n w < to_int (log_size (logger w) - 1) →
     log_outstanding (logger w) < 1 →
     log_write b w = Panic "log_write outside of trans") ∧
  (∀ w msg, end_op w = Panic msg →
     msg = "logger.committing" ∧ log_committing (logger w) ≠ 0) ∧
  (∀ w, log_committing (logger w) ≠ 0 → end_op w = Panic "logger.committing") ∧
  (∀ w, ¬ is_panic (commit w)) ∧
  (∀ w, ¬ is_panic (recover_from_log w)).
Proof.
  assert (Hcommit : ∀ w, ¬ is_panic (commit w)).
  { intros w. unfold commit. destruct (0 <? cur_n w); [|by intros []].
    apply bind_no_panic; [apply for_loop_no_panic|].
    { intros j w'. unfold write_log_body.
      apply bind_no_panic; [apply arr_get_no_panic|by intros ? []]. }
    intros w1. apply bind_no_panic; [apply write_head_no_panic|].
    intros w2. apply bind_no_panic; [apply install_trans_no_panic|].
    intros w3. apply write_head_no_panic. }
  repeat apply conj.
  - intros dev sb w msg. unfold initlog.
    destruct (Z.leb_spec BSIZE sizeof_logheader) as [H|H].
    + by intros [= <-].
    + intros Hp. exfalso. apply (recover_from_log_no_panic (set_logger
        (mkLog (to_int (sb_logstart sb)) (to_int (sb_nlog sb))
               (log_outstanding (logger w)) (log_committing (logger w)) dev
               (log_lh (logger w))) w)).
      by rewrite Hp.
  - intros dev sb w H. unfold initlog.
    destruct (Z.leb_spec BSIZE sizeof_logheader); [done|lia].
  - intros b w msg. unfold log_write. rewrite emit_cur_n, emit_logger, emit_cur_block.
    destruct (Z.leb_spec LOGSIZE (cur_n w)) as [H1|H1]; simpl.
    { intros [= <-]. left. split; [done|]. by left. }
    destruct (Z.leb_spec (to_int (log_size (logger w) - 1)) (cur_n w)) as [H2|H2]; simpl.
    { intros [= <-]. left. split; [done|]. by right. }
    destruct (Z.ltb_spec (log_outstanding (logger w)) 1) as [H3|H3].
    { intros [= <-]. right. done. }
    intros Hp. exfalso.
    destruct (log_scan _ _ _ _) as [i|m|] eqn:Es; simpl in Hp;
      [|by pose proof (log_scan_no_panic (Z.to_nat (cur_n w)) 0 (cur_block w) b.2) as Hx;
          rewrite Es in Hx; apply Hx|done].
    destruct (arr_set _ _ _) as [bl|m|] eqn:Ea; simpl in Hp;
      [done|by apply arr_set_not_Panic in Ea|done].
  - intros b w H. unfold log_write. rewrite emit_cur_n, emit_logger.
    destruct (Z.leb_spec LOGSIZE (cur_n w)); simpl; [done|].
    destruct (Z.leb_spec (to_int (log_size (logger w) - 1)) (cur_n w)); simpl; [done|lia].
  - intros b w H1 H2 H3. unfold log_write. rewrite emit_cur_n, emit_logger.
    destruct (Z.leb_spec LOGSIZE (cur_n w)); simpl; [lia|].
    destruct (Z.leb_spec (to_int (log_size (logger w) - 1)) (cur_n w)); simpl; [lia|].
    destruct (Z.ltb_spec (log_outstanding (logger w)) 1); [done|lia].
  - intros w msg. unfold end_op. simpl.
    destruct (Z.eqb_spec (log_committing (logger w)) 0) as [Hc|Hc]; simpl.
    + destruct (to_int (log_outstanding (logger w) - 1) =? 0); simpl; [|done].
      intros Hp. exfalso.
      destruct (commit _) as [w2|m|] eqn:Ec; simpl in Hp; [done| |done].
      eapply Hcommit. by rewrite Ec.
    + by intros [= <-].
  - intros w Hc. unfold end_op. simpl.
    destruct (Z.eqb_spec (log_committing (logger w)) 0); simpl; [lia|done].
  - exact Hcommit.
  - apply recover_from_log_no_panic.
Qed.
(** ** Well-formed states *)

Lemma well_formed_header_ok (w : world) : well_formed w → header_ok (logger w).
Proof.
  intros (Hg & Hn & Hlen & Hfar & _). unfold header_ok.
  split; [done|]. split; [done|].
  eapply Forall_impl; [exact Hfar|]. intros h Hh. unfold outside_log, cur_n in *.
  simpl in Hh. lia.
Qed.

Lemma well_formed_logger (w w' : world) :
  well_formed w → sized w' →
  log_start (logger w') = log_start (logger w) →
  cur_n w' = cur_n w → cur_block w' = cur_block w →
  well_formed w'.
Proof.
  intros (Hg & Hn & Hlen & Hfar & Hs & Hfit) Hs' Hst Hn' Hb'.
  unfold well_formed, geometry_ok, entries in *. rewrite Hst, Hn', Hb'. done.
Qed.

Lemma well_formed_empty (w w' : world) :
  well_formed w → sized w' →
  log_start (logger w') = log_start (logger w) →
  cur_n w' = 0 → cur_block w' = cur_block w →
  well_formed w'.
Proof.
  intros (Hg & Hn & Hlen & Hfar & Hs & Hfit) Hs' Hst Hn' Hb'.
  unfold well_formed, geometry_ok, entries in *. rewrite Hst, Hn', Hb'.
  split; [done|]. split; [lia|]. split; [done|]. split; [by rewrite take_0|]. done.
Qed.

Lemma well_formed_insert (w w' : world) (r v : Z) :
  well_formed w → sized w' →
  log_start (logger w') = log_start (logger w) →
  cur_block w' = <[Z.to_nat r := v]> (cur_block w) →
  to_uint v < log_start (logger w) ∨ log_start (logger w) + LOGSIZE < to_uint v →
  (0 <= r < cur_n w ∧ cur_n w' = cur_n w) ∨
  (r = cur_n w ∧ cur_n w' = cur_n w + 1 ∧ cur_n w < LOGSIZE) →
  well_formed w'.
Proof.
  intros (Hg & Hn & Hlen & Hfar & Hs & Hfit) Hs' Hst Hb' Hv Hcases.
  unfold well_formed, geometry_ok, entries in *. rewrite Hst, Hb'.
  split; [done|].
  destruct Hcases as [[Hr ->]|(-> & -> & Hlt)].
  - split; [done|]. split; [by rewrite length_insert|]. split; [|done].
    rewrite take_insert_lt by lia. by apply Forall_insert.
  - split; [lia|]. split; [by rewrite length_insert|]. split; [|done].
    replace (Z.to_nat (cur_n w + 1)) with (S (Z.to_nat (cur_n w))) by lia.
    rewrite (take_S_r _ _ v) by (apply list_lookup_insert_eq; lia).
    rewrite take_insert_ge by lia. apply Forall_app_2; [done|]. by constructor.
Qed.

Lemma log_write_safe (b : blockid) (w : world) :
  0 <= cur_n w <= LOGSIZE → length (cur_block w) = Z.to_nat LOGSIZE →
  LOGSIZE <= int_max →
  is_panic (log_write b w) ∨
  ∃ r w', log_write b w = Done w' ∧ 0 <= r <= cur_n w ∧ cur_n w < LOGSIZE ∧
          cur_block w' = <[Z.to_nat r := to_int b.2]> (cur_block w) ∧
          ((r < cur_n w ∧ cur_n w' = cur_n w) ∨ (r = cur_n w ∧ cur_n w' = cur_n w + 1)) ∧
          log_start (logger w') = log_start (logger w) ∧
          (sized w → sized w').
Proof.
  intros Hn Hlen HL.
  destruct (log_write b w) as [w'|m|] eqn:E; [|by left|]; cycle 1.
  { exfalso. revert E. unfold log_write. rewrite emit_cur_n, emit_logger, emit_cur_block.
    destruct (Z.leb_spec LOGSIZE (cur_n w)); [done|].
    destruct (_ <=? _); [done|]. simpl. destruct (_ <? _); [done|].
    destruct (log_scan_spec (Z.to_nat (cur_n w)) 0 (cur_block w) b.2)
      as (r & -> & Hb & _); [lia|lia|]. simpl.
    rewrite arr_set_Done by lia. done. }
  right. pose proof E as E'. revert E'.
  unfold log_write. rewrite emit_cur_n, emit_logger, emit_cur_block.
  destruct (Z.leb_spec LOGSIZE (cur_n w)); [done|].
  destruct (_ <=? _); [done|]. simpl. destruct (_ <? _); [done|].
  destruct (log_scan_spec (Z.to_nat (cur_n w)) 0 (cur_block w) b.2)
    as (r & -> & Hb & _); [lia|lia|]. simpl.
  rewrite arr_set_Done by lia. simpl. rewrite cur_n_set_block. fold (cur_n w).
  intros Hw. exists r, w'. split; [done|]. split; [lia|]. split; [lia|].
  destruct (Z.eqb_spec r (cur_n w)) as [->|Hne]; injection Hw as <-.
  - split; [done|]. split.
    + right. split; [done|]. unfold cur_n. simpl. obs. fold (cur_n w).
      apply to_int_id. unfold is_int, int_min. lia.
    + split; [done|]. intros Hs. by apply emit_sized, set_logger_sized, bpin_sized.
  - split; [done|]. split; [left; split; [lia|done]|]. split; [done|]. done.
Qed.

Lemma commit_well_formed (w : world) :
  well_formed w →
  ∃ w', commit w = Done w' ∧ well_formed w' ∧
        logger w' = set_n 0 (logger w) ∧
        (0 < cur_n w →
         ∀ j, 0 <= j < cur_n w → dread (disk w') (home w j) = bview w (home w j)).
Proof.
  intros Hwf. pose proof Hwf as (Hg & Hn & Hlen & Hfar & Hs & Hfit).
  destruct (decide (cur_n w = 0)) as [Hz|Hnz].
  - exists w. unfold commit. rewrite Hz. split; [done|]. split; [done|]. split; [|lia].
    unfold set_n, set_lh. unfold cur_n in Hz. rewrite <- Hz.
    by destruct (logger w) as [? ? ? ? ? []].
  - pose proof (well_formed_header_ok w Hwf) as Hh.
    destruct (commit_run w) as (w' & Hc & Hl & _ & Hd & _); [lia|done..|].
    exists w'. split; [done|]. split; [|split; [done|]].
    + apply (well_formed_empty w);
        [done|by apply (commit_sized w)|unfold cur_n, cur_block; by rewrite Hl..].
    + intros _ j Hj. by rewrite Hd, dread_replay, commit_last_write_home.
Qed.

(** X16.  The log manager keeps its state well formed, and in a well-formed
    state it never leaves the bounds of the header array.  [initlog] on a
    disk that holds a log within bounds returns in a well-formed state.
    From a well-formed state, a pass of [begin_op] leaves a well-formed
    state; recording a block outside the log region returns in a
    well-formed state or panics; [end_op] returns in a well-formed state or
    panics; [commit] returns with an empty log. *)
Theorem well_formed_kept :
  (∀ dev sb d,
     geometry_ok (fresh_logger dev (to_int (sb_logstart sb)) (to_int (sb_nlog sb))) →
     sizeof_logheader < BSIZE →
     map_Forall (fun _ blk => length blk = block_ints) d →
     disk_count (dread d (to_uint dev, to_uint (to_int (sb_logstart sb)))) <= LOGSIZE →
     ∃ w, initlog dev sb (boot d) = Done w ∧ well_formed w) ∧
  (∀ w, well_formed w →
     well_formed (admission_world (begin_op_pass w)) ∧
     (∀ b d, loggable (logger w) b → length d = block_ints →
        is_panic (logged_update b d w) ∨
        ∃ w', logged_update b d w = Done w' ∧ well_formed w') ∧
     (is_panic (end_op w) ∨ ∃ w', end_op w = Done w' ∧ well_formed w') ∧
     (∃ w', commit w = Done w' ∧ well_formed w' ∧ cur_n w' = 0)).
Proof.
  assert (Hcommit : ∀ w, well_formed w →
            ∃ w', commit w = Done w' ∧ well_formed w' ∧ cur_n w' = 0).
  { intros w Hwf. destruct (commit_well_formed w Hwf) as (w' & Hc & Hwf' & Hl & _).
    exists w'. split; [done|]. split; [done|]. unfold cur_n. by rewrite Hl. }
  split.
  - intros dev sb d Hg Hfit Hd Hcount. pose proof Hg as (HL & _).
    rewrite boot_fresh by done.
    set (l := fresh_logger _ _ _) in *. set (wb := set_logger l (boot d)).
    assert (Hvb : bview wb (head wb)
                  = dread d (to_uint dev, to_uint (to_int (sb_logstart sb)))).
    { unfold wb. by rewrite boot_clean. }
    destruct (recover_run wb) as (w & Hr & _ & _ & Hl & _).
    { apply boot_clean. }
    { apply clean_uniform. by apply boot_sized. }
    { done. }
    { done. }
    { unfold cur_block. simpl. apply length_replicate. }
    { by rewrite Hvb. }
    exists w. split; [done|].
    assert (Hs : sized w).
    { apply (recover_from_log_sized wb); [by apply boot_sized|done]. }
    unfold well_formed, entries, cur_n, cur_block. rewrite Hl. simpl.
    split; [done|]. split; [lia|]. split.
    + rewrite Hvb. set (hb := dread d _) in *.
      pose proof (header_fits_ints HL Hfit) as Hints.
      assert (Hhb : length hb = block_ints) by by apply sized_dread.
      rewrite length_app, length_drop. unfold disk_entries.
      rewrite length_take, length_drop.
      replace (length (cur_block wb)) with (Z.to_nat LOGSIZE)
        by (symmetry; apply length_replicate).
      lia.
    + done.
  - intros w Hwf. pose proof Hwf as (Hg & Hn & Hlen & Hfar & Hs & Hfit).
    pose proof Hg as (HL & Hs0 & Hs1).
    split; [|split; [|split]].
    + destruct (begin_op_pass_logger w) as [_ Hn'].
      unfold begin_op_pass in *. destruct (negb _); simpl; [by apply Hwf|].
      destruct (_ <? _); simpl; [by apply Hwf|].
      by apply (well_formed_logger w).
    + intros b d (Hb & Hout) Hd. unfold logged_update.
      set (wa := set_data b d (bread b w)).
      assert (Hsa : sized wa) by (by apply set_data_sized, bread_sized).
      assert (Hna : cur_n wa = cur_n w) by (unfold wa; by obs).
      assert (Hba : cur_block wa = cur_block w) by (unfold wa; by obs).
      assert (Hla : log_start (logger wa) = log_start (logger w)) by (unfold wa; by obs).
      destruct (log_write_safe b wa)
        as [Hp|(r & w1 & Hlw & Hr & Hlt & Hb1 & Hn1 & Hst1 & Hs1')].
      { by rewrite Hna. }
      { by rewrite Hba. }
      { lia. }
      { left. by destruct (log_write b wa). }
      right. rewrite Hlw. simpl. eexists. split; [reflexivity|].
      rewrite Hna, Hba in *.
      assert (Hu : to_uint (to_int b.2) = b.2).
      { rewrite to_uint_to_int. unfold to_uint. apply Z.mod_small. lia. }
      apply (well_formed_insert w _ r (to_int b.2)).
      * done.
      * by apply brelse_sized, Hs1'.
      * by rewrite brelse_logger, Hst1.
      * by rewrite brelse_cur_block.
      * by rewrite Hu.
      * rewrite brelse_cur_n. destruct Hn1 as [[Hrn ->]|[-> ->]]; [left|right]; lia.
    + destruct (decide (log_committing (logger w) = 0)) as [Hc|Hc]; cycle 1.
      { left. unfold end_op. simpl.
        by destruct (Z.eqb_spec (log_committing (logger w)) 0). }
      right.
      destruct (decide (to_int (log_outstanding (logger w) - 1) = 0)) as [Ho|Ho].
      * rewrite end_op_last by done.
        destruct (Hcommit (committing_world w)) as (w2 & Hc2 & Hwf2 & Hn2).
        { by apply (well_formed_logger w). }
        rewrite Hc2. simpl. eexists. split; [reflexivity|].
        apply (well_formed_logger w2); try done. by destruct Hwf2 as (_ & _ & _ & _ & ? & _).
      * unfold end_op. simpl.
        destruct (Z.eqb_spec (log_committing (logger w)) 0); [|done]. simpl.
        destruct (Z.eqb_spec (to_int (log_outstanding (logger w) - 1)) 0); [done|]. simpl.
        eexists. split; [reflexivity|]. by apply (well_formed_logger w).
    + by apply Hcommit.
Qed.
(** ** The header block as [write_head] lays it out *)

(** X17.  The layout of the header block.  [write_head] writes one block,
    the header block: int 0 is the count, ints 1 to [n] are the block
    numbers of the [n] entries, in order, and the rest of the block is what
    it was. *)
Theorem write_head_layout (w : world) :
  0 <= cur_n w → (Z.to_nat (cur_n w) ≤ length (cur_block w))%nat →
  (Z.to_nat (cur_n w) < length (bview w (head w)))%nat →
  ∃ w', write_head w = Done w' ∧
    writes_of (trace w') = writes_of (trace w) ++ [(head w, dread (disk w') (head w))] ∧
    dread (disk w') (head w) !! 0%nat = Some (cur_n w) ∧
    (∀ j, 0 <= j < cur_n w →
          dread (disk w') (head w) !! Z.to_nat (1 + j) = Some (entry w j)) ∧
    (∀ i, (Z.to_nat (cur_n w) < i)%nat →
          dread (disk w') (head w) !! i = bview w (head w) !! i) ∧
    (∀ b, b ≠ head w → dread (disk w') b = dread (disk w) b).
Proof.
  intros Hn0 Hn Hlen.
  destruct (write_head_copies w Hn Hlen) as (w' & Hwh & _ & Hd & _ & Ht).
  exists w'. split; [done|].
  assert (Hhb : dread (disk w') (head w)
                = header_image (cur_n w) (cur_block w) (bview w (head w))).
  { by rewrite Hd, dread_insert, decide_True. }
  rewrite Hhb. split; [by rewrite Ht, writes_of_app|]. split; [done|].
  split; [|split].
  - intros j Hj. unfold header_image.
    replace (Z.to_nat (1 + j)) with (S (Z.to_nat j)) by lia. simpl.
    rewrite lookup_app_l by (rewrite length_take; lia).
    rewrite lookup_take_lt by lia. unfold entry.
    destruct (lookup_lt_is_Some_2 (cur_block w) (Z.to_nat j)) as [h Hh]; [lia|].
    by rewrite Hh.
  - intros i Hi. unfold header_image. destruct i as [|i]; [lia|]. simpl.
    rewrite lookup_app_r by (rewrite length_take; lia).
    rewrite length_take, lookup_drop.
    replace (S (Z.to_nat (cur_n w)) + (i - Z.to_nat (cur_n w) `min` length (cur_block w)))%nat
      with (S i) by lia.
    done.
  - intros b Hb. by rewrite Hd, dread_insert, decide_False.
Qed.

(** ** The blocks a commit writes *)

(** X18.  A commit stays inside the log region and the home blocks.  When
    the count is at most the size of the log region less one (the capacity
    invariant), every block that [commit] writes is on the device of the
    log and is either a block of the log region on disk, from [start] to
    [start + size - 1], or the home block of an entry. *)
Theorem commit_stays_in_region (w : world) :
  0 < cur_n w → geometry_ok (logger w) → header_ok (logger w) → sized w →
  sizeof_logheader < BSIZE → cur_n w <= log_size (logger w) - 1 →
  ∃ w', commit w = Done w' ∧
    writes_of (trace w') = writes_of (trace w) ++ writes_of (commit_events w) ∧
    ∀ b d, (b, d) ∈ writes_of (commit_events w) →
      b.1 = to_uint (log_dev (logger w)) ∧
      (log_start (logger w) <= b.2 < log_start (logger w) + log_size (logger w) ∨
       ∃ j, 0 <= j < cur_n w ∧ b = home w j).
Proof.
  intros Hpos Hg Hh Hs Hfit Hcap.
  pose proof Hh as (Hn & _). fold (cur_n w) in Hn.
  destruct (commit_run w) as (w' & Hc & _ & Ht & _); try done.
  exists w'. split; [done|]. split; [by rewrite Ht, writes_of_app|].
  intros b d. rewrite writes_of_commit_events.
  assert (Hhead : (head w).1 = to_uint (log_dev (logger w)) ∧
                  log_start (logger w) <= (head w).2
                  < log_start (logger w) + log_size (logger w)).
  { unfold head. rewrite head_id_eq by done. simpl. split; [done|lia]. }
  rewrite !elem_of_app, !list_elem_of_singleton.
  intros [Hin|[[= -> _]|[Hin|[= -> _]]]].
  - unfold write_log_writes in Hin.
    apply list_elem_of_fmap in Hin as (j & [= -> _] & Hj%elem_of_seqZ).
    unfold slot. rewrite slot_id_eq by (done || lia). simpl. split; [done|]. left. lia.
  - destruct Hhead as [H1 H2]. split; [done|]. by left.
  - unfold install_writes in Hin.
    apply list_elem_of_fmap in Hin as (j & [= -> _] & Hj%elem_of_seqZ).
    split; [done|]. right. exists j. split; [lia|done].
  - destruct Hhead as [H1 H2]. split; [done|]. by left.
Qed.
(** ** Waiting for the commit *)

(** X19.  A caller for whom the log has no room waits for the commit.
    One operation is inside and the reservation of a second caller does not
    fit.  [begin_op] puts the second caller to sleep; while it sleeps the
    first caller leaves with [end_op], which commits and wakes it; the
    loop of [begin_op] tests again and admits the caller, into an empty
    log whose blocks are on disk. *)
Theorem begin_op_waits_for_commit (w : world) :
  well_formed w → log_committing (logger w) = 0 → log_outstanding (logger w) = 1 →
  1 <= MAXOPBLOCKS <= LOGSIZE → LOGSIZE < cur_n w + 2 * MAXOPBLOCKS <= int_max →
  begin_op [] w = Asleep (emit EvSleep (emit EvAcquire w)) ∧
  ∃ w', begin_op [fun w1 => after (end_op w1) w1] w = Entered w' ∧
        cur_n w' = 0 ∧ log_outstanding (logger w') = 1 ∧
        log_committing (logger w') = 0 ∧
        ∀ j, 0 <= j < cur_n w → dread (disk w') (home w j) = bview w (home w j).
Proof.
  intros Hwf Hc Ho HM Hres.
  pose proof Hwf as (Hg & Hn & Hlen & Hfar & Hs & Hfit). pose proof Hg as (HL & _).
  set (w0 := emit EvAcquire w).
  assert (Hp : begin_op_pass w0 = Asleep (emit EvSleep w0)).
  { unfold begin_op_pass. rewrite reservation_int; cycle 1.
    { unfold reservation_in_range, reservation, is_int, int_min, w0. simpl.
      rewrite Ho. fold (cur_n w). lia. }
    unfold reservation, w0. simpl. rewrite Hc, Ho. simpl. fold (cur_n w).
    destruct (Z.ltb_spec LOGSIZE (cur_n w + (1 + 1) * MAXOPBLOCKS)); [done|lia]. }
  split; [unfold begin_op; simpl; fold w0; by rewrite Hp|].
  set (ws := emit EvSleep w0).
  assert (Hwfs : well_formed (committing_world ws)) by (by apply (well_formed_logger w)).
  destruct (commit_well_formed _ Hwfs) as (w2 & Hcm & Hwf2 & Hl2 & Hd2).
  assert (He : end_op ws = Done (commit_done w2)).
  { rewrite end_op_last.
    - by rewrite Hcm.
    - done.
    - unfold ws, w0. simpl. by rewrite Ho. }
  set (w3 := commit_done w2).
  assert (Hidle : idle (logger w3)).
  { unfold w3, commit_done, idle. simpl. rewrite Hl2. simpl. done. }
  eexists. split.
  { unfold begin_op. simpl. fold w0. rewrite Hp. fold ws. rewrite He. simpl. fold w3.
    rewrite begin_op_pass_idle; [reflexivity|done|done|].
    unfold geometry_ok, int_max in *. lia. }
  destruct Hidle as (Hn3 & Ho3 & Hc3).
  split; [done|]. split; [done|]. split; [done|].
  intros j Hj. simpl. apply Hd2; [|done].
  change (cur_n (committing_world ws)) with (cur_n w). lia.
Qed.
(** ** A crash after the commit point, and the next boot *)

Lemma recovery_copies_committed (w : world) (dk : gmap blockid block) :
  geometry_ok (logger w) → header_ok (logger w) →
  dread dk (head w) = committed_header w →
  (∀ j, 0 <= j < cur_n w → dread dk (slot w j) = bview w (home w j)) →
  recovery_copies (logger w) dk = install_writes w.
Proof.
  intros Hg Hh Hhead Hslots.
  pose proof Hh as (Hn & Hlen & _). fold (cur_n w) in Hn. fold (cur_block w) in Hlen.
  unfold recovery_copies, install_writes. fold (head w).
  rewrite Hhead, disk_entries_committed by lia.
  assert (Hle : length (entries w) = Z.to_nat (cur_n w)).
  { unfold entries. rewrite length_take. lia. }
  rewrite Hle, Z2Nat.id by lia.
  apply Forall_fmap_ext_1, Forall_forall. intros j Hj%elem_of_seqZ.
  fold (slot w j). rewrite Hslots by lia.
  unfold home, entry, entries. by rewrite lookup_take_lt by lia.
Qed.

(** X20.  All or nothing, the all.  Let the machine crash when the header
    write of a commit is on disk, at any later point of the commit or
    after it.  The recovery of the next boot returns and leaves every
    block of the disk as the completed commit leaves it. *)
Theorem committed_crash_recovers_new (w : world) (nlog : Z) (k : nat) :
  0 < cur_n w → geometry_ok (logger w) → header_ok (logger w) → sized w →
  sizeof_logheader < BSIZE →
  (Z.to_nat (cur_n w) < k)%nat →
  ∃ w' wr,
    commit w = Done w' ∧ trace w' = trace w ++ commit_events w ∧
    initlog (log_dev (logger w)) (mkSuperblock (log_start (logger w)) nlog)
            (boot (crash_disk (disk w) (commit_events w) k)) = Done wr ∧
    ∀ b, dread (disk wr) b = dread (disk w') b.
Proof.
  intros Hpos Hg Hh Hs Hfit Hk.
  pose proof Hg as (HL & Hs0 & Hs1).
  pose proof Hh as (Hn & Hlen & Hout). fold (cur_n w) in Hn. fold (cur_block w) in Hlen.
  pose proof (header_fits_ints HL Hfit) as Hints.
  destruct (commit_run w) as (w' & Hc & _ & Ht & Hd & _); try done.
  exists w'.
  assert (Hdk : map_Forall (fun _ blk => length blk = block_ints)
                  (crash_disk (disk w) (commit_events w) k)).
  { apply replay_sized; [by destruct Hs|]. by apply Forall_take, commit_writes_sized. }
  rewrite boot_fresh by done. simpl.
  rewrite (to_int_id (log_start (logger w))) by (unfold is_int, int_min; lia).
  set (l := fresh_logger _ _ _).
  assert (Hgl : geometry_ok l) by done.
  assert (Hll : length (lh_block (log_lh l)) = Z.to_nat LOGSIZE) by apply length_replicate.
  assert (Hch : length (committed_header w) = block_ints).
  { unfold committed_header. rewrite length_header_image; rewrite ?sized_bview by done; lia. }
  assert (Hslot_val : ∀ j, 0 <= j < cur_n w →
            last_write (write_log_writes w) (slot w j) = Some (bview w (home w j))).
  { intros j Hj. unfold write_log_writes.
    rewrite (last_write_fmap (slot w) (fun j => bview w (home w j))); [done| |].
    - apply elem_of_seqZ. lia.
    - intros j' Hj'%elem_of_seqZ Heq. apply slot_inj in Heq; [by subst|done|lia|lia]. }
  assert (Hhome_keys : ∀ b, (∀ j, 0 <= j < cur_n w → b ≠ home w j) →
                            b ∉ (install_writes w).*1).
  { intros b Hb. apply not_in_fmap_keys. intros j Hj%elem_of_seqZ.
    apply not_eq_sym, Hb. lia. }
  unfold crash_disk in *. rewrite writes_of_commit_events in *.
  destruct (k - Z.to_nat (cur_n w))%nat as [|m] eqn:Em; [lia|].
  assert (Htake : take k (write_log_writes w ++ [(head w, committed_header w)] ++
                          install_writes w ++ [(head w, erased_header w)])
                  = write_log_writes w ++ [(head w, committed_header w)] ++
                    take m (install_writes w ++ [(head w, erased_header w)])).
  { rewrite take_app_ge by (rewrite length_write_log_writes; lia).
    rewrite length_write_log_writes, Em. done. }
  rewrite Htake in *. clear Htake.
  destruct (decide (m ≤ Z.to_nat (cur_n w))%nat) as [Hm|Hm].
  - rewrite take_app_le in * by (rewrite length_install_writes; lia).
    set (dk' := replay (write_log_writes w ++ [(head w, committed_header w)] ++
                        take m (install_writes w)) (disk w)) in *.
    assert (Hhead : dread dk' (head w) = committed_header w).
    { unfold dk'. rewrite dread_replay, !last_write_app.
      rewrite last_write_take_None.
      - simpl. by rewrite decide_True.
      - apply Hhome_keys. intros j Hj. apply not_eq_sym, home_ne_head; done. }
    assert (Hslots : ∀ j, 0 <= j < cur_n w → dread dk' (slot w j) = bview w (home w j)).
    { intros j Hj. unfold dk'. rewrite dread_replay, !last_write_app.
      rewrite last_write_take_None.
      - simpl. rewrite decide_False by (apply slot_ne_head; (done || lia)).
        by rewrite Hslot_val.
      - apply Hhome_keys. intros j' Hj'. apply not_eq_sym, home_ne_slot; done. }
    destruct (recover_boot l dk') as (wr & Hr & _ & _ & _ & _ & Hdr); try done.
    { unfold disk_log_ok. change (head_id l) with (head w).
      rewrite Hhead, disk_count_committed, disk_entries_committed by lia.
      split; [lia|]. exact Hout. }
    exists wr. split; [done|]. split; [done|]. split; [done|].
    intros b. rewrite Hdr, Hd. unfold recovery_writes.
    change (recovery_copies l dk') with (recovery_copies (logger w) dk').
    rewrite (recovery_copies_committed w dk') by done.
    change (head_id l) with (head w). rewrite Hhead.
    change (<[0%nat := 0]> (committed_header w)) with (erased_header w).
    unfold dk'. rewrite !dread_replay, !last_write_app. simpl.
    destruct (decide (b = head w)) as [->|Hb]; [done|].
    destruct (last_write (install_writes w) b) as [v|] eqn:E; [done|].
    apply last_write_None in E. by rewrite last_write_take_None.
  - rewrite take_ge in * by (rewrite length_app, length_install_writes; simpl; lia).
    rewrite <- Hd in *.
    assert (Hhead : dread (disk w') (head w) = erased_header w).
    { unfold dread. by rewrite (commit_head_on_disk w w')
        by (by rewrite Hd, writes_of_commit_events). }
    assert (Hcnt : disk_count (dread (disk w') (head w)) = 0) by by rewrite Hhead.
    assert (Hcopies : recovery_copies l (disk w') = []).
    { unfold recovery_copies, disk_entries. change (head_id l) with (head w).
      by rewrite Hcnt. }
    destruct (recover_boot l (disk w')) as (wr & Hr & _ & _ & _ & _ & Hdr); try done.
    { unfold disk_log_ok, disk_entries. change (head_id l) with (head w).
      rewrite Hcnt. split; [lia|done]. }
    exists wr. split; [done|]. split; [done|]. split; [done|].
    intros b. rewrite Hdr. unfold recovery_writes. rewrite Hcopies. simpl.
    change (head_id l) with (head w).
    rewrite dread_insert. destruct (decide (b = head w)) as [->|]; [|done].
    rewrite Hhead. done.
Qed.

(** ** Two operations, one commit *)

(** X21.  Group commit.  Two operations are inside one transaction.
    The [end_op] of the first writes nothing to the disk and
    leaves the entries in the header; the [end_op] of the second commits:
    the home blocks of all entries hold the cache contents, and the log is
    idle. *)
Theorem group_commit (w : world) :
  well_formed w → log_committing (logger w) = 0 → log_outstanding (logger w) = 2 →
  ∃ w1 w2, end_op w = Done w1 ∧ disk w1 = disk w ∧
           cur_n w1 = cur_n w ∧ cur_block w1 = cur_block w ∧
           log_outstanding (logger w1) = 1 ∧
           end_op w1 = Done w2 ∧ idle (logger w2) ∧
           ∀ j, 0 <= j < cur_n w → dread (disk w2) (home w j) = bview w (home w j).
Proof.
  intros Hwf Hc Ho. pose proof Hwf as (_ & _ & _ & _ & Hs & _).
  set (w1 := emit EvRelease (emit EvWakeup
               (set_logger (set_outstanding 1 (logger w)) (emit EvAcquire w)))).
  assert (H1 : end_op w = Done w1).
  { unfold end_op. simpl. rewrite Hc, Ho. done. }
  assert (Hwf1 : well_formed (committing_world w1)) by (by apply (well_formed_logger w)).
  destruct (commit_well_formed _ Hwf1) as (w2 & Hcm & Hwf2 & Hl2 & Hd2).
  exists w1, (commit_done w2).
  split; [done|]. split; [done|]. split; [done|]. split; [done|]. split; [done|].
  split; [|split].
  - rewrite end_op_last; [by rewrite Hcm|done|done].
  - unfold idle, commit_done. simpl. rewrite Hl2. done.
  - intros j Hj. simpl. apply Hd2; [|done].
    change (cur_n (committing_world w1)) with (cur_n w). lia.
Qed.
(** ** An update and the commit that follows *)

(** X22.  The commit writes the last contents.  In an open transaction
    with room, let the only operation inside modify and record a block of
    the log's device outside the log region, whether the block is in the
    transaction already or not, and then leave.  Both calls return; the
    update itself writes nothing to disk and takes a new entry only when
    the block was not logged; after [end_op] the block holds on disk the
    contents of this last update, every other logged block holds the
    contents the cache had for it, and the log is idle. *)
Theorem update_then_commit (b : blockid) (d : block) (w : world) :
  well_formed w → log_committing (logger w) = 0 → log_outstanding (logger w) = 1 →
  is_int (log_size (logger w) - 1) →
  cur_n w < LOGSIZE → cur_n w < log_size (logger w) - 1 →
  loggable (logger w) b → b.1 = to_uint (log_dev (logger w)) → length d = block_ints →
  ∃ w1 w2,
    logged_update b d w = Done w1 ∧ end_op w1 = Done w2 ∧
    (logged w b.2 → cur_n w1 = cur_n w) ∧
    (¬ logged w b.2 → cur_n w1 = cur_n w + 1) ∧
    disk w1 = disk w ∧
    dread (disk w2) b = d ∧
    (∀ j, 0 <= j < cur_n w → home w j ≠ b →
          dread (disk w2) (home w j) = bview w (home w j)) ∧
    idle (logger w2).
Proof.
  intros Hwf Hc Ho Hsz HnL Hnsz (Hb & Hfar) Hdev Hd.
  pose proof Hwf as (Hg & Hn & Hlen & Hfars & Hs & Hfit). pose proof Hg as (HL & Hs0 & Hs1).
  assert (Hu : to_uint (to_int b.2) = b.2).
  { rewrite to_uint_to_int. unfold to_uint. apply Z.mod_small. lia. }
  assert (Hbid : ∀ h, to_uint h = b.2 → home_id (logger w) h = b).
  { intros h Hh. unfold home_id. rewrite Hh, <- Hdev. by destruct b. }
  set (wa := set_data b d (bread b w)).
  assert (Hla : logger wa = logger w) by (unfold wa; by obs).
  assert (Hna : cur_n wa = cur_n w) by (unfold cur_n; by rewrite Hla).
  assert (Hba : cur_block wa = cur_block w) by (unfold cur_block; by rewrite Hla).
  destruct (log_write_run b wa)
    as (r & wb & Hlw & Hr & Hbefore & Hat & Hdb & Hvb & Hbb & Hlb & Hhit & Hmiss).
  { by rewrite Hla. }
  { rewrite Hla. unfold log_write_fatal, cur_n in *. lia. }
  { lia. }
  { lia. }
  { by rewrite Hba. }
  rewrite Hna in Hr, Hat, Hhit, Hmiss. rewrite Hba in Hbb. rewrite Hla in Hlb.
  set (w1 := brelse b wb).
  assert (Hl1 : logger w1 = set_lh (log_lh (logger w1)) (logger w)).
  { unfold w1. by rewrite brelse_logger. }
  assert (Hb1 : cur_block w1 = <[Z.to_nat r := to_int b.2]> (cur_block w)).
  { unfold w1. by rewrite brelse_cur_block. }
  assert (Hv1 : ∀ b', bview w1 b' = if decide (b' = b) then d else bview w b').
  { intros b'. unfold w1. rewrite brelse_bview, Hvb. unfold wa.
    by rewrite set_data_bview, bread_bview. }
  assert (Hd1 : disk w1 = disk w).
  { unfold w1. rewrite brelse_disk, Hdb. unfold wa. by rewrite set_data_disk, bread_disk. }
  assert (Hcases : (0 <= r < cur_n w ∧ cur_n w1 = cur_n w) ∨
                   (r = cur_n w ∧ cur_n w1 = cur_n w + 1 ∧ cur_n w < LOGSIZE)).
  { unfold w1. rewrite brelse_cur_n.
    destruct (decide (r = cur_n w)) as [->|Hne].
    - right. destruct Hmiss as [-> _]; done.
    - left. destruct Hhit as [-> _]; lia. }
  assert (Hentry_wa : ∀ j, entry wa j = entry w j) by (intros j; unfold entry; by rewrite Hba).
  assert (Hlogged : logged w b.2 ↔ r < cur_n w).
  { rewrite logged_iff by lia. split.
    - intros (j & Hj & Hjx). destruct (decide (r < cur_n w)); [done|].
      exfalso. apply (Hbefore j); [lia|]. by rewrite Hentry_wa.
    - intros Hrn. exists r. split; [lia|]. rewrite <- Hentry_wa. by apply Hat. }
  assert (Hwf1 : well_formed w1).
  { apply (well_formed_insert w w1 r (to_int b.2)); try done.
    - apply brelse_sized, (log_write_sized b wa); [|done].
      by apply set_data_sized, bread_sized.
    - by rewrite Hl1.
    - by rewrite Hu. }
  assert (Hwfc : well_formed (committing_world w1)).
  { apply (well_formed_logger w1); try done. by destruct Hwf1 as (_ & _ & _ & _ & ? & _). }
  destruct (commit_well_formed _ Hwfc) as (w2 & Hcm & Hwf2 & Hl2 & Hd2).
  assert (Hposc : 0 < cur_n (committing_world w1)).
  { change (cur_n (committing_world w1)) with (cur_n w1).
    destruct Hcases as [[? ->]|(_ & -> & _)]; lia. }
  assert (Hhomes : ∀ j, 0 <= j < cur_n w1 →
            dread (disk w2) (home w1 j) = bview w1 (home w1 j)).
  { intros j Hj. by apply (Hd2 Hposc j). }
  assert (Hentry1 : ∀ j, 0 <= j → j ≠ r → entry w1 j = entry w j).
  { intros j Hj Hjr. unfold entry. rewrite Hb1.
    rewrite list_lookup_insert_ne by lia. done. }
  assert (Hentry_r : entry w1 r = to_int b.2).
  { unfold entry. rewrite Hb1, list_lookup_insert_eq by lia. done. }
  assert (Hhome_r : home w1 r = b).
  { unfold home. rewrite Hentry_r, Hl1. by apply Hbid. }
  exists w1, (commit_done w2).
  split; [by (change (log_write b wa ≫= (fun w' => Done (brelse b w')) = Done w1);
              rewrite Hlw)|].
  split.
  { rewrite end_op_last.
    - by rewrite Hcm.
    - by rewrite Hl1.
    - rewrite Hl1. simpl. by rewrite Ho. }
  split; [intros Hlg%Hlogged; destruct Hcases as [[_ ?]|[? _]]; [done|lia]|].
  split; [intros Hlg; destruct Hcases as [[? _]|(_ & ? & _)]; [|done];
          exfalso; apply Hlg, Hlogged; lia|].
  split; [done|]. split; [|split].
  - change (disk (commit_done w2)) with (disk w2). rewrite <- Hhome_r at 1.
    rewrite Hhomes, Hhome_r, Hv1, decide_True; [done|done|].
    destruct Hcases as [[? ->]|(-> & -> & _)]; lia.
  - intros j Hj Hne. change (disk (commit_done w2)) with (disk w2).
    assert (Hjr : j ≠ r).
    { intros ->. apply Hne. unfold home. apply Hbid.
      rewrite <- Hentry_wa. apply Hat. lia. }
    assert (Hh : home w1 j = home w j).
    { unfold home. rewrite Hentry1, Hl1 by (done || lia). done. }
    rewrite <- Hh at 1. rewrite Hhomes, Hh, Hv1, decide_False; [done|done|].
    destruct Hcases as [[? ->]|(_ & -> & _)]; lia.
  - unfold idle, commit_done. simpl. rewrite Hl2. done.
Qed.

End Proofs.

(** * The theorems at work on the examples *)

Module Witness.

#[local] Existing Instance Ex.small.
Import Ex.

Ltac run := vm_compute; reflexivity.
Ltac geometry := compute_done.
Ltac header := unfold header_ok, outside_log; compute_done.
Ltac sizes := unfold sized; compute_done.

(** The commit of the example, crashed after four writes, then recovered:
    both home blocks hold what the cache held at the commit. *)
Lemma crash_atomicity_witness :
  ∃ wr, initlog 1 sb (boot crashed) = Done wr ∧
        dread (disk wr) (1, 50) = second50 ∧ dread (disk wr) (1, 90) = new90.
Proof.
  destruct (crash_atomicity committing) as (_ & w' & _ & _ & _ & _ & Hafter);
    [compute_done|geometry|header|sizes|compute_done|].
  destruct (Hafter 4%nat 5) as (wr & Hi & Hh); [compute_done|].
  exists wr. split; [exact Hi|].
  split; [apply (Hh 0)|apply (Hh 1)]; compute_done.
Defined.

Lemma commit_phases_witness :
  commit mounted = Done mounted ∧
  ∃ w', commit committing = Done w' ∧
        trace w' = trace committing ++ commit_events committing ∧
        logger w' = set_n 0 (logger committing) ∧
        disk w' = replay (writes_of (commit_events committing)) (disk committing).
Proof.
  split.
  - apply (proj1 (commit_phases mounted)). run.
  - apply (proj2 (commit_phases committing));
      [compute_done|geometry|header|sizes|compute_done].
Defined.

(** Block 50 logged three times in the operation of the example: one
    entry.  And the block of the fourth of four operations, which takes the
    last entry of the header: a second [log_write] of it panics. *)
Lemma log_absorption_witness :
  (∃ w1 wN, log_write (1, 50) opened = Done w1 ∧
            log_write_times 3 (1, 50) opened = Done wN ∧
            logger wN = logger w1 ∧ logged wN 50 ∧
            (logged opened 50 → cur_n wN = cur_n opened) ∧
            (¬ logged opened 50 → cur_n wN = cur_n opened + 1) ∧
            disk wN = disk opened ∧
            ∃ tr, trace wN = trace w1 ++ tr ∧ ∀ b', EvBpin b' ∉ tr) ∧
  (∃ w1, log_write (1, 60) last_entry = Done w1 ∧ logged w1 60 ∧
         cur_n w1 = cur_n last_entry + 1 ∧
         log_write (1, 60) w1 = Panic "too big a transaction" ∧
         log_write_times 2 (1, 60) last_entry = Panic "too big a transaction").
Proof.
  split.
  - apply (log_absorption (1, 50) opened 3);
      [compute_done|compute_done|compute_done|compute_done|compute_done|compute_done
      |run|unfold is_int; compute_done|compute_done|lia|].
    right. right. compute_done.
  - destruct (log_absorption (1, 60) last_entry 2) as (_ & _ & _ & Hlast & _);
      [compute_done|compute_done|compute_done|compute_done|compute_done|compute_done
      |run|unfold is_int; compute_done|compute_done|lia|].
    destruct Hlast as (w1 & H1 & Hl & Hn & Hp & HN);
      [unfold logged; compute_done|left; compute_done|].
    exists w1. split; [exact H1|]. split; [exact Hl|]. split; [exact Hn|].
    split; [exact Hp|]. apply HN. lia.
Defined.

(** Four operations are open, as many as [begin_op] admits, and three of
    them have logged their block.  The fourth logs its block twice: the
    first [log_write] returns, having taken the last entry of the header,
    and the second one panics. *)
Lemma log_absorption_counterexample :
  ¬ (∀ (b : blockid) (w : world) (N : nat),
       1 <= log_outstanding (logger w) → (1 ≤ N)%nat →
       (∃ w1, log_write b w = Done w1) →
       ∃ wN, log_write_times N b w = Done wN).
Proof.
  intros H.
  destruct (H (1, 60) last_entry 2%nat) as (wN & HN);
    [compute_done|lia|by exists full|].
  vm_compute in HN. discriminate HN.
Defined.

Lemma capacity_invariant_witness : capacity_inv dirty.
Proof.
  apply (proj2 (capacity_invariant dirty ltac:(compute_done) ltac:(compute_done))).
  apply (reach_logged_update _ wrote90 (1, 50) second50); [|run].
  apply (reach_logged_update _ wrote50 (1, 90) new90); [|run].
  apply (reach_logged_update _ opened (1, 50) first50); [|run].
  change opened with (admission_world (begin_op [] mounted)).
  apply (reach_begin _ mounted).
  apply (reach_init _ disk0 1 sb); [compute_done|run].
Defined.

(** With a log region of no block, the state [initlog] leaves has
    [n = 0 > size - 1 = -1]. *)
Lemma capacity_invariant_counterexample :
  ¬ (∀ w, reachable (fun _ => True) w → capacity_inv w).
Proof.
  intros H.
  assert (Hr : reachable (fun _ => True) unsized).
  { apply (reach_init _ disk0 1 sb_empty); [exact I|run]. }
  destruct (H unsized Hr) as [_ Hsz]. vm_compute in Hsz. by apply Hsz.
Defined.

Lemma begin_op_admission_witness :
  (∃ ws, begin_op_pass ws = Entered opened ∧
         log_committing (logger ws) = 0 ∧
         trace opened = trace ws ++ [EvRelease] ∧
         (reservation_in_range (logger ws) →
          reservation (logger ws) <= LOGSIZE ∧
          log_outstanding (logger opened) = log_outstanding (logger ws) + 1)) ∧
  begin_op_pass busy = Asleep (emit EvSleep busy).
Proof.
  split.
  - apply (proj1 (begin_op_admission [] mounted) opened). run.
  - apply (proj2 (begin_op_admission [] busy)). left. compute_done.
Defined.

Lemma end_op_protocol_witness :
  ∃ w', end_op dirty = Done w' ∧
        trace w' = trace dirty ++ [EvAcquire; EvRelease] ++ commit_events dirty ++
                   [EvAcquire; EvWakeup; EvRelease] ∧
        log_committing (logger w') = 0 ∧ log_outstanding (logger w') = 0 ∧
        cur_n w' = 0.
Proof.
  destruct (end_op_protocol dirty) as (_ & _ & _ & H).
  destruct H as (_ & _ & H); [compute_done|compute_done|].
  apply H; [compute_done|geometry|header|sizes|compute_done].
Defined.

Lemma log_write_panics_iff_witness :
  (is_panic (log_write (1, 50) mounted) ↔ log_write_fatal (logger mounted)) ∧
  ∃ w', log_write (1, 50) opened = Done w' ∧
        to_int 50 ∈ take (Z.to_nat (cur_n w')) (cur_block w').
Proof.
  split.
  - apply (proj1 (log_write_panics_iff (1, 50) mounted ltac:(compute_done))).
  - apply (proj2 (log_write_panics_iff (1, 50) opened ltac:(compute_done)));
      [unfold log_write_fatal; compute_done|compute_done|compute_done|run].
Defined.

Lemma recovery_idempotent_witness :
  ∃ w1, recover_from_log rebooted = Done w1 ∧
        dread (disk w1) (1, 50) = second50 ∧ dread (disk w1) (1, 90) = new90 ∧
        disk_count (dread (disk w1) (1, 2)) = 0 ∧
        ∃ w2, recover_from_log w1 = Done w2 ∧ disk w2 = disk w1.
Proof.
  destruct (recovery_idempotent rebooted) as (w1 & Hr & Hd & Hc & _ & Hw2);
    [intros b; reflexivity|sizes|compute_done|compute_done|run|compute_done|].
  exists w1. split; [exact Hr|].
  simpl in Hd. rewrite Hd.
  split; [compute_done|]. split; [compute_done|]. split; [compute_done|].
  rewrite <- Hd. exact Hw2.
Defined.

(** The header block on disk claims nine entries, and the header holds
    four: [read_head] reads them into [logger.lh.block] all the same. *)
Lemma recovery_idempotent_counterexample :
  ¬ (∀ w, clean w → sized w → length (cur_block w) = Z.to_nat LOGSIZE →
          ∃ w1, recover_from_log w = Done w1).
Proof.
  intros H.
  destruct (H rebooted_overfull) as (w1 & H1);
    [intros b; reflexivity|sizes|run|].
  vm_compute in H1. discriminate H1.
Defined.

Lemma initlog_panics_iff_witness : ∃ w', initlog 1 sb (boot disk0) = Done w'.
Proof.
  apply (proj2 (initlog_panics_iff 1 sb) disk0); compute_done.
Defined.

(** A header of seven entries is 32 bytes long and fits a block of 32
    bytes, yet [initlog] panics. *)
Lemma initlog_panics_iff_counterexample :
  ¬ (is_panic (initlog (P := tight) 1 sb (boot (P := tight) disk0))
     ↔ ¬ header_fits (P := tight)).
Proof.
  intros [H _]. apply H; [exact I|]. compute_done.
Defined.

Lemma clear_header_frame_witness :
  (∃ w', write_head mounted = Done w' ∧
         disk w' = <[head mounted := <[0%nat := 0]> (bview mounted (head mounted))]> (disk mounted) ∧
         ∀ i, (0 < i)%nat →
              dread (disk w') (head mounted) !! i = bview mounted (head mounted) !! i) ∧
  (∃ w', commit committing = Done w' ∧
         disk_count (dread (disk w') (head committing)) = 0 ∧
         ∀ j, 0 <= j < cur_n committing →
              dread (disk w') (head committing) !! Z.to_nat (1 + j)
              = Some (entry committing j)) ∧
  (∃ w', recover_from_log rebooted_clean = Done w' ∧
         cur_block w' = cur_block rebooted_clean ∧ cur_n w' = 0 ∧
         trace w' = trace rebooted_clean ++
                    [EvBwrite (head rebooted_clean) (bview rebooted_clean (head rebooted_clean))] ∧
         ∀ b, dread (disk w') b = dread (disk rebooted_clean) b).
Proof.
  split; [|split].
  - apply (proj1 (clear_header_frame mounted)); compute_done.
  - apply (proj1 (proj2 (clear_header_frame committing)));
      [compute_done|geometry|header|sizes|compute_done].
  - apply (proj2 (proj2 (clear_header_frame rebooted_clean)));
      [intros b; reflexivity|sizes|compute_done|compute_done|run|compute_done].
Defined.

(** ** The scenarios of the spec, run *)

(** One operation writes blocks 50 and 90, writes block 50 again and
    leaves: the commit puts the second contents of block 50 and the
    contents of block 90 on disk and leaves the header on disk cleared. *)
Example scenario_exit_commits :
  ∃ w', end_op dirty = Done w' ∧
        entries dirty = [50; 90] ∧
        dread (disk w') (1, 50) = second50 ∧ dread (disk w') (1, 90) = new90 ∧
        disk_count (dread (disk w') (1, 2)) = 0 ∧ cur_n w' = 0.
Proof. eexists. split; [run|]. compute_done. Qed.

(** Two operations are outstanding; the first to leave does not commit, the
    second commits the blocks of both. *)
Example scenario_group_commit :
  end_op both_dirty = Done one_left ∧
  disk one_left = disk both_dirty ∧ log_outstanding (logger one_left) = 1 ∧
  ∃ w', end_op one_left = Done w' ∧
        dread (disk w') (1, 50) = second50 ∧ dread (disk w') (1, 90) = new90 ∧
        log_outstanding (logger w') = 0 ∧ cur_n w' = 0.
Proof.
  split; [run|]. split; [compute_done|]. split; [compute_done|].
  eexists. split; [run|]. compute_done.
Qed.

(** The disk was left with a committed header for blocks 50 and 90 and
    block 90 not yet installed: recovery installs both and clears the
    header. *)
Example scenario_recovery :
  dread crashed (1, 2) = [2; 50; 90; 0; 0; 0; 0; 0] ∧ dread crashed (1, 90) = old90 ∧
  ∃ w', initlog 1 sb (boot crashed) = Done w' ∧
        dread (disk w') (1, 50) = second50 ∧ dread (disk w') (1, 90) = new90 ∧
        dread (disk w') (1, 2) = [0; 50; 90; 0; 0; 0; 0; 0].
Proof.
  split; [compute_done|]. split; [compute_done|].
  eexists. split; [run|]. compute_done.
Qed.

(** ** Further properties at work *)

Lemma read_head_overrun_witness : initlog 1 sb (boot overfull) = Undefined.
Proof.
  apply (proj2 (read_head_overrun ltac:(compute_done)) 1 sb overfull); compute_done.
Defined.

(** The recovery of the crashed disk, itself cut off after one write and
    run again. *)
Lemma recovery_restartable_witness :
  ∃ w1, initlog 1 sb (boot crashed) = Done w1 ∧
        ∃ w2, initlog 1 sb (boot (crash_disk crashed (trace w1) 1)) = Done w2 ∧
              ∀ b, dread (disk w2) b = dread (disk w1) b.
Proof.
  destruct (recovery_restartable 1 sb crashed) as (w1 & Hi & _ & Hk);
    [geometry|compute_done|compute_done|unfold disk_log_ok; compute_done|].
  exists w1. split; [exact Hi|]. apply (Hk 1%nat).
Defined.

Lemma recovery_releases_buffers_witness :
  refcnt recovered (1, 50) = refcnt rebooted (1, 50) ∧ refcnt recovered (1, 3) = 0.
Proof.
  destruct (recovery_releases_buffers rebooted recovered ltac:(run)) as [Hsame Hzero].
  split; [apply Hsame|apply Hzero; reflexivity].
Defined.

Lemma commit_unpins_witness :
  refcnt committed (1, 50) = refcnt committing (1, 50) - 1 ∧
  refcnt committed (1, 3) = refcnt committing (1, 3).
Proof.
  split.
  - rewrite (commit_unpins committing committed ltac:(run) (1, 50)). compute_done.
  - rewrite (commit_unpins committing committed ltac:(run) (1, 3)). compute_done.
Defined.

Lemma commit_durable_witness :
  ∃ w', commit committing = Done w' ∧
        dread (disk w') (1, 50) = second50 ∧ dread (disk w') (1, 90) = new90 ∧
        dread (disk w') (1, 70) = dread (disk committing) (1, 70).
Proof.
  destruct (commit_durable committing) as (w' & Hc & Hhome & _ & Hother);
    [compute_done|geometry|header|sizes|compute_done|].
  exists w'. split; [exact Hc|].
  split; [apply (Hhome 0); compute_done|].
  split; [apply (Hhome 1); compute_done|].
  apply Hother; [compute_done|].
  intros j Hj. assert (j = 0 ∨ j = 1) as [-> | ->] by (change (cur_n committing) with 2 in Hj; lia);
    split; compute_done.
Defined.

Lemma operation_durable_witness :
  ∃ w1 w2 w3,
    begin_op [] mounted = Entered w1 ∧ logged_update (1, 50) second50 w1 = Done w2 ∧
    end_op w2 = Done w3 ∧
    dread (disk w2) (1, 50) = dread (disk mounted) (1, 50) ∧
    dread (disk w3) (1, 50) = second50 ∧ bview w3 (1, 50) = second50 ∧
    idle (logger w3) ∧ ∀ b', refcnt w3 b' = refcnt mounted b'.
Proof.
  apply (operation_durable (1, 50) second50 mounted);
    [unfold idle; compute_done|geometry|run|sizes|compute_done|compute_done
    |compute_done|unfold loggable; compute_done|run|run].
Defined.

Lemma log_write_ignores_device_witness :
  ∃ w1 w2 w3,
    begin_op [] mounted = Entered w1 ∧ logged_update (2, 50) second50 w1 = Done w2 ∧
    end_op w2 = Done w3 ∧
    dread (disk w3) (2, 50) = dread (disk mounted) (2, 50) ∧ bview w3 (2, 50) = second50 ∧
    dread (disk w3) (to_uint (log_dev (logger mounted)), (2, 50).2)
    = bview mounted (to_uint (log_dev (logger mounted)), (2, 50).2) ∧
    refcnt w3 (2, 50) = refcnt mounted (2, 50) + 1.
Proof.
  apply (log_write_ignores_device (2, 50) second50 mounted);
    [unfold idle; compute_done|geometry|run|sizes|compute_done|compute_done
    |compute_done|unfold loggable; compute_done|compute_done|run].
Defined.

Lemma header_round_trip_witness :
  ∃ w1 w2, write_head committing = Done w1 ∧
           read_head (set_logger (fresh_logger 1 2 5) (boot (disk w1))) = Done w2 ∧
           cur_n w2 = cur_n committing ∧ entries w2 = entries committing.
Proof.
  apply (header_round_trip committing (fresh_logger 1 2 5));
    [compute_done|compute_done|run|sizes|compute_done|run|run].
Defined.

Lemma recover_negative_count_witness :
  ∃ w', recover_from_log rebooted_negative = Done w' ∧ cur_n w' = 0 ∧
        disk_count (dread (disk w') (head rebooted_negative)) = 0 ∧
        ∀ b, b ≠ head rebooted_negative →
             dread (disk w') b = dread (disk rebooted_negative) b.
Proof.
  destruct (recover_negative_count rebooted_negative)
    as (w' & Hr & Hn & _ & _ & Hc & Hd);
    [intros b; reflexivity|sizes|compute_done|compute_done|run|compute_done|].
  by exists w'.
Defined.

(** The commit of the example, crashed after its first write, then
    recovered: both home blocks hold their old contents. *)
Lemma uncommitted_crash_leaves_old_witness :
  ∃ wr, initlog 1 sb (boot (crash_disk (disk committing) (commit_events committing) 1))
        = Done wr ∧
        dread (disk wr) (1, 50) = old50 ∧ dread (disk wr) (1, 90) = old90.
Proof.
  destruct (uncommitted_crash_leaves_old committing 5 1)
    as (w' & wr & _ & _ & Hi & _ & _ & Hd);
    [compute_done|geometry|header|sizes|compute_done|compute_done|compute_done|].
  exists wr. split; [exact Hi|].
  split.
  - rewrite Hd; [compute_done|].
    intros j Hj. assert (j = 0 ∨ j = 1) as [-> | ->] by (change (cur_n committing) with 2 in Hj; lia);
      compute_done.
  - rewrite Hd; [compute_done|].
    intros j Hj. assert (j = 0 ∨ j = 1) as [-> | ->] by (change (cur_n committing) with 2 in Hj; lia);
      compute_done.
Defined.

Lemma initlog_ready_witness :
  ∃ w, initlog 1 sb (boot disk0) = Done w ∧ idle (logger w) ∧
       log_start (logger w) = 2 ∧ log_size (logger w) = 5 ∧ ∀ b, refcnt w b = 0.
Proof.
  destruct (initlog_ready 1 sb disk0)
    as (w & Hi & Hidle & Hst & Hsz & _ & _ & _ & _ & _ & Hr);
    [compute_done|compute_done|compute_done|compute_done|].
  exists w. done.
Defined.

(** The [end_op] that commits the example returns with the lock free.  The
    caller of [begin_op] that finds the log nearly full: asleep it does not
    hold the lock, and the [end_op] that commits takes and gives
    back the lock during its sleep; admitted after its wakeup, it leaves
    the lock free and nobody asleep. *)
Lemma lock_discipline_witness :
  lock_of ended = lock_free 0 ∧
  lock_of (emit EvSleep (emit EvAcquire nearly_full)) = lock_free 1 ∧
  lock_of readmitted = lock_free 0.
Proof.
  split; [apply (proj1 (proj2 (lock_discipline dirty 0 ltac:(run))) ended); run|].
  destruct (lock_discipline nearly_full 0 ltac:(run)) as (_ & _ & Hb & _).
  split.
  - apply (proj2 (Hb [] ltac:(constructor))). run.
  - destruct (Hb [fun w => after (end_op w) w]) as [He _]; [|apply He; run].
    constructor; [|constructor]. intros w0 H0.
    unfold after. destruct (end_op w0) as [w1| |] eqn:E; [|exact H0|exact H0].
    exact (proj1 (proj2 (lock_discipline w0 1 H0)) w1 E).
Defined.

Lemma reservation_suffices_witness :
  ∃ w', log_write_all [(1, 50)] opened = Done w' ∧
        cur_n entering <= cur_n w' <= cur_n entering + 1 ∧
        cur_n w' <= LOGSIZE ∧ disk w' = disk entering.
Proof.
  apply (reservation_suffices [(1, 50)] entering opened);
    [run|unfold reservation_in_range, is_int; compute_done|compute_done|compute_done
    |compute_done|compute_done|compute_done|run|compute_done].
Defined.

Lemma log_write_no_duplicates_witness :
  ∃ w', log_write (1, 50) wrote90 = Done w' ∧ NoDup (to_uint <$> entries w') ∧
        ∀ x, logged w' x ↔ logged wrote90 x ∨ x = 50.
Proof.
  apply (log_write_no_duplicates (1, 50) wrote90);
    [compute_done|unfold log_write_fatal; compute_done|compute_done|compute_done
    |run|compute_done|].
  vm_compute. apply NoDup_cons. split; [|apply NoDup_singleton].
  intros H%list_elem_of_singleton. discriminate H.
Defined.

(** Block 50 is in the full header, and a [log_write] of it panics all the
    same; outside an operation [log_write] panics with its second message;
    [end_op] panics during a commit. *)
Lemma panic_messages_witness :
  logged full 50 ∧
  log_write (1, 50) full = Panic "too big a transaction" ∧
  log_write (1, 50) mounted = Panic "log_write outside of trans" ∧
  end_op committing = Panic "logger.committing" ∧
  ¬ is_panic (commit committing).
Proof.
  destruct panic_messages as (_ & _ & _ & Hfull & Hout & _ & Hend & Hc & _).
  split; [unfold logged; compute_done|].
  split; [apply Hfull; left; compute_done|].
  split; [apply Hout; compute_done|].
  split; [apply Hend; compute_done|apply Hc].
Defined.

Lemma well_formed_kept_witness :
  ∃ w, initlog 1 sb (boot disk0) = Done w ∧ well_formed w.
Proof.
  apply (proj1 well_formed_kept 1 sb disk0); [geometry|compute_done..].
Defined.

Lemma write_head_layout_witness :
  ∃ w', write_head committing = Done w' ∧
        dread (disk w') (head committing) !! 0%nat = Some 2 ∧
        dread (disk w') (head committing) !! 1%nat = Some 50 ∧
        dread (disk w') (head committing) !! 2%nat = Some 90.
Proof.
  destruct (write_head_layout committing) as (w' & Hw & _ & H0 & Hj & _);
    [compute_done|compute_done|compute_done|].
  exists w'. split; [exact Hw|]. split; [exact H0|].
  split; [apply (Hj 0)|apply (Hj 1)]; compute_done.
Defined.

Lemma commit_stays_in_region_witness :
  Forall (fun p => p.1.1 = 1 ∧
                   (2 <= p.1.2 < 2 + 5 ∨ ∃ j, 0 <= j < 2 ∧ p.1 = home committing j))
         (writes_of (commit_events committing)).
Proof.
  destruct (commit_stays_in_region committing) as (w' & _ & _ & H);
    [compute_done|geometry|header|sizes|compute_done|compute_done|].
  apply Forall_forall. intros [b d] Hin. exact (H b d Hin).
Defined.

(** A second caller finds three of the four entries taken, sleeps through
    the commit of the first and is admitted into the empty log. *)
Lemma begin_op_waits_for_commit_witness :
  begin_op [] nearly_full = Asleep (emit EvSleep (emit EvAcquire nearly_full)) ∧
  ∃ w', begin_op [fun w1 => after (end_op w1) w1] nearly_full = Entered w' ∧
        cur_n w' = 0 ∧ log_outstanding (logger w') = 1 ∧
        dread (disk w') (1, 50) = second50 ∧ dread (disk w') (1, 70) = new90.
Proof.
  destruct (begin_op_waits_for_commit nearly_full) as (Hs & w' & Hb & Hn & Ho & _ & Hd);
    [|compute_done|compute_done|compute_done|compute_done|].
  { unfold well_formed. split; [geometry|]. split; [compute_done|]. split; [run|].
    split; [compute_done|]. split; [sizes|compute_done]. }
  split; [exact Hs|]. exists w'. split; [exact Hb|]. split; [exact Hn|].
  split; [exact Ho|].
  split; [apply (Hd 0)|apply (Hd 2)]; compute_done.
Defined.

(** The commit of the example, crashed after four writes, then recovered:
    the disk is that of the finished commit. *)
Lemma committed_crash_recovers_new_witness :
  ∃ w' wr, commit committing = Done w' ∧
           initlog 1 sb (boot crashed) = Done wr ∧
           ∀ b, dread (disk wr) b = dread (disk w') b.
Proof.
  destruct (committed_crash_recovers_new committing 5 4) as (w' & wr & Hc & _ & Hi & Hd);
    [compute_done|geometry|header|sizes|compute_done|compute_done|].
  exists w', wr. split; [exact Hc|]. split; [exact Hi|exact Hd].
Defined.

Lemma group_commit_witness :
  ∃ w1 w2, end_op both_dirty = Done w1 ∧ disk w1 = disk both_dirty ∧
           end_op w1 = Done w2 ∧ idle (logger w2) ∧
           dread (disk w2) (1, 50) = second50 ∧ dread (disk w2) (1, 90) = new90.
Proof.
  destruct (group_commit both_dirty)
    as (w1 & w2 & H1 & Hd1 & _ & _ & _ & H2 & Hidle & Hd2);
    [|compute_done|compute_done|].
  { unfold well_formed. split; [geometry|]. split; [compute_done|]. split; [run|].
    split; [compute_done|]. split; [sizes|compute_done]. }
  exists w1, w2. split; [exact H1|]. split; [exact Hd1|]. split; [exact H2|].
  split; [exact Hidle|].
  split; [apply (Hd2 0)|apply (Hd2 1)]; compute_done.
Defined.

(** Block 50 is written a second time in the transaction of the example:
    no new entry, and the commit writes the second contents. *)
Lemma update_then_commit_witness :
  ∃ w1 w2, logged_update (1, 50) second50 wrote90 = Done w1 ∧ end_op w1 = Done w2 ∧
           cur_n w1 = cur_n wrote90 ∧
           dread (disk w2) (1, 50) = second50 ∧ dread (disk w2) (1, 90) = new90.
Proof.
  destruct (update_then_commit (1, 50) second50 wrote90)
    as (w1 & w2 & H1 & H2 & Hhit & _ & _ & Hb & Hothers & _);
    [|compute_done|compute_done|unfold is_int; compute_done|compute_done|compute_done
     |unfold loggable; compute_done|run|run|].
  { unfold well_formed. split; [geometry|]. split; [compute_done|]. split; [run|].
    split; [compute_done|]. split; [sizes|compute_done]. }
  exists w1, w2. split; [exact H1|]. split; [exact H2|].
  split; [apply Hhit; unfold logged; compute_done|]. split; [exact Hb|].
  apply (Hothers 1); compute_done.
Defined.

End Witness.
